(** * TaggedApi: the batching API client of api-angular.js

    A shallow embedding of the client in [src/api-angular.js]: the parameter
    encoder ([parameterize], [stringifyCall], [stringifyQueue]), the deep
    merge ([mergeRecursive]), the queue and its flush timer ([execute],
    [_postToApi], [resetQueue]), the response demultiplexer
    ([parseResponseBody], [resolveQueue], [rejectQueue]), the event hub
    ([on]) and the promise cache kept by [execute]. *)

From Stdlib Require Import ZArith List String Ascii DecimalString.
From Stdlib Require QArith.
From stdpp Require Import base option list gmap strings.

Set Warnings "-register-all".

Local Open Scope string_scope.
Local Open Scope Z_scope.

(** ** JavaScript values

    Strings are sequences of code units below 256, numbers are the
    integer-valued numbers (printed in decimal), objects are plain data:
    the list of their own enumerable properties in [for-in] order, without
    accessors and with [Object.prototype] as prototype.

    What the embedding leaves to the reader of a theorem:
    - a property that is not in the list of an object reads as [undefined],
      and [obj.hasOwnProperty(p)] is the test of that list. JavaScript
      answers differently for an object that has, as a key of its own, a
      name that every object inherits ([hasOwnProperty] itself,
      [__proto__], [constructor], [toString], ...) or [toJSON]. The
      predicate [ordinary], below, says that a value has no such key at any
      depth; a theorem that depends on it takes ordinary values, and a
      theorem about the states of a client takes the states reached by
      [ordinary_action]s;
    - a function value is its source text: nothing calls it. A subscriber
      given to [on] returns or throws ([callback]): it observes the call
      and the result it is given, it does not change them, settle the call
      itself or call the client while it is notified;
    - the params that [execute] queues are a value of their own ([enqueue]):
      the objects that the queued params share with the instance's params or
      with the caller's are the matter of [Module Store];
    - [JSON.stringify] returns for every value here (a tree without
      [toJSON]); it throws for cyclic params and for a BigInt;
    - a number is printed in plain decimal, as JavaScript prints the
      integers below 10^21 in absolute value. *)

Inductive value : Type :=
| VUndefined
| VNull
| VBool (b : bool)
| VNumber (n : Z)
| VString (s : string)
| VSymbol (description : string)
| VFunction (source : string)
| VArray (elems : list value)
| VObject (props : list (string * value)).

(** What a [throw] carries, and what a promise is rejected with: an error
    object made by the runtime or by [new Error], or any other value. *)
Inductive thrown : Type :=
| ErrorObject (name message : string)
| Value (v : value).

(** A computation that returns or throws. *)
Inductive result (A : Type) : Type :=
| Ret (a : A)
| Throw (e : thrown).

Arguments Ret {A} a.
Arguments Throw {A} e.

Definition bind {A B : Type} (r : result A) (k : A -> result B) : result B :=
  match r with
  | Ret a => k a
  | Throw e => Throw e
  end.

Notation "'let!' x ':=' r 'in' k" := (bind r (fun x => k))
  (at level 10, x name, r at level 100, k at level 200).

(** [try { r } catch (e) { h }] *)
Definition try_catch {A : Type} (r : result A) (h : thrown -> result A) : result A :=
  match r with
  | Ret a => Ret a
  | Throw e => h e
  end.

Definition TypeError (message : string) : thrown := ErrorObject "TypeError" message.
Definition Error (message : string) : thrown := ErrorObject "Error" message.

Definition typeof (v : value) : string :=
  match v with
  | VUndefined => "undefined"
  | VNull => "object"
  | VBool _ => "boolean"
  | VNumber _ => "number"
  | VString _ => "string"
  | VSymbol _ => "symbol"
  | VFunction _ => "function"
  | VArray _ => "object"
  | VObject _ => "object"
  end.

(** [!!v] *)
Definition truthy (v : value) : bool :=
  match v with
  | VUndefined | VNull => false
  | VBool b => b
  | VNumber n => negb (n =? 0)
  | VString s => negb (String.eqb s "")
  | _ => true
  end.

(** [v === s] for a string literal [s]. *)
Definition strict_eq_string (v : value) (s : string) : bool :=
  match v with
  | VString s' => String.eqb s' s
  | _ => false
  end.

Definition string_of_Z (n : Z) : string := NilZero.string_of_int (Z.to_int n).
Definition string_of_nat (n : nat) : string := NilZero.string_of_uint (Nat.to_uint n).

(** [arr.join(sep)] on strings. *)
Fixpoint join (sep : string) (parts : list string) : string :=
  match parts with
  | [] => ""
  | [p] => p
  | p :: rest => p ++ sep ++ join sep rest
  end.

(** [String(v)], the conversion [encodeURIComponent] and [+] apply. *)
Fixpoint ToString (v : value) : result string :=
  match v with
  | VUndefined => Ret "undefined"
  | VNull => Ret "null"
  | VBool true => Ret "true"
  | VBool false => Ret "false"
  | VNumber n => Ret (string_of_Z n)
  | VString s => Ret s
  | VSymbol _ => Throw (TypeError "Cannot convert a Symbol value to a string")
  | VFunction source => Ret source
  | VArray elems =>
      let! parts := (fix elements (l : list value) : result (list string) :=
                       match l with
                       | [] => Ret []
                       | e :: l' =>
                           let! s := match e with
                                     | VUndefined | VNull => Ret ""
                                     | _ => ToString e
                                     end in
                           let! ss := elements l' in
                           Ret (s :: ss)
                       end) elems in
      Ret (join "," parts)
  | VObject _ => Ret "[object Object]"
  end.

(** ** encodeURIComponent *)

Definition hex_digit (n : nat) : ascii :=
  if (n <? 10)%nat then ascii_of_nat (48 + n) else ascii_of_nat (55 + n).

Definition percent (byte : nat) : string :=
  String "%" (String (hex_digit (byte / 16)) (String (hex_digit (byte mod 16)) EmptyString)).

(** The characters [encodeURIComponent] leaves alone:
    [A-Z a-z 0-9 - _ . ! ~ * ' ( )]. *)
Definition unreserved (c : nat) : bool :=
  ((65 <=? c) && (c <=? 90) || (97 <=? c) && (c <=? 122) || (48 <=? c) && (c <=? 57)
   || (c =? 45) || (c =? 95) || (c =? 46) || (c =? 33) || (c =? 126)
   || (c =? 42) || (c =? 39) || (c =? 40) || (c =? 41))%nat.

(** One code unit: kept, or the percent-escapes of its UTF-8 bytes. *)
Definition encode_unit (a : ascii) : string :=
  let c := nat_of_ascii a in
  if unreserved c then String a EmptyString
  else if (c <? 128)%nat then percent c
  else percent (192 + c / 64) ++ percent (128 + c mod 64).

Fixpoint encode_string (s : string) : string :=
  match s with
  | EmptyString => ""
  | String a s' => encode_unit a ++ encode_string s'
  end.

Definition encodeURIComponent (v : value) : result string :=
  let! s := ToString v in Ret (encode_string s).


(** ** Properties *)

(** [for (var x in ...) { body }] over the items the loop visits, threading
    the variables the body assigns; a [throw] leaves the loop. *)
Definition for_in {A S : Type} (body : S -> A -> result S) : list A -> S -> result S :=
  fix loop (items : list A) (s : S) : result S :=
    match items with
    | [] => Ret s
    | x :: items' => let! s' := body s x in loop items' s'
    end.

Fixpoint lookup_prop (k : string) (props : list (string * value)) : option value :=
  match props with
  | [] => None
  | (k', v) :: props' => if String.eqb k k' then Some v else lookup_prop k props'
  end.

(** [obj.hasOwnProperty(k)] on the property list of [obj]. *)
Definition hasOwnProperty (props : list (string * value)) (k : string) : bool :=
  match lookup_prop k props with Some _ => true | None => false end.

(** An array index: the canonical decimal form of an integer below 2^32 - 1.
    Such keys come first in [for-in] order, in ascending order. *)
Definition array_index (k : string) : option N :=
  match NilZero.uint_of_string k with
  | Some u =>
      let n := N.of_uint u in
      if String.eqb (NilZero.string_of_uint (N.to_uint n)) k && (n <? 4294967295)%N
      then Some n else None
  | None => None
  end.

(** Adding a property that the object does not have yet: an array index goes
    before the first key that is a larger index or not an index, any other
    key goes last. *)
Fixpoint add_prop (k : string) (v : value) (props : list (string * value))
  : list (string * value) :=
  match props with
  | [] => [(k, v)]
  | (k', v') :: props' =>
      match array_index k, array_index k' with
      | Some i, Some i' =>
          if (i <? i')%N then (k, v) :: props else (k', v') :: add_prop k v props'
      | Some _, None => (k, v) :: props
      | None, _ => (k', v') :: add_prop k v props'
      end
  end.

Fixpoint replace_prop (k : string) (v : value) (props : list (string * value))
  : list (string * value) :=
  match props with
  | [] => []
  | (k', v') :: props' =>
      if String.eqb k k' then (k', v) :: props' else (k', v') :: replace_prop k v props'
  end.

Definition obj_set (k : string) (v : value) (props : list (string * value))
  : list (string * value) :=
  if hasOwnProperty props k then replace_prop k v props else add_prop k v props.

(** Writing element [i] of an array, which grows with [undefined] up to [i]. *)
Fixpoint arr_set (i : nat) (v : value) (elems : list value) : list value :=
  match i, elems with
  | O, [] => [v]
  | O, _ :: elems' => v :: elems'
  | S i', [] => VUndefined :: arr_set i' v []
  | S i', e :: elems' => e :: arr_set i' v elems'
  end.

Fixpoint nth_unit (i : nat) (s : string) : option ascii :=
  match s with
  | EmptyString => None
  | String a s' => match i with O => Some a | S i' => nth_unit i' s' end
  end.

(** [obj[p]] as a read. *)
Definition get_prop (obj : value) (p : string) : result value :=
  match obj with
  | VUndefined | VNull =>
      Throw (TypeError "Cannot read properties of undefined or null")
  | VObject props => Ret (default VUndefined (lookup_prop p props))
  | VArray elems =>
      match array_index p with
      | Some i => Ret (nth (N.to_nat i) elems VUndefined)
      | None =>
          if String.eqb p "length" then Ret (VNumber (Z.of_nat (length elems)))
          else Ret VUndefined
      end
  | VString s =>
      match array_index p with
      | Some i =>
          Ret (match nth_unit (N.to_nat i) s with
               | Some a => VString (String a EmptyString)
               | None => VUndefined
               end)
      | None =>
          if String.eqb p "length" then Ret (VNumber (Z.of_nat (String.length s)))
          else Ret VUndefined
      end
  | _ => Ret VUndefined
  end.

(** [obj[p] = v] in strict mode, giving the object after the write. A
    primitive refuses the write; on an array only index writes are kept, on a
    function none (a named property of these is read by nothing here). *)
Definition set_prop (obj : value) (p : string) (v : value) : result value :=
  match obj with
  | VUndefined | VNull => Throw (TypeError "Cannot set properties of undefined or null")
  | VBool _ | VNumber _ | VString _ | VSymbol _ =>
      Throw (TypeError ("Cannot create property " ++ p ++ " on " ++ typeof obj))
  | VObject props => Ret (VObject (obj_set p v props))
  | VArray elems =>
      match array_index p with
      | Some i => Ret (VArray (arr_set (N.to_nat i) v elems))
      | None => Ret obj
      end
  | VFunction _ => Ret obj
  end.

Fixpoint indexed (i : nat) (elems : list value) : list (string * value) :=
  match elems with
  | [] => []
  | e :: elems' => (string_of_nat i, e) :: indexed (S i) elems'
  end.

Fixpoint units (i : nat) (s : string) : list (string * value) :=
  match s with
  | EmptyString => []
  | String a s' => (string_of_nat i, VString (String a EmptyString)) :: units (S i) s'
  end.

(** The pairs [(p, obj[p])] that [for (var p in obj)] visits when the body
    skips what [obj.hasOwnProperty(p)] rejects. *)
Definition own_enumerable (obj : value) : list (string * value) :=
  match obj with
  | VObject props => props
  | VArray elems => indexed 0 elems
  | VString s => units 0 s
  | _ => []
  end.

(** [v.constructor === Object]: reading [constructor] of [undefined] or
    [null] throws; a plain object answers yes unless it has a property of
    that name of its own. *)
Definition constructor_is_Object (v : value) : result bool :=
  match v with
  | VUndefined | VNull => Throw (TypeError "Cannot read properties of undefined or null")
  | VObject props => Ret (negb (hasOwnProperty props "constructor"))
  | _ => Ret false
  end.

(** ** mergeRecursive (lines 402-422) *)

(** The body of the loop, for the property [p] of [obj2] with value [v2];
    [recurse obj] stands for [mergeRecursive(obj, obj2[p])]. *)
Definition merge_property (recurse : value -> result value)
    (obj1 : value) (p : string) (v2 : value) : result value :=
  try_catch
    (let! is_object := constructor_is_Object v2 in
     if is_object : bool then
       let! cur := get_prop obj1 p in
       let! merged := recurse cur in
       set_prop obj1 p merged
     else set_prop obj1 p v2)
    (fun _ => set_prop obj1 p v2).

Fixpoint mergeRecursive (obj1 obj2 : value) {struct obj2} : result value :=
  match obj2 with
  | VObject props =>
      for_in (fun obj1 '(p, v2) => merge_property (fun cur => mergeRecursive cur v2) obj1 p v2)
             props obj1
  | VArray elems =>
      (fix loop (i : nat) (elems : list value) (obj1 : value) : result value :=
         match elems with
         | [] => Ret obj1
         | v2 :: elems' =>
             let! obj1' := merge_property (fun cur => mergeRecursive cur v2)
                             obj1 (string_of_nat i) v2 in
             loop (S i) elems' obj1'
         end) 0%nat elems obj1
  | VString s =>
      for_in (fun obj1 '(p, v2) => merge_property (fun cur => Ret cur) obj1 p v2)
             (units 0 s) obj1
  | _ => Ret obj1
  end.

(** ** The parameter encoder (lines 295-328 and 353-398) *)

(** A queued call: lines 136-141. [deferred] names the promise whose
    [resolve] and [reject] the record holds. *)
Record CallRecord : Type := {
  method : string;
  params : value;
  deferred : nat;
  timeStart : Z * Z
}.

(** [arr.push(x)] *)
Definition push {A : Type} (arr : list A) (x : A) : list A := arr ++ [x].

Definition parameterizePrimitive (key : string) (v : value) : result string :=
  let! k := encodeURIComponent (VString key) in
  let! e := encodeURIComponent v in
  Ret (k ++ "=" ++ e).

Definition parameterizeObject (key : string) (v : value) : result string :=
  let! params :=
    match v with
    | VArray elems =>
        for_in (fun params e =>
                  let! k := encodeURIComponent (VString key) in
                  let! x := encodeURIComponent e in
                  Ret (push params (k ++ "[]=" ++ x)))
               elems []
    | _ =>
        for_in (fun params '(subkey, x) =>
                  let! k := encodeURIComponent (VString key) in
                  let! sk := encodeURIComponent (VString subkey) in
                  let! e := encodeURIComponent x in
                  Ret (push params (k ++ "[" ++ sk ++ "]=" ++ e)))
               (own_enumerable v) []
    end in
  Ret (join "&" params).

(** [null === v] *)
Definition is_null (v : value) : bool :=
  match v with VNull => true | _ => false end.

Definition parameterize (key : string) (v : value) : result string :=
  let type := typeof v in
  if String.eqb type "string" || String.eqb type "number" || String.eqb type "boolean"
  then parameterizePrimitive key v
  else if String.eqb type "undefined" then parameterizePrimitive key (VString "")
  else if String.eqb type "object"
  then if is_null v then parameterizePrimitive key v else parameterizeObject key v
  else Throw (Error ("Unable to parameterize key " ++ key ++ " with type " ++ type)).

Definition stringifyCall (call : CallRecord) : result string :=
  let! m := encodeURIComponent (VString (method call)) in
  let! params :=
    for_in (fun params '(key, v) =>
              if negb (is_null v) then
                let! pair := parameterize key v in Ret (push params pair)
              else Ret params)
           (own_enumerable (params call)) ["method=" ++ m] in
  Ret (join "&" params).

Definition newline : string := String (ascii_of_nat 10) EmptyString.

Definition stringifyQueue (queue : list CallRecord) : result string :=
  let! calls :=
    for_in (fun calls call => let! c := stringifyCall call in Ret (push calls c))
           queue [] in
  Ret (newline ++ join newline calls ++ newline).

(** ** JSON.stringify, as [execute] uses it for cache keys *)

Definition dquote : string := String (ascii_of_nat 34) EmptyString.
Definition backslash : string := String (ascii_of_nat 92) EmptyString.

Definition lower_hex_digit (n : nat) : ascii :=
  if (n <? 10)%nat then ascii_of_nat (48 + n) else ascii_of_nat (87 + n).

Definition json_escape_unit (a : ascii) : string :=
  let c := nat_of_ascii a in
  if (c =? 34)%nat then backslash ++ dquote
  else if (c =? 92)%nat then backslash ++ backslash
  else if (c =? 8)%nat then backslash ++ "b"
  else if (c =? 9)%nat then backslash ++ "t"
  else if (c =? 10)%nat then backslash ++ "n"
  else if (c =? 12)%nat then backslash ++ "f"
  else if (c =? 13)%nat then backslash ++ "r"
  else if (c <? 32)%nat
       then backslash ++ "u00" ++ String (lower_hex_digit (c / 16))
                                    (String (lower_hex_digit (c mod 16)) EmptyString)
  else String a EmptyString.

Fixpoint json_escape (s : string) : string :=
  match s with
  | EmptyString => ""
  | String a s' => json_escape_unit a ++ json_escape s'
  end.

Definition json_quote (s : string) : string := dquote ++ json_escape s ++ dquote.

(** [None] is the [undefined] that [JSON.stringify] gives for [undefined],
    a function or a symbol. *)
Fixpoint JSON_stringify (v : value) : option string :=
  match v with
  | VUndefined | VFunction _ | VSymbol _ => None
  | VNull => Some "null"
  | VBool true => Some "true"
  | VBool false => Some "false"
  | VNumber n => Some (string_of_Z n)
  | VString s => Some (json_quote s)
  | VArray elems =>
      Some ("[" ++ join "," (map (fun e => default "null" (JSON_stringify e)) elems) ++ "]")
  | VObject props =>
      Some ("{" ++ join ","
              (omap (fun '(k, x) =>
                       match JSON_stringify x with
                       | Some j => Some (json_quote k ++ ":" ++ j)
                       | None => None
                       end) props) ++ "}")
  end.

(** ** The client and its runtime *)

Inductive promise_state : Type :=
| Pending
| Resolved (v : value)
| Rejected (e : thrown).

(** [expires] of a cache entry: a time in milliseconds, or [Infinity]. *)
Inductive expiry : Type :=
| At (t : Z)
| Infinity.

(** The object stored in [this._cache] by lines 154-157. *)
Record CacheEntry : Type := {
  expires : expiry;
  promise : nat
}.

(** [config.cache]: absent, [true], or a number of seconds. *)
Inductive cache_directive : Type :=
| NoCache
| CacheForever
| CacheSeconds (n : Z).

(** A subscriber given to [on]: it returns or throws; it does not change
    the call, the result or the client. *)
Definition callback : Type := CallRecord -> value -> result unit.

(** The fields of a [TaggedApi] that the queue, the cache and the event hub
    use. [_maxQueueSize] is [null] or a number. *)
Record TaggedApi : Type := {
  _endpoint : string;
  _queue : list CallRecord;
  _maxQueueSize : option Z;
  _batchTimeout : option nat;
  _options : value;
  _events : gmap string (list callback);
  _cache : gmap string CacheEntry
}.

(** The argument of [this._http.post] (lines 179-187), without its
    [timeStart]: that is [this._queueTimeStart], which nothing sets. *)
Record Request : Type := {
  body : string;
  url : string;
  cookies : value;
  clientId : value;
  secret : value;
  headers : value
}.

(** A request handed to the transport, with the queue bound into
    [resolveQueue] and [rejectQueue] at that moment (lines 189-190). *)
Record Exchange : Type := {
  request : Request;
  batch : list CallRecord
}.

(** What the runtime observes, in order. *)
Inductive event : Type :=
| Invoked (tag : string) (b : nat) (call : CallRecord) (res : value)
| CalledResolve (p : nat) (v : value)
| CalledReject (p : nat) (e : thrown).

Record World : Type := {
  this : TaggedApi;
  promises : gmap nat promise_state;
  next_promise : nat;
  timers : gset nat;        (* scheduled by setTimeout, neither fired nor cleared *)
  next_timer : nat;
  exchanges : list Exchange; (* every request posted so far, oldest first *)
  answered : gset nat;      (* the exchanges that have completed *)
  trace : list event
}.

(** What one call of [execute] reads from its environment. *)
Record Env : Type := {
  randomNum : QArith_base.Q;   (* Math.random(), line 105 *)
  now_sweep : Z;               (* new Date().getTime(), line 107 *)
  now_lookup : Z;              (* line 123 *)
  now_store : Z;               (* line 152 *)
  hrtime : Z * Z               (* getHighResolutionTimeStamp(), line 140 *)
}.

(** Code that changes the world and returns or throws; what it changed
    before a [throw] stays changed. *)
Definition M (A : Type) : Type := World -> result A * World.

Definition mret {A : Type} (a : A) : M A := fun w => (Ret a, w).
Definition mthrow {A : Type} (e : thrown) : M A := fun w => (Throw e, w).
Definition lift {A : Type} (r : result A) : M A := fun w => (r, w).

Definition mbind {A B : Type} (m : M A) (k : A -> M B) : M B :=
  fun w =>
    match m w with
    | (Ret a, w') => k a w'
    | (Throw e, w') => (Throw e, w')
    end.

Notation "'let*' x ':=' m 'in' k" := (mbind m (fun x => k))
  (at level 10, x name, m at level 100, k at level 200).

Definition get_this : M TaggedApi := fun w => (Ret (this w), w).

Definition update_this (f : TaggedApi -> TaggedApi) : M unit :=
  fun w => (Ret tt,
            {| this := f (this w); promises := promises w; next_promise := next_promise w;
               timers := timers w; next_timer := next_timer w;
               exchanges := exchanges w; answered := answered w; trace := trace w |}).

Definition set_queue (q : list CallRecord) (a : TaggedApi) : TaggedApi :=
  {| _endpoint := _endpoint a; _queue := q; _maxQueueSize := _maxQueueSize a;
     _batchTimeout := _batchTimeout a; _options := _options a;
     _events := _events a; _cache := _cache a |}.

Definition set_maxQueueSize (n : option Z) (a : TaggedApi) : TaggedApi :=
  {| _endpoint := _endpoint a; _queue := _queue a; _maxQueueSize := n;
     _batchTimeout := _batchTimeout a; _options := _options a;
     _events := _events a; _cache := _cache a |}.

Definition set_batchTimeout (t : option nat) (a : TaggedApi) : TaggedApi :=
  {| _endpoint := _endpoint a; _queue := _queue a; _maxQueueSize := _maxQueueSize a;
     _batchTimeout := t; _options := _options a;
     _events := _events a; _cache := _cache a |}.

Definition set_events (ev : gmap string (list callback)) (a : TaggedApi) : TaggedApi :=
  {| _endpoint := _endpoint a; _queue := _queue a; _maxQueueSize := _maxQueueSize a;
     _batchTimeout := _batchTimeout a; _options := _options a;
     _events := ev; _cache := _cache a |}.

Definition set_cache (c : gmap string CacheEntry) (a : TaggedApi) : TaggedApi :=
  {| _endpoint := _endpoint a; _queue := _queue a; _maxQueueSize := _maxQueueSize a;
     _batchTimeout := _batchTimeout a; _options := _options a;
     _events := _events a; _cache := c |}.

(** [setTimeout(this._postToApi.bind(this), 1)]: a new pending timer. *)
Definition setTimeout : M nat :=
  fun w => (Ret (next_timer w),
            {| this := this w; promises := promises w; next_promise := next_promise w;
               timers := {[next_timer w]} ∪ timers w; next_timer := S (next_timer w);
               exchanges := exchanges w; answered := answered w; trace := trace w |}).

Definition clearTimeout (t : nat) : M unit :=
  fun w => (Ret tt,
            {| this := this w; promises := promises w; next_promise := next_promise w;
               timers := timers w ∖ {[t]}; next_timer := next_timer w;
               exchanges := exchanges w; answered := answered w; trace := trace w |}).

(** [this._http.post(req)] followed by the [then]/[catch] chain of lines
    188-190: the exchange waits for the transport. *)
Definition http_post (x : Exchange) : M unit :=
  fun w => (Ret tt,
            {| this := this w; promises := promises w; next_promise := next_promise w;
               timers := timers w; next_timer := next_timer w;
               exchanges := push (exchanges w) x; answered := answered w;
               trace := trace w |}).

Definition log (e : event) : M unit :=
  fun w => (Ret tt,
            {| this := this w; promises := promises w; next_promise := next_promise w;
               timers := timers w; next_timer := next_timer w;
               exchanges := exchanges w; answered := answered w;
               trace := push (trace w) e |}).

(** A promise settles once: later calls of [resolve] or [reject] do nothing. *)
Definition settle (p : nat) (st : promise_state) : M unit :=
  fun w => (Ret tt,
            {| this := this w;
               promises := match promises w !! p with
                           | Some Pending => <[p := st]> (promises w)
                           | _ => promises w
                           end;
               next_promise := next_promise w;
               timers := timers w; next_timer := next_timer w;
               exchanges := exchanges w; answered := answered w; trace := trace w |}).

(** [call.deferred.resolve(v)] and [call.deferred.reject(e)]. *)
Definition deferred_resolve (call : CallRecord) (v : value) : M unit :=
  let* _ := log (CalledResolve (deferred call) v) in settle (deferred call) (Resolved v).

Definition deferred_reject (call : CallRecord) (e : thrown) : M unit :=
  let* _ := log (CalledReject (deferred call) e) in settle (deferred call) (Rejected e).

(** [new Promise(executor)]: a [throw] inside the executor rejects the new
    promise instead of reaching the caller. *)
Definition new_Promise (executor : nat -> M unit) : M nat :=
  fun w =>
    let p := next_promise w in
    let w0 := {| this := this w; promises := <[p := Pending]> (promises w);
                 next_promise := S p; timers := timers w; next_timer := next_timer w;
                 exchanges := exchanges w; answered := answered w; trace := trace w |} in
    match executor p w0 with
    | (Ret _, w') => (Ret p, w')
    | (Throw e, w') => (Ret p, snd (settle p (Rejected e) w'))
    end.

(** [for (var x in ...)] whose body changes the world. *)
Definition mfor_in {A : Type} (body : A -> M unit) : list A -> M unit :=
  fix loop (items : list A) : M unit :=
    match items with
    | [] => mret tt
    | x :: items' => let* _ := body x in loop items'
    end.

(** The platform's [JSON.parse]: it returns the value a text denotes or
    throws a [SyntaxError]. The client hands it whatever it has, so it takes
    any value (and converts it to a string first). *)
Class Host : Type := {
  JSON_parse : value -> result value
}.

Section Client.
Context {host : Host}.

(** *** resetQueue (lines 248-254) *)
Definition resetQueue : M unit :=
  let* api := get_this in
  let* _ := match _batchTimeout api with
            | Some t =>
                let* _ := clearTimeout t in
                update_this (set_batchTimeout None)
            | None => mret tt
            end in
  update_this (set_queue []).

(** *** _postToApi (lines 163-193) *)

(** The argument of [this._http.post], built by lines 165-187 around the
    body; building it can throw. *)
Definition request_for (api : TaggedApi) (body : string) : result Request :=
  let! options_query := get_prop (_options api) "query" in
  let query := fold_left (fun query '(key, v) => obj_set key v query)
                         (own_enumerable options_query) [] in
  let! queryParts :=
    for_in (fun queryParts '(i, v) =>
              let! s := ToString v in Ret (push queryParts (i ++ "=" ++ s)))
           query [] in
  let queryString := join "&" queryParts in
  let! cookies := get_prop (_options api) "cookies" in
  let! clientId := get_prop (_options api) "clientId" in
  let! secret := get_prop (_options api) "secret" in
  let! headers := get_prop (_options api) "headers" in
  Ret {| body := body;
         url := _endpoint api ++ "?" ++ queryString;
         cookies := cookies;
         clientId := clientId;
         secret := secret;
         headers := if truthy headers then headers else VObject [] |}.

(** Lines 164-187; when it throws, nothing is posted. *)
Definition build_request (api : TaggedApi) : result Request :=
  let! body := stringifyQueue (_queue api) in
  request_for api body.

Definition _postToApi : M unit :=
  let* api := get_this in
  let* req := lift (build_request api) in
  let* _ := http_post {| request := req; batch := _queue api |} in
  resetQueue.

(** *** execute (lines 99-161) *)

(** [randomNum > 0.99] *)
Definition random_gt_099 (r : QArith_base.Q) : bool :=
  99 * Z.pos (QArith_base.Qden r) <? 100 * QArith_base.Qnum r.

(** [expires < now] and [expires > now] *)
Definition expires_lt (e : expiry) (now : Z) : bool :=
  match e with At t => t <? now | Infinity => false end.

Definition expires_gt (e : expiry) (now : Z) : bool :=
  match e with At t => now <? t | Infinity => true end.

(** [config && config.cache] as a condition. *)
Definition cache_requested (config : cache_directive) : bool :=
  match config with
  | NoCache => false
  | CacheForever => true
  | CacheSeconds n => negb (n =? 0)
  end.

(** Lines 105-113. *)
Definition sweep (now : Z) (cache : gmap string CacheEntry) : gmap string CacheEntry :=
  filter (fun kv => expires_lt (expires kv.2) now = false) cache.

(** What [execute] hands back: the new promise (line 160) or, on a cache
    hit, [this._cache[cacheKey]] (line 126). *)
Inductive returned : Type :=
| ReturnedPromise (p : nat)
| ReturnedCacheEntry (e : CacheEntry).

(** [this._maxQueueSize && this._queue.length >= this._maxQueueSize] *)
Definition limit_reached (api : TaggedApi) : bool :=
  match _maxQueueSize api with
  | Some n => negb (n =? 0) && (n <=? Z.of_nat (length (_queue api)))
  | None => false
  end.

(** [this._queue.push(call)] *)
Definition queue_call (call : CallRecord) : M unit :=
  update_this (fun a => set_queue (push (_queue a) call) a).

(** [this._batchTimeout = setTimeout(this._postToApi.bind(this), 1)] *)
Definition schedule_flush : M unit :=
  let* t := setTimeout in
  update_this (set_batchTimeout (Some t)).

(** The executor of lines 133-149. *)
Definition enqueue (m : string) (params_arg : value) (env : Env) (p : nat) : M unit :=
  let* api := get_this in
  let* options_params := lift (get_prop (_options api) "params") in
  let* _params := lift (mergeRecursive (VObject []) options_params) in
  let* merged := lift (mergeRecursive _params
                         (if truthy params_arg then params_arg else VObject [])) in
  let* _ := queue_call {| method := m; params := merged;
                          deferred := p; timeStart := hrtime env |} in
  let* api := get_this in
  if limit_reached api then _postToApi
  else match _batchTimeout api with
       | None => schedule_flush
       | Some _ => mret tt
       end.

(** [method + ':' + JSON.stringify(params)] (line 119). *)
Definition cache_key (m : string) (params_arg : value) : string :=
  m ++ ":" ++ default "undefined" (JSON_stringify params_arg).

(** [(config.cache === true) ? Infinity : (now + (config.cache * 1000))] *)
Definition expiry_for (config : cache_directive) (now : Z) : expiry :=
  match config with
  | CacheSeconds n => At (now + n * 1000)
  | _ => Infinity
  end.

(** [!method || typeof method !== "string"] *)
Definition invalid_method (method_arg : value) : bool :=
  negb (truthy method_arg) || negb (String.eqb (typeof method_arg) "string").

Definition execute (method_arg params_arg : value) (config : cache_directive) (env : Env)
  : M returned :=
  if invalid_method method_arg
  then mthrow (Error "Method is required to execute API calls")
  else
    let* m := lift (ToString method_arg) in
    let* _ := if random_gt_099 (randomNum env)
              then update_this (fun a => set_cache (sweep (now_sweep env) (_cache a)) a)
              else mret tt in
    let cacheKey :=
      if cache_requested config
      then Some (cache_key m params_arg)
      else None in
    let* hit :=
      match cacheKey with
      | Some key =>
          let* api := get_this in
          match _cache api !! key with
          | Some cache =>
              if expires_gt (expires cache) (now_lookup env)
              then mret (Some cache)
              else
                let* _ := update_this (fun a => set_cache (delete key (_cache a)) a) in
                mret None
          | None => mret None
          end
      | None => mret None
      end in
    match hit with
    | Some entry => mret (ReturnedCacheEntry entry)
    | None =>
        let* promise := new_Promise (enqueue m params_arg env) in
        let* _ :=
          match cacheKey with
          | Some key =>
              let expires := expiry_for config (now_store env) in
              update_this (fun a =>
                set_cache (<[key := {| expires := expires; promise := promise |}]> (_cache a)) a)
          | None => mret tt
          end in
        mret (ReturnedPromise promise)
    end.

(** *** setMaxQueueSize (lines 86-88) and on (lines 256-261) *)
Definition setMaxQueueSize (maxQueueSize : option Z) : M unit :=
  update_this (set_maxQueueSize maxQueueSize).

Definition on (stat : string) (cb : callback) : M unit :=
  let* api := get_this in
  let* _ := match _events api !! stat with
            | Some _ => mret tt
            | None => update_this (fun a => set_events (<[stat := []]> (_events a)) a)
            end in
  update_this (fun a => set_events (alter (fun cbs => push cbs cb) stat (_events a)) a).

(** *** parseResponseBody (lines 197-207) *)
Definition parseResponseBody (response : value) : result (list value) :=
  let! response_body := get_prop response "body" in
  let! responses := JSON_parse response_body in
  for_in (fun results '(_, r) => let! parsed := JSON_parse r in Ret (push results parsed))
         (own_enumerable responses) [].

(** *** resolveQueue (lines 212-235) *)

(** [result == null] *)
Definition loose_eq_null (v : value) : bool :=
  match v with VUndefined | VNull => true | _ => false end.

Definition default_result : value :=
  VObject [("result", VNull); ("stat", VString "ok")].

(** The property key a value is used as: a symbol names no string key. *)
Definition property_key (v : value) : result (option string) :=
  match v with
  | VSymbol _ => Ret None
  | _ => let! s := ToString v in Ret (Some s)
  end.

Fixpoint enumerate {A : Type} (i : nat) (l : list A) : list (nat * A) :=
  match l with
  | [] => []
  | x :: l' => (i, x) :: enumerate (S i) l'
  end.

(** Line 224, for the subscriber at index [b] of [this._events[result.stat]]. *)
Definition notify (tag : string) (call : CallRecord) (res : value)
  : nat * callback -> M unit :=
  fun '(b, cb) =>
    let* _ := log (Invoked tag b call res) in
    lift (cb call res).

(** The body of the loop, lines 214-231, for the call at index [i]. *)
Definition resolve_call (results : list value) : nat * CallRecord -> M unit :=
  fun '(i, call) =>
    let result := default VUndefined (results !! i) in
    let result := if loose_eq_null result then default_result else result in
    let* stat := lift (get_prop result "stat") in
    let* _ :=
      if truthy stat then
        let* key := lift (property_key stat) in
        let* api := get_this in
        match key with
        | Some tag =>
            match _events api !! tag with
            | Some cbs => mfor_in (notify tag call result) (enumerate 0 cbs)
            | None => mret tt
            end
        | None => mret tt
        end
      else mret tt in
    if truthy stat && negb (strict_eq_string stat "ok")
    then deferred_reject call (Value result)
    else deferred_resolve call result.

Definition resolveQueue (queue : list CallRecord) (results : list value) : M unit :=
  mfor_in (resolve_call results) (enumerate 0 queue).

(** *** rejectQueue (lines 239-245) *)
Definition rejectQueue (queue : list CallRecord) (error : thrown) : M unit :=
  mfor_in (fun call => deferred_reject call error) queue.

(** *** The promise chain of lines 179-190, run when the transport answers *)
Inductive transport_outcome : Type :=
| Responded (response : value)
| Failed (reason : thrown).

Definition complete (x : Exchange) (o : transport_outcome) : M unit :=
  match o with
  | Failed reason => rejectQueue (batch x) reason
  | Responded response =>
      match parseResponseBody response with
      | Throw e => rejectQueue (batch x) e
      | Ret results =>
          fun w =>
            match resolveQueue (batch x) results w with
            | (Ret _, w') => (Ret tt, w')
            | (Throw e, w') => rejectQueue (batch x) e w'
            end
      end
  end.

End Client.

(** *** The constructor (lines 25-78) *)

(** [base64(Math.random() * 100000000).substr(0, 10)], given the base64 text. *)
Definition _generateTrackId (encoded : string) : string := substring 0 10 encoded.

(** The fields set by the constructor; it throws where lines 63-64 do: when
    [options] is [undefined] or [null], or [options.cookies] is set to
    something without a [split]. *)
Definition new_TaggedApi (endpoint : string) (options : value) (encoded : string)
  : result TaggedApi :=
  let! merged :=
    mergeRecursive
      (VObject [("query", VObject []);
                ("params", VObject [("track", VString (_generateTrackId encoded))]);
                ("timeout", VNumber 10000)])
      (if truthy options then options else VObject []) in
  let! options_cookies := get_prop options "cookies" in
  let! _ := if truthy options_cookies
            then match options_cookies with
                 | VString _ => Ret tt
                 | _ => Throw (TypeError "options.cookies.split is not a function")
                 end
            else Ret tt in
  Ret {| _endpoint := endpoint; _queue := []; _maxQueueSize := None;
         _batchTimeout := None; _options := merged; _events := ∅; _cache := ∅ |}.

Definition initial_world (api : TaggedApi) : World :=
  {| this := api; promises := ∅; next_promise := 0; timers := ∅; next_timer := 0;
     exchanges := []; answered := ∅; trace := [] |}.

(** ** What can happen to a client *)

Inductive action : Type :=
| Execute (method_arg params_arg : value) (config : cache_directive) (env : Env)
| On (stat : string) (cb : callback)
| SetMaxQueueSize (maxQueueSize : option Z)
| ResetQueue
| PostToApi
| TimerFires (t : nat)
| TransportAnswers (i : nat) (o : transport_outcome).

Definition drop_timer (t : nat) (w : World) : World :=
  {| this := this w; promises := promises w; next_promise := next_promise w;
     timers := timers w ∖ {[t]}; next_timer := next_timer w;
     exchanges := exchanges w; answered := answered w; trace := trace w |}.

Definition mark_answered (i : nat) (w : World) : World :=
  {| this := this w; promises := promises w; next_promise := next_promise w;
     timers := timers w; next_timer := next_timer w;
     exchanges := exchanges w; answered := {[i]} ∪ answered w; trace := trace w |}.

Section Steps.
Context {host : Host}.

(** The world after an action, or [None] when the action cannot happen: a
    timer that is not pending does not fire, and the transport answers each
    exchange once. An exception that reaches the caller or the event loop
    leaves the world as the code left it. *)
Definition perform (a : action) (w : World) : option World :=
  match a with
  | Execute method_arg params_arg config env =>
      Some (snd (execute method_arg params_arg config env w))
  | On stat cb => Some (snd (on stat cb w))
  | SetMaxQueueSize n => Some (snd (setMaxQueueSize n w))
  | ResetQueue => Some (snd (resetQueue w))
  | PostToApi => Some (snd (_postToApi w))
  | TimerFires t =>
      if decide (t ∈ timers w) then Some (snd (_postToApi (drop_timer t w))) else None
  | TransportAnswers i o =>
      match exchanges w !! i with
      | Some x =>
          if decide (i ∈ answered w) then None
          else Some (snd (complete x o (mark_answered i w)))
      | None => None
      end
  end.

Fixpoint run (actions : list action) (w : World) : option World :=
  match actions with
  | [] => Some w
  | a :: actions' =>
      match perform a w with
      | Some w' => run actions' w'
      | None => None
      end
  end.

(** The worlds that actions taken from [allowed] lead to. *)
Inductive reachable_by (allowed : action -> Prop) (w0 : World) : World -> Prop :=
| reachable_start : reachable_by allowed w0 w0
| reachable_step w a w' :
    reachable_by allowed w0 w -> allowed a -> perform a w = Some w' ->
    reachable_by allowed w0 w'.

Definition reachable : World -> World -> Prop := reachable_by (fun _ => True).

End Steps.

(** A host whose [JSON.parse] knows the texts of a table and rejects all
    others. *)
Definition table_host (table : list (string * value)) : Host :=
  {| JSON_parse := fun v =>
       let! text := ToString v in
       match lookup_prop text table with
       | Some parsed => Ret parsed
       | None => Throw (ErrorObject "SyntaxError" "Unexpected token")
       end |}.

(** ** Objects as references

    [mergeRecursive] writes into the object it is given and stores the
    objects of [obj2] themselves, not copies. [Store] keeps plain objects in
    a store and passes references, to follow what lines 134 and 138 share
    between the instance's params, the caller's params and the queued
    records. [depth] is the room left on the call stack. *)
Module Store.

Inductive hvalue : Type :=
| HUndefined
| HNull
| HBool (b : bool)
| HNumber (n : Z)
| HString (s : string)
| HObject (l : nat).

Record store : Type := {
  objects : gmap nat (list (string * hvalue));
  next : nat
}.

Definition S (A : Type) : Type := store -> result A * store.

Definition sret {A : Type} (a : A) : S A := fun st => (Ret a, st).

Definition sbind {A B : Type} (m : S A) (k : A -> S B) : S B :=
  fun st =>
    match m st with
    | (Ret a, st') => k a st'
    | (Throw e, st') => (Throw e, st')
    end.

Notation "'let+' x ':=' m 'in' k" := (sbind m (fun x => k))
  (at level 10, x name, m at level 100, k at level 200).

(** [try { m } catch (e) { h }]: what [m] wrote before it threw stays. *)
Definition stry (m : S unit) (h : S unit) : S unit :=
  fun st =>
    match m st with
    | (Ret a, st') => (Ret a, st')
    | (Throw _, st') => h st'
    end.

Definition htruthy (v : hvalue) : bool :=
  match v with
  | HUndefined | HNull => false
  | HBool b => b
  | HNumber n => negb (n =? 0)
  | HString s => negb (String.eqb s "")
  | HObject _ => true
  end.

Fixpoint hlookup (k : string) (props : list (string * hvalue)) : option hvalue :=
  match props with
  | [] => None
  | (k', v) :: props' => if String.eqb k k' then Some v else hlookup k props'
  end.

Fixpoint hreplace (k : string) (v : hvalue) (props : list (string * hvalue))
  : list (string * hvalue) :=
  match props with
  | [] => []
  | (k', v') :: props' =>
      if String.eqb k k' then (k', v) :: props' else (k', v') :: hreplace k v props'
  end.

Fixpoint hadd (k : string) (v : hvalue) (props : list (string * hvalue))
  : list (string * hvalue) :=
  match props with
  | [] => [(k, v)]
  | (k', v') :: props' =>
      match array_index k, array_index k' with
      | Some i, Some i' =>
          if (i <? i')%N then (k, v) :: props else (k', v') :: hadd k v props'
      | Some _, None => (k, v) :: props
      | None, _ => (k', v') :: hadd k v props'
      end
  end.

Definition hset (k : string) (v : hvalue) (props : list (string * hvalue))
  : list (string * hvalue) :=
  match hlookup k props with
  | Some _ => hreplace k v props
  | None => hadd k v props
  end.

(** [{}] or an object literal: a new object. *)
Definition alloc (props : list (string * hvalue)) : S hvalue :=
  fun st => (Ret (HObject (next st)),
             {| objects := <[next st := props]> (objects st); next := Datatypes.S (next st) |}).

(** [obj[p]] as a read. *)
Definition get (obj : hvalue) (p : string) : S hvalue :=
  fun st =>
    match obj with
    | HUndefined | HNull =>
        (Throw (TypeError "Cannot read properties of undefined or null"), st)
    | HObject l => (Ret (default HUndefined (objects st !! l ≫= hlookup p)), st)
    | HString s =>
        (Ret match array_index p with
             | Some i =>
                 match nth_unit (N.to_nat i) s with
                 | Some a => HString (String a EmptyString)
                 | None => HUndefined
                 end
             | None =>
                 if String.eqb p "length" then HNumber (Z.of_nat (String.length s))
                 else HUndefined
             end, st)
    | _ => (Ret HUndefined, st)
    end.

(** [obj[p] = v] in strict mode: the object is changed in place. *)
Definition set (obj : hvalue) (p : string) (v : hvalue) : S unit :=
  fun st =>
    match obj with
    | HObject l =>
        (Ret tt, {| objects := alter (hset p v) l (objects st); next := next st |})
    | HUndefined | HNull =>
        (Throw (TypeError "Cannot set properties of undefined or null"), st)
    | _ => (Throw (TypeError ("Cannot create property " ++ p)), st)
    end.

(** The keys [for (var p in obj)] visits, fixed when the loop starts. *)
Definition own_keys (obj : hvalue) : S (list string) :=
  fun st =>
    (Ret match obj with
         | HObject l => map fst (default [] (objects st !! l))
         | HString s => map fst (units 0 s)
         | _ => []
         end, st).

Definition constructor_is_Object (v : hvalue) : S bool :=
  fun st =>
    match v with
    | HUndefined | HNull =>
        (Throw (TypeError "Cannot read properties of undefined or null"), st)
    | HObject l =>
        (Ret match objects st !! l ≫= hlookup "constructor" with
             | Some _ => false
             | None => true
             end, st)
    | _ => (Ret false, st)
    end.

Definition sfor_in {A : Type} (body : A -> S unit) : list A -> S unit :=
  fix loop (items : list A) : S unit :=
    match items with
    | [] => sret tt
    | x :: items' => let+ _ := body x in loop items'
    end.

(** Lines 402-422. *)
Fixpoint mergeRecursive (depth : nat) (obj1 obj2 : hvalue) : S hvalue :=
  match depth with
  | O => fun st => (Throw (ErrorObject "RangeError" "Maximum call stack size exceeded"), st)
  | Datatypes.S depth' =>
      let+ keys := own_keys obj2 in
      let+ _ :=
        sfor_in (fun p =>
          stry
            (let+ v2 := get obj2 p in
             let+ is_object := constructor_is_Object v2 in
             if is_object : bool then
               let+ cur := get obj1 p in
               let+ merged := mergeRecursive depth' cur v2 in
               set obj1 p merged
             else set obj1 p v2)
            (let+ v2 := get obj2 p in set obj1 p v2))
          keys in
      sret obj1
  end.

(** Lines 134 and 138: the params of the record that [execute] queues. *)
Definition record_params (depth : nat) (options_params params_arg : hvalue) : S hvalue :=
  let+ empty := alloc [] in
  let+ _params := mergeRecursive depth empty options_params in
  let+ arg := if htruthy params_arg then sret params_arg else alloc [] in
  mergeRecursive depth _params arg.

(** The value a reference stands for at a given moment. *)
Fixpoint reify (depth : nat) (st : store) (v : hvalue) : value :=
  match v with
  | HUndefined => VUndefined
  | HNull => VNull
  | HBool b => VBool b
  | HNumber n => VNumber n
  | HString s => VString s
  | HObject l =>
      match depth with
      | O => VUndefined
      | Datatypes.S depth' =>
          VObject (map (fun '(k, x) => (k, reify depth' st x)) (default [] (objects st !! l)))
      end
  end.

(** An instance whose fixed params hold a nested mapping, and two calls:
    [{track: "T", ctx: {a: "1"}}], then [execute(m1, {ctx: {b: "2"}})] and
    [execute(m2, {})]. *)
Definition example_store : store :=
  {| objects := {[ 0%nat := [("track", HString "T"); ("ctx", HObject 1)];
                   1%nat := [("a", HString "1")];
                   2%nat := [("ctx", HObject 3)];
                   3%nat := [("b", HString "2")];
                   4%nat := [] ]};
     next := 5 |}.

Definition two_calls : result (hvalue * hvalue) * store :=
  (let+ first := record_params 8 (HObject 0) (HObject 2) in
   let+ second := record_params 8 (HObject 0) (HObject 4) in
   sret (first, second)) example_store.

End Store.

(** ** The wire format in the words of the specification *)

(** Each element through [f], in order; the first failure is the result. *)
Fixpoint traverse {A B : Type} (f : A -> result B) (l : list A) : result (list B) :=
  match l with
  | [] => Ret []
  | x :: l' =>
      let! y := f x in
      let! ys := traverse f l' in
      Ret (y :: ys)
  end.

(** The parameters of a call that reach the wire: its own properties whose
    value is not [null]. *)
Definition sent_params (call : CallRecord) : list (string * value) :=
  filter (fun kv => is_null kv.2 = false) (own_enumerable (params call)).

(** The encoded parameter pairs of a call, one entry per parameter. *)
Definition encoded_pairs (call : CallRecord) : result (list string) :=
  traverse (fun kv => parameterize kv.1 kv.2) (sent_params call).

(** [method=<encoded method>] followed by the pairs, joined by [&]. *)
Definition wire_line (call : CallRecord) : result string :=
  let! pairs := encoded_pairs call in
  Ret (join "&" (("method=" ++ encode_string (method call)) :: pairs)).

(** A leading newline, the lines joined by newlines, a trailing newline. *)
Definition wire_body (queue : list CallRecord) : result string :=
  let! lines := traverse wire_line queue in
  Ret (newline ++ join newline lines ++ newline).


(** ** Sample clients *)

(** [new TaggedApi("/api/", {}, http)] when the random text is
    [MTIzNDU2NzguOTAx]. *)
Definition sample_api : TaggedApi :=
  {| _endpoint := "/api/"; _queue := []; _maxQueueSize := None; _batchTimeout := None;
     _options := VObject [("query", VObject []);
                          ("params", VObject [("track", VString "MTIzNDU2Nz")]);
                          ("timeout", VNumber 10000)];
     _events := ∅; _cache := ∅ |}.

Definition sample_env (now : Z) : Env :=
  {| randomNum := QArith_base.Qmake 1 2; now_sweep := now; now_lookup := now;
     now_store := now; hrtime := (0, 0) |}.

(** The kinds that [parameterize] refuses: its [default] case. *)
Definition unencodable (v : value) : bool :=
  match v with
  | VSymbol _ | VFunction _ => true
  | _ => false
  end.

(** The world with another cache, and with one more pending promise. *)
Definition with_cache (c : gmap string CacheEntry) (w : World) : World :=
  snd (update_this (set_cache c) w).

Definition with_new_promise (w : World) : World :=
  {| this := this w; promises := <[next_promise w := Pending]> (promises w);
     next_promise := S (next_promise w); timers := timers w; next_timer := next_timer w;
     exchanges := exchanges w; answered := answered w; trace := trace w |}.

(** The cache after lines 105-113. *)
Definition swept_cache (env : Env) (w : World) : gmap string CacheEntry :=
  if random_gt_099 (randomNum env) then sweep (now_sweep env) (_cache (this w))
  else _cache (this w).

(** Lines 133-160, from a world without a live cache entry for the call:
    the new promise, its executor, and the cache entry if one is asked for. *)
Definition call_through (m : string) (params_arg : value) (config : cache_directive)
    (env : Env) (w : World) : result returned * World :=
  let p := next_promise w in
  let (r, w') := enqueue m params_arg env p (with_new_promise w) in
  let w'' := match r with
             | Ret _ => w'
             | Throw e => snd (settle p (Rejected e) w')
             end in
  (Ret (ReturnedPromise p),
   if cache_requested config
   then with_cache (<[cache_key m params_arg :=
                        {| expires := expiry_for config (now_store env); promise := p |}]>
                      (_cache (this w''))) w''
   else w'').

(** ** The demultiplex rule in the words of the specification *)











(** The world after some events were logged. *)
Definition logged (events : list event) (w : World) : World :=
  {| this := this w; promises := promises w; next_promise := next_promise w;
     timers := timers w; next_timer := next_timer w; exchanges := exchanges w;
     answered := answered w; trace := (trace w ++ events)%list |}.

(** ** Failed exchanges in the words of the specification *)

Section Failures.
Context {host : Host}.

(** The transport fails, or [JSON.parse] throws on the response body, or
    it throws on one of the entries of the parsed body. *)
Inductive exchange_fails : transport_outcome -> Prop :=
| transport_fails reason : exchange_fails (Failed reason)
| outer_unparseable response text e :
    get_prop response "body" = Ret text ->
    JSON_parse text = Throw e ->
    exchange_fails (Responded response)
| inner_unparseable response text responses k r e :
    get_prop response "body" = Ret text ->
    JSON_parse text = Ret responses ->
    (k, r) ∈ own_enumerable responses ->
    JSON_parse r = Throw e ->
    exchange_fails (Responded response).

End Failures.

(** A host whose [JSON.parse] reads back what [JSON.stringify] writes for
    the documents [docs], and rejects every other text. *)
Definition host_of (docs : list value) : Host :=
  table_host (omap (fun v => (fun text => (text, v)) <$> JSON_stringify v) docs).

(** The text of a document. *)
Definition text_of (v : value) : value :=
  VString (default "" (JSON_stringify v)).

(** A response whose body is the JSON array of the texts of [entries]. *)
Definition response_with (entries : list value) : value :=
  VObject [("body", text_of (VArray (map text_of entries)))].


(** A subscriber that returns. *)
Definition silent_subscriber : callback := fun _ _ => Ret tt.

(** ** The track identifier *)

(** The params of a queued call carry [track: id]. *)
Definition has_track (id : string) (call : CallRecord) : Prop :=
  exists ps, params call = VObject ps /\ lookup_prop "track" ps = Some (VString id).

(** The options do not set [params.track]: [params], if given, is a plain
    object without a [track] of its own. *)
Definition options_keep_track (options : value) : Prop :=
  forall v, ("params", v) ∈ own_enumerable options ->
    exists ps, v = VObject ps
               /\ hasOwnProperty ps "constructor" = false
               /\ lookup_prop "track" ps = None.

(** A call of [execute] that does not pass a [track] of its own. *)
Definition keeps_track (a : action) : Prop :=
  match a with
  | Execute _ params_arg _ _ => lookup_prop "track" (own_enumerable params_arg) = None
  | _ => True
  end.

(** The fixed params of the instance carry [track: id]. *)
Definition fixed_track (id : string) (api : TaggedApi) : Prop :=
  exists ops ps,
    _options api = VObject ops
    /\ lookup_prop "params" ops = Some (VObject ps)
    /\ lookup_prop "track" ps = Some (VString id)
    /\ NoDup ps.*1.

(** The calls queued and the calls posted all carry [track: id], and each
    posted body is the serialization of its batch. *)
Definition track_inv (id : string) (w : World) : Prop :=
  fixed_track id (this w)
  /\ Forall (has_track id) (_queue (this w))
  /\ Forall (fun x => Forall (has_track id) (batch x)
                      /\ stringifyQueue (batch x) = Ret (body (request x)))
            (exchanges w).

(** A host that parses the response built from [entries]. *)
Definition host_for (entries : list value) : Host :=
  host_of (VArray (map text_of entries) :: entries).

(** The call that [execute(m)] queues on [sample_api], with promise [p]. *)
Definition sample_call (m : string) (p : nat) : CallRecord :=
  {| method := m; params := VObject [("track", VString "MTIzNDU2Nz")];
     deferred := p; timeStart := (0, 0) |}.

(** The exchange that a flush of [sample_api] posts: [calls] sent as [text]. *)
Definition sample_exchange (text : string) (calls : list CallRecord) : Exchange :=
  {| request := {| body := text; url := "/api/?"; cookies := VUndefined;
                   clientId := VUndefined; secret := VUndefined;
                   headers := VObject [] |};
     batch := calls |}.

(** The world after [actions], or [w] itself when one of them cannot happen. *)
Definition after `{Host} (actions : list action) (w : World) : World :=
  default w (run actions w).

(** ** Invariants *)

(** [m] keeps [P]: if it holds before, it holds after, whether [m] returns
    or throws. *)
Definition preserves {A : Type} (P : World -> Prop) (m : M A) : Prop :=
  forall w, P w -> P (snd (m w)).

(** A property of the client object, the timers and the posted requests
    only: the promises, the trace and the answered exchanges do not matter
    to it. *)
Definition about_client_and_timers (P : World -> Prop) : Prop :=
  forall w w', this w = this w' -> timers w = timers w' ->
               next_timer w = next_timer w' -> exchanges w = exchanges w' ->
               P w -> P w'.

(** Every pending timer is the one [_batchTimeout] names. *)
Definition timer_inv (w : World) : Prop :=
  forall t, t ∈ timers w -> _batchTimeout (this w) = Some t.





(** ** Ordinary values and ordinary use

    The names that JavaScript gives a meaning on every object: the members
    of [Object.prototype], which a read finds up the prototype chain and a
    write may hand to a setter, and [toJSON], which [JSON.stringify]
    calls. *)
Definition special_name (k : string) : bool :=
  existsb (String.eqb k)
    ["__proto__"; "constructor"; "hasOwnProperty"; "isPrototypeOf";
     "propertyIsEnumerable"; "toLocaleString"; "toString"; "valueOf";
     "__defineGetter__"; "__defineSetter__"; "__lookupGetter__"; "__lookupSetter__";
     "toJSON"].

(** No object inside [v], at any depth, has a special name as a key. *)
Fixpoint ordinary (v : value) : bool :=
  match v with
  | VObject props =>
      forallb (fun '(k, x) => negb (special_name k) && ordinary x) props
  | VArray elems => forallb ordinary elems
  | _ => true
  end.

Definition ordinary_prop (kv : string * value) : bool :=
  negb (special_name kv.1) && ordinary kv.2.

(** A use of the client with ordinary params, and a subscription under a
    tag that is not a special name (line 258 writes [this._events[stat]]). *)
Definition ordinary_action (a : action) : Prop :=
  match a with
  | Execute _ params_arg _ _ => ordinary params_arg = true
  | On stat _ => special_name stat = false
  | _ => True
  end.

(** The options and the params of the queued calls are ordinary. *)
Definition ordinary_state (w : World) : Prop :=
  ordinary (_options (this w)) = true
  /\ Forall (fun call => ordinary (params call) = true) (_queue (this w)).

From Stdlib Require DecimalPos.

(** ** Code units of the wire format *)

(** How often the code unit [c] occurs in [s]. *)
Fixpoint occurrences (c : ascii) (s : string) : nat :=
  match s with
  | EmptyString => 0%nat
  | String a s' => ((if Ascii.eqb a c then 1 else 0) + occurrences c s')%nat
  end.

(** Every code unit of [s] passes [P]. *)
Fixpoint all_units (P : ascii -> bool) (s : string) : bool :=
  match s with
  | EmptyString => true
  | String a s' => P a && all_units P s'
  end.

(** What [encodeURIComponent] writes: an unreserved character or [%]. *)
Definition wire_safe (a : ascii) : bool :=
  unreserved (nat_of_ascii a) || (nat_of_ascii a =? 37)%nat.

Definition hex_value (a : ascii) : nat :=
  let c := nat_of_ascii a in
  if (c <? 58)%nat then (c - 48)%nat else (c - 55)%nat.

(** The code unit that the text [encode_unit] wrote at the head of [s]
    stands for, and the rest of [s]. *)
Definition decode_first (s : string) : option (ascii * string) :=
  match s with
  | EmptyString => None
  | String a rest =>
      if (nat_of_ascii a =? 37)%nat then
        match rest with
        | String h1 (String h2 rest1) =>
            let b := (hex_value h1 * 16 + hex_value h2)%nat in
            if (b <? 128)%nat then Some (ascii_of_nat b, rest1)
            else
              match rest1 with
              | String _ (String h3 (String h4 rest2)) =>
                  let b' := (hex_value h3 * 16 + hex_value h4)%nat in
                  Some (ascii_of_nat ((b - 192) * 64 + (b' - 128)), rest2)
              | _ => None
              end
        | _ => None
        end
      else Some (a, rest)
  end.

(** [typeof v] is [string], [number], [boolean] or [undefined], or [v] is
    [null]: the values [parameterize] writes as one pair, or not at all. *)
Definition primitive (v : value) : bool :=
  match v with
  | VUndefined | VNull | VBool _ | VNumber _ | VString _ => true
  | _ => false
  end.

(** The code units of a wire line: what [encodeURIComponent] writes, and
    the [=], [&], [[] and []] that the encoder puts between. *)
Definition line_unit (a : ascii) : bool :=
  wire_safe a
  || (nat_of_ascii a =? 61)%nat || (nat_of_ascii a =? 38)%nat
  || (nat_of_ascii a =? 91)%nat || (nat_of_ascii a =? 93)%nat.

(** The code unit of [newline]. *)
Definition newline_unit : ascii := ascii_of_nat 10.

(** ** What [mergeRecursive] leaves under a key *)

(** What the body of the loop (lines 408-418) writes to [obj1[p]] when
    [obj1[p]] was [cur] and [obj2[p]] is [v2]: for a plain object [v2] the
    result of the inner call, or [v2] itself when the inner call throws
    (line 417); any other [v2] itself. *)
Definition merged_value (cur v2 : value) : value :=
  match constructor_is_Object v2 with
  | Ret true =>
      match mergeRecursive cur v2 with
      | Ret merged => merged
      | Throw _ => v2
      end
  | _ => v2
  end.

(** Mappings with primitive leaves: no array and no function inside, at
    any depth. An array or a function as the target of a merge would answer
    a read with the members of its own prototype. *)
Fixpoint mappings_only (v : value) : bool :=
  match v with
  | VObject props => forallb (fun '(_, x) => mappings_only x) props
  | VArray _ | VFunction _ => false
  | _ => true
  end.

(** A target that takes no properties: writing to [undefined] or [null]
    throws, and so does, in strict mode, creating a property on a boolean, a
    number, a string or a symbol. *)
Definition refuses_properties (v : value) : bool :=
  match v with
  | VUndefined | VNull | VBool _ | VNumber _ | VString _ | VSymbol _ => true
  | _ => false
  end.

(** ** Calls and promises over time *)

(** The calls posted so far, batch after batch, and after them the calls
    that wait in the queue. *)
Definition sent (w : World) : list CallRecord := mjoin (batch <$> exchanges w).

Definition sent_then_queued (w : World) : list CallRecord :=
  (sent w ++ _queue (this w))%list.

(** Every promise was made by [new Promise]: its name is below the next. *)
Definition promises_made (w : World) : Prop :=
  forall q, is_Some (promises w !! q) -> (q < next_promise w)%nat.

(** What one action may do to the calls and the promises. The calls stay
    as they are, or one call is added at the end, with the next promise, or
    the queue is dropped; promises made earlier keep their state unless
    they are pending and belong to a posted call; a new promise has the
    next name. *)
Definition effect (w w' : World) : Prop :=
  (next_promise w <= next_promise w')%nat
  /\ (sent_then_queued w' = sent_then_queued w
      \/ (exists call, sent_then_queued w' = (sent_then_queued w ++ [call])%list
                       /\ deferred call = next_promise w
                       /\ (next_promise w < next_promise w')%nat)
      \/ sent_then_queued w' = sent w)
  /\ (forall q, (q < next_promise w)%nat ->
        promises w' !! q = promises w !! q
        \/ (promises w !! q = Some Pending /\ q ∈ deferred <$> sent w))
  /\ (forall q, is_Some (promises w' !! q) ->
        is_Some (promises w !! q)
        \/ (q = next_promise w /\ (next_promise w < next_promise w')%nat)).

(** [l] is strictly increasing. *)
Definition increasing (l : list nat) : Prop :=
  forall i j a b, l !! i = Some a -> l !! j = Some b -> (i < j)%nat -> (a < b)%nat.

(** The calls were posted and queued in the order of their promises, which
    were all made before. *)
Definition in_order (w : World) : Prop :=
  increasing (deferred <$> sent_then_queued w)
  /\ Forall (fun c => (deferred c < next_promise w)%nat) (sent_then_queued w).

(** The promise [p] was made, is pending, and no call that is posted or
    queued holds it. *)
Definition abandoned (p : nat) (w : World) : Prop :=
  (p < next_promise w)%nat
  /\ promises w !! p = Some Pending
  /\ p ∉ deferred <$> sent_then_queued w.

(** ** The public face of the client *)

(** getMaxQueueSize (lines 91-93). *)
Definition getMaxQueueSize : M (option Z) :=
  let* api := get_this in mret (_maxQueueSize api).

(** What a user of the client and its runtime do: everything but a direct
    call of [_postToApi], which the client makes itself. *)
Definition public (a : action) : Prop :=
  match a with
  | PostToApi => False
  | _ => True
  end.

(** An action that is not a call of [setMaxQueueSize]. *)
Definition keeps_limit (a : action) : Prop :=
  match a with
  | SetMaxQueueSize _ => False
  | _ => True
  end.

(** While [_batchTimeout] is set the queue is not empty, and no batch that
    was posted is empty. *)
Definition batches_inv (w : World) : Prop :=
  (is_Some (_batchTimeout (this w)) -> _queue (this w) <> [])
  /\ Forall (fun x => batch x <> []) (exchanges w).

(** The part [F] of the client object has the value [v]. *)
Definition field_is {X : Type} (F : TaggedApi -> X) (v : X) (w : World) : Prop :=
  F (this w) = v.

(** ** parseInt and the timeout of the transport *)

(** White space that [parseInt] skips, among the code units below 256. *)
Definition is_space (a : ascii) : bool :=
  let c := nat_of_ascii a in
  ((c =? 9) || (c =? 10) || (c =? 11) || (c =? 12) || (c =? 13) || (c =? 32)
   || (c =? 160))%nat.

Fixpoint trim_left (s : string) : string :=
  match s with
  | EmptyString => EmptyString
  | String a s' => if is_space a then trim_left s' else s
  end.

Definition digit_value (a : ascii) : option Z :=
  let c := nat_of_ascii a in
  if ((48 <=? c) && (c <=? 57))%nat then Some (Z.of_nat (c - 48)) else None.

(** The number that the digits at the head of [s] write after [acc]. *)
Fixpoint digits_value (acc : Z) (s : string) : Z :=
  match s with
  | EmptyString => acc
  | String a s' =>
      match digit_value a with
      | Some d => digits_value (10 * acc + d) s'
      | None => acc
      end
  end.

(** The digits at the head of [s] as a number; [None], which stands for
    [NaN], when [s] does not start with a digit. *)
Definition parse_digits (s : string) : option Z :=
  match s with
  | EmptyString => None
  | String a _ =>
      match digit_value a with
      | Some _ => Some (digits_value 0 s)
      | None => None
      end
  end.

(** [parseInt(v, 10)]; [None] stands for [NaN]. The result is exact: it is
    the number JavaScript gives as long as that is a safe integer. *)
Definition parseInt (v : value) : result (option Z) :=
  let! s := ToString v in
  Ret match trim_left s with
      | String "-" t => Z.opp <$> parse_digits t
      | String "+" t => parse_digits t
      | t => parse_digits t
      end.

(** [x || 10000] for the result of [parseInt]. *)
Definition or_10000 (parsed : option Z) : Z :=
  match parsed with
  | Some n => if n =? 0 then 10000 else n
  | None => 10000
  end.

(** The timeout that the constructor hands to [this._http.setTimeout]
    (lines 71-73). *)
Definition http_timeout (api : TaggedApi) : result Z :=
  let! options_timeout := get_prop (_options api) "timeout" in
  let! parsed := parseInt options_timeout in
  let timeout := or_10000 parsed in
  Ret (if timeout <? 0 then 10000 else timeout).

(** AngularAdapter.prototype.setTimeout (lines 446-448): the new
    [this._timeout]. *)
Definition AngularAdapter_setTimeout (timeout : value) : result Z :=
  let! parsed := parseInt timeout in Ret (or_10000 parsed).

(** ** getHighResolutionTimeStamp (lines 330-351) *)








(** ** The cookies of the constructor (lines 62-69) *)

(** [cookies.split(/; */)]: [piece] is the piece being read, and [skipping]
    says that a [;] was just read and the spaces after it are skipped. *)
Fixpoint split_cookies (piece : string) (skipping : bool) (s : string) : list string :=
  match s with
  | EmptyString => [piece]
  | String a s' =>
      if skipping && Ascii.eqb a " " then split_cookies piece true s'
      else if Ascii.eqb a ";" then piece :: split_cookies "" true s'
      else split_cookies (piece ++ String a EmptyString) false s'
  end.

(** The text before the first [=], and the text after it if there is one. *)
Fixpoint before_eq (s : string) : string :=
  match s with
  | EmptyString => EmptyString
  | String a s' => if Ascii.eqb a "=" then EmptyString else String a (before_eq s')
  end.

Fixpoint after_eq (s : string) : option string :=
  match s with
  | EmptyString => None
  | String a s' => if Ascii.eqb a "=" then Some s' else after_eq s'
  end.

(** [cookie.split('=', 2)], as the pair of its elements 0 and 1. *)
Definition keyValuePair (cookie : string) : string * value :=
  (before_eq cookie,
   match after_eq cookie with
   | Some rest => VString (before_eq rest)
   | None => VUndefined
   end).

(** [this._cookies[k] = v] (line 67), for [v] a string or [undefined]:
    under the name [__proto__] the write goes to the setter of
    [Object.prototype], which ignores a value that is not an object. *)
Definition set_cookie (k : string) (v : value) (cookies : list (string * value))
  : list (string * value) :=
  if String.eqb k "__proto__" then cookies else obj_set k v cookies.

(** [this._cookies] after lines 62-69. As in [new_TaggedApi], cookies that
    are set to anything but a string have no [split]. *)
Definition constructor_cookies (options : value) : result (list (string * value)) :=
  let! options_cookies := get_prop options "cookies" in
  if truthy options_cookies then
    match options_cookies with
    | VString s =>
        Ret (fold_left (fun cookies cookie =>
                          let '(k, v) := keyValuePair cookie in set_cookie k v cookies)
                       (split_cookies "" false s) [])
    | _ => Throw (TypeError "options.cookies.split is not a function")
    end
  else Ret [].

(** A cookie name: no [;], no [=], no space in front. A cookie value: no
    [;]. *)
Definition cookie_name (k : string) : bool :=
  (occurrences ";" k =? 0)%nat && (occurrences "=" k =? 0)%nat
  && match k with String " " _ => false | _ => true end.

Definition cookie_value (v : string) : bool := (occurrences ";" v =? 0)%nat.

(** The header that sends the cookies [pairs]. *)
Definition cookie_header (pairs : list (string * string)) : string :=
  join "; " (map (fun '(k, v) => k ++ "=" ++ v) pairs).

(** ** The Angular adapter and service (lines 434-525) *)

(** The arguments of [$http.post] (lines 457-461). *)
Record HttpPost : Type := {
  post_url : string;
  post_data : string;
  post_timeout : Z;
  post_headers : list (string * value)
}.

(** AngularAdapter.prototype.post (lines 450-462), up to the call of
    [$http.post]; [timeout] is [this._timeout] and [location_href] is
    [this._$window.location.href]. *)
Definition AngularAdapter_post (timeout : Z) (location_href : value) (req : Request)
  : HttpPost :=
  {| post_url := url req;
     post_data := body req;
     post_timeout := timeout;
     post_headers :=
       [("x-tagged-client-id", clientId req);
        ("x-tagged-client-url", location_href);
        ("Content-Type", VString "application/x-www-form-urlencoded; charset=UTF-8");
        ("X-Requested-With", VString "XMLHttpRequest")] |}.

(** Lines 464-474. *)
Definition transformResponse (data : value) : value := data.

Definition formatResponse (response : value) : result value :=
  let! data := get_prop response "data" in
  Ret (VObject [("body", data)]).

(** The options that [taggedApiFactory] constructs the client from (lines
    509-516); [clientId] and [timeout] are [this.clientId] and
    [this.timeout]. *)
Definition taggedApiFactory_options (clientId timeout : value) : value :=
  VObject [("query", VObject [("application_id", VString "user");
                              ("format", VString "json")]);
           ("clientId", clientId);
           ("timeout", timeout)].

(** Every request that was posted is the one that the options and the
    endpoint of [api] give for its body. *)
Definition requests_inv (api : TaggedApi) (w : World) : Prop :=
  _options (this w) = _options api
  /\ _endpoint (this w) = _endpoint api
  /\ Forall (fun x => request_for api (body (request x)) = Ret (request x)) (exchanges w).

(** ** More sample clients *)

(** The client of the Angular service for the client id [web] and the
    timeout 5000, when the random text is [MTIzNDU2NzguOTAx]. *)
Definition angular_api : TaggedApi :=
  {| _endpoint := "/api/"; _queue := []; _maxQueueSize := None; _batchTimeout := None;
     _options := VObject [("query", VObject [("application_id", VString "user");
                                             ("format", VString "json")]);
                          ("params", VObject [("track", VString "MTIzNDU2Nz")]);
                          ("timeout", VNumber 5000);
                          ("clientId", VString "web")];
     _events := ∅; _cache := ∅ |}.

(** [execute(m)] without params or cache directive, at time 0. *)
Definition plain_call (m : string) : action :=
  Execute (VString m) VUndefined NoCache (sample_env 0).

(** A parameter that cannot be encoded. *)
Definition function_params : value := VObject [("f", VFunction "function(){}")].

(** ** Objects that a call leaves alone (Store) *)

Definition is_reference (v : Store.hvalue) : bool :=
  match v with
  | Store.HObject _ => true
  | _ => false
  end.

(** No property holds an object. *)
Definition flat (props : list (string * Store.hvalue)) : Prop :=
  Forall (fun kv => is_reference kv.2 = false) props.

(** No object of the store has a property named as a member of
    [Object.prototype]: what the merge reads and writes is then an own
    property, and [hasOwnProperty] is the built-in one. *)
Definition ordinary_store (st : Store.store) : Prop :=
  forall l props, Store.objects st !! l = Some props ->
    Forall (fun kv => special_name kv.1 = false) props.

(** The properties of [props] that hold an object have names that [fixed]
    does not have: the merge then finds [undefined] where it looks for the
    mapping to merge them into, and no member of a primitive's prototype. *)
Definition apart (fixed props : list (string * Store.hvalue)) : Prop :=
  Forall (fun kv => is_reference kv.2 = true -> Store.hlookup kv.1 fixed = None) props.

(** The body of the loop of [Store.mergeRecursive], with [depth] left for
    the inner call. *)
Definition merge_step (depth : nat) (obj1 obj2 : Store.hvalue) (p : string) : Store.S unit :=
  Store.stry
    (Store.sbind (Store.get obj2 p) (fun v2 =>
     Store.sbind (Store.constructor_is_Object v2) (fun is_object =>
     if is_object : bool then
       Store.sbind (Store.get obj1 p) (fun cur =>
       Store.sbind (Store.mergeRecursive depth cur v2) (fun merged =>
       Store.set obj1 p merged))
     else Store.set obj1 p v2)))
    (Store.sbind (Store.get obj2 p) (fun v2 => Store.set obj1 p v2)).

(** The objects that [st] holds are in [st'] as they are in [st]. *)
Definition same_objects (st st' : Store.store) : Prop :=
  forall l, (l < Store.next st)%nat -> Store.objects st' !! l = Store.objects st !! l.

(** What [obj[p]] reads in [st]. *)
Definition read (st : Store.store) (obj : Store.hvalue) (p : string) : Store.hvalue :=
  match fst (Store.get obj p st) with
  | Ret v => v
  | Throw _ => Store.HUndefined
  end.

(** The store after [obj[p] = x] on the object at [l]. *)
Definition wrote (l : nat) (p : string) (x : Store.hvalue) (st : Store.store) : Store.store :=
  {| Store.objects := alter (Store.hset p x) l (Store.objects st);
     Store.next := Store.next st |}.

(** Every property read from [obj] is a primitive. *)
Definition reads_flat (st : Store.store) (obj : Store.hvalue) : Prop :=
  forall q, is_reference (read st obj q) = false.

(** Only the object at [l] may differ between [st] and [st']. *)
Definition writes_only (l : nat) (st st' : Store.store) : Prop :=
  Store.next st' = Store.next st
  /\ forall l', l' <> l -> Store.objects st' !! l' = Store.objects st !! l'.

(** Fixed params [{track: "T", app: "a"}] at 0, and the caller's params
    [{ctx: {b: "2"}}] at 1 with the inner mapping at 2. *)
Definition flat_store : Store.store :=
  {| Store.objects :=
       <[0%nat := [("track", Store.HString "T"); ("app", Store.HString "a")]]>
       (<[1%nat := [("ctx", Store.HObject 2)]]>
       (<[2%nat := [("b", Store.HString "2")]]> ∅));
     Store.next := 3 |}.

(** ** The execute of the Angular service (lines 519-521) *)

(** What the wrapper hands to [$q.when]: the result of the client's
    [execute] for [method] and [params] alone, whatever else the caller
    passed, so [config] is [undefined] there. *)
Definition service_execute `{Host} (method_arg params_arg : value) (env : Env)
  : M returned :=
  execute method_arg params_arg NoCache env.

(** What happens to the client of the service: calls through the wrapper,
    the other methods, the timer and the answers of the transport. *)
Definition through_service (a : action) : Prop :=
  match a with
  | Execute _ _ config _ => config = NoCache
  | _ => True
  end.
(** * Properties *)

(** ** Loops that push *)

Lemma for_in_push {A B : Type} (f : A -> result B) (l : list A) (acc : list B) :
  for_in (fun acc x => let! y := f x in Ret (push acc y)) l acc
  = let! ys := traverse f l in Ret (acc ++ ys)%list.
Proof.
  revert acc. induction l as [|x l IH]; intros acc; simpl.
  - by rewrite app_nil_r.
  - destruct (f x) as [y|e]; simpl; [|done].
    rewrite IH. destruct (traverse f l) as [ys|e]; simpl; [|done].
    unfold push. by rewrite <- app_assoc.
Qed.

Lemma for_in_push_if {A B : Type} (keep : A -> bool) (f : A -> result B)
    (l : list A) (acc : list B) :
  for_in (fun acc x => if keep x then let! y := f x in Ret (push acc y) else Ret acc) l acc
  = let! ys := traverse f (filter (fun x => keep x = true) l) in Ret (acc ++ ys)%list.
Proof.
  revert acc. induction l as [|x l IH]; intros acc; simpl.
  - by rewrite app_nil_r.
  - rewrite filter_cons. destruct (decide (keep x = true)) as [Hk|Hk].
    + rewrite Hk. simpl.
      destruct (f x) as [y|e]; simpl; [|done].
      rewrite IH. destruct (traverse f _) as [ys|e]; simpl; [|done].
      unfold push. by rewrite <- app_assoc.
    + apply not_true_is_false in Hk. rewrite Hk. apply IH.
Qed.

Lemma string_app_assoc (s t u : string) : (s ++ t) ++ u = s ++ t ++ u.
Proof.
  induction s as [|a s IH]; [done|].
  change (String a ((s ++ t) ++ u) = String a (s ++ t ++ u)). by f_equal.
Qed.

Lemma encode_string_app (s t : string) :
  encode_string (s ++ t) = encode_string s ++ encode_string t.
Proof.
  induction s as [|a s IH]; [done|].
  change (String a s ++ t) with (String a (s ++ t)). cbn [encode_string].
  by rewrite IH, string_app_assoc.
Qed.

Lemma encodeURIComponent_string (s : string) :
  encodeURIComponent (VString s) = Ret (encode_string s).
Proof. done. Qed.

(** ** stringifyCall and stringifyQueue *)

Lemma stringifyCall_wire_line (call : CallRecord) :
  stringifyCall call = wire_line call.
Proof.
  unfold stringifyCall, wire_line, encoded_pairs, sent_params.
  rewrite encodeURIComponent_string. simpl.
  transitivity
    (let! params :=
       for_in (fun (params : list string) (kv : string * value) =>
                 if negb (is_null kv.2)
                 then let! pair := parameterize kv.1 kv.2 in Ret (push params pair)
                 else Ret params)
              (own_enumerable (params call)) ["method=" ++ encode_string (method call)] in
     Ret (join "&" params)).
  { f_equal. generalize ["method=" ++ encode_string (method call)].
    induction (own_enumerable (params call)) as [|[k v] l IH]; intros acc; simpl; [done|].
    destruct (negb (is_null v)); simpl; [|apply IH].
    destruct (parameterize k v); simpl; [apply IH|done]. }
  rewrite (for_in_push_if (fun kv => negb (is_null kv.2)) (fun kv => parameterize kv.1 kv.2)).
  assert (Hf : filter (fun kv : string * value => negb (is_null kv.2) = true)
                 (own_enumerable (params call))
               = filter (fun kv : string * value => is_null kv.2 = false)
                   (own_enumerable (params call))).
  { apply list_filter_iff. intros [k v]. simpl. by destruct (is_null v). }
  rewrite Hf. by destruct (traverse _ _).
Qed.

Lemma stringifyQueue_body (queue : list CallRecord) :
  stringifyQueue queue = wire_body queue.
Proof.
  unfold stringifyQueue, wire_body.
  rewrite (for_in_push stringifyCall). simpl.
  assert (Ht : traverse stringifyCall queue = traverse wire_line queue).
  { induction queue as [|c q IH]; simpl; [done|].
    by rewrite stringifyCall_wire_line, IH. }
  rewrite Ht. by destruct (traverse wire_line queue).
Qed.


(** ** Null and undefined parameters *)

Lemma sent_params_skip_null m ps1 k ps2 p t :
  sent_params {| method := m; params := VObject (ps1 ++ (k, VNull) :: ps2);
                 deferred := p; timeStart := t |}
  = sent_params {| method := m; params := VObject (ps1 ++ ps2);
                   deferred := p; timeStart := t |}.
Proof.
  unfold sent_params. simpl. rewrite !filter_app, filter_cons.
  by destruct (decide _).
Qed.

(** C4, as the code has it. A parameter whose value is [null] is left out of
    the call's wire line: the line is the one of the call without that
    parameter. A parameter whose value is [undefined] is encoded as its key
    with an empty value. *)
Theorem null_param_omitted m ps1 k ps2 p t :
  stringifyCall {| method := m; params := VObject (ps1 ++ (k, VNull) :: ps2);
                   deferred := p; timeStart := t |}
  = stringifyCall {| method := m; params := VObject (ps1 ++ ps2);
                     deferred := p; timeStart := t |}
  /\ parameterize k VUndefined = Ret (encode_string k ++ "=").
Proof.
  split.
  - rewrite !stringifyCall_wire_line. unfold wire_line, encoded_pairs.
    by rewrite sent_params_skip_null.
  - unfold parameterize, parameterizePrimitive. simpl. reflexivity.
Qed.

(** C4 as stated fails: the pair of a [null] parameter is omitted, where an
    [undefined] one gives [a=]; and where [parameterize] is handed [null]
    itself it writes [a=null]. *)
Lemma null_param_counterexample :
  stringifyCall {| method := "m"; params := VObject [("a", VNull)];
                   deferred := 0; timeStart := (0, 0) |} = Ret "method=m"
  /\ stringifyCall {| method := "m"; params := VObject [("a", VUndefined)];
                      deferred := 0; timeStart := (0, 0) |} = Ret "method=m&a="
  /\ parameterize "a" VNull = Ret "a=null".
Proof. repeat split; reflexivity. Qed.

(** ** Property lists *)

Lemma lookup_replace_prop_ne k p v props :
  k <> p -> lookup_prop k (replace_prop p v props) = lookup_prop k props.
Proof.
  intros Hne. induction props as [|[k' v'] props IH]; simpl; [done|].
  destruct (String.eqb_spec p k') as [->|Hp]; simpl.
  - by destruct (String.eqb_spec k k').
  - destruct (String.eqb_spec k k'); [done|apply IH].
Qed.

Lemma lookup_replace_prop_eq p v props :
  hasOwnProperty props p = true -> lookup_prop p (replace_prop p v props) = Some v.
Proof.
  unfold hasOwnProperty. induction props as [|[k' v'] props IH]; simpl; [done|].
  destruct (String.eqb_spec p k') as [->|Hp]; simpl.
  - by rewrite String.eqb_refl.
  - destruct (String.eqb_spec p k'); [done|apply IH].
Qed.

Lemma lookup_add_prop_ne k p v props :
  k <> p -> lookup_prop k (add_prop p v props) = lookup_prop k props.
Proof.
  intros Hne. induction props as [|[k' v'] props IH]; simpl.
  - by destruct (String.eqb_spec k p).
  - destruct (array_index p) as [i|], (array_index k') as [i'|]; simpl.
    + destruct (i <? i')%N; simpl.
      * by destruct (String.eqb_spec k p).
      * destruct (String.eqb_spec k k'); [done|apply IH].
    + by destruct (String.eqb_spec k p).
    + destruct (String.eqb_spec k k'); [done|apply IH].
    + destruct (String.eqb_spec k k'); [done|apply IH].
Qed.

Lemma lookup_add_prop_eq p v props :
  lookup_prop p props = None -> lookup_prop p (add_prop p v props) = Some v.
Proof.
  induction props as [|[k' v'] props IH]; simpl.
  - by rewrite String.eqb_refl.
  - destruct (String.eqb_spec p k') as [->|Hp]; [done|]. intros Hnone.
    destruct (array_index p) as [i|], (array_index k') as [i'|]; simpl.
    + destruct (i <? i')%N; simpl.
      * by rewrite String.eqb_refl.
      * destruct (String.eqb_spec p k'); [done|by apply IH].
    + by rewrite String.eqb_refl.
    + destruct (String.eqb_spec p k'); [done|by apply IH].
    + destruct (String.eqb_spec p k'); [done|by apply IH].
Qed.

Lemma lookup_obj_set_ne k p v props :
  k <> p -> lookup_prop k (obj_set p v props) = lookup_prop k props.
Proof.
  intros Hne. unfold obj_set.
  destruct (hasOwnProperty props p);
    [by apply lookup_replace_prop_ne|by apply lookup_add_prop_ne].
Qed.

Lemma lookup_obj_set_eq p v props : lookup_prop p (obj_set p v props) = Some v.
Proof.
  unfold obj_set. destruct (hasOwnProperty props p) eqn:Hown.
  - by apply lookup_replace_prop_eq.
  - apply lookup_add_prop_eq. unfold hasOwnProperty in Hown.
    by destruct (lookup_prop p props).
Qed.

Lemma keys_replace_prop p v props : (replace_prop p v props).*1 = props.*1.
Proof.
  induction props as [|[k' v'] props IH]; csimpl; [done|].
  destruct (String.eqb p k'); csimpl; by rewrite ?IH.
Qed.

Lemma keys_add_prop p v props : (add_prop p v props).*1 ≡ₚ p :: props.*1.
Proof.
  induction props as [|[k' v'] props IH]; csimpl; [done|].
  destruct (array_index p) as [i|], (array_index k') as [i'|]; csimpl.
  - destruct (i <? i')%N; csimpl; [done|]. rewrite IH. apply Permutation_swap.
  - done.
  - rewrite IH. apply Permutation_swap.
  - rewrite IH. apply Permutation_swap.
Qed.

Lemma lookup_prop_None k (props : list (string * value)) :
  lookup_prop k props = None <-> k ∉ props.*1.
Proof.
  induction props as [|[k' v'] props IH]; csimpl.
  - split; [intros _; apply not_elem_of_nil|done].
  - rewrite not_elem_of_cons. destruct (String.eqb_spec k k') as [->|Hne].
    + split; [done|]. by intros [? _].
    + rewrite IH. tauto.
Qed.

Lemma NoDup_obj_set p v props : NoDup props.*1 -> NoDup (obj_set p v props).*1.
Proof.
  intros Hnd. unfold obj_set, hasOwnProperty.
  destruct (lookup_prop p props) eqn:Hl.
  - by rewrite keys_replace_prop.
  - rewrite keys_add_prop. apply NoDup_cons. split; [|done].
    by apply lookup_prop_None.
Qed.

(** ** mergeRecursive into an object *)

Lemma merge_property_object recurse props p v2 :
  exists x, merge_property recurse (VObject props) p v2
            = Ret (VObject (obj_set p x props)).
Proof.
  unfold merge_property.
  destruct (constructor_is_Object v2) as [[|]|e]; simpl; eauto.
  destruct (recurse _) as [merged|e]; simpl; eauto.
Qed.

Lemma for_in_cons {A S : Type} (body : S -> A -> result S) x l s :
  for_in body (x :: l) s = let! s' := body s x in for_in body l s'.
Proof. done. Qed.

Lemma merge_property_plain_object recurse props p v2 merged :
  constructor_is_Object v2 = Ret true ->
  recurse (default VUndefined (lookup_prop p props)) = Ret merged ->
  merge_property recurse (VObject props) p v2 = Ret (VObject (obj_set p merged props)).
Proof. intros Hc Hr. unfold merge_property. rewrite Hc. simpl. by rewrite Hr. Qed.

Lemma merge_property_not_object recurse props p v2 :
  constructor_is_Object v2 = Ret false ->
  merge_property recurse (VObject props) p v2 = Ret (VObject (obj_set p v2 props)).
Proof. intros H. unfold merge_property. by rewrite H. Qed.

(** The loop of [mergeRecursive] over the properties [items] of [obj2],
    when [obj1] is an object: it ends, with an object; properties that
    [obj2] does not name are as before. *)
Lemma merge_loop_object (recurse : value -> value -> result value) items props :
  exists props',
    for_in (fun obj1 '(p, v2) => merge_property (fun cur => recurse cur v2) obj1 p v2)
           items (VObject props) = Ret (VObject props')
    /\ (forall k, lookup_prop k items = None -> lookup_prop k props' = lookup_prop k props)
    /\ (NoDup props.*1 -> NoDup props'.*1).
Proof.
  revert props. induction items as [|[p v2] items IH]; intros props; simpl.
  - by exists props.
  - destruct (merge_property_object (fun cur => recurse cur v2) props p v2) as [x ->].
    simpl. destruct (IH (obj_set p x props)) as (props' & -> & Hframe & Hnd).
    exists props'. split; [done|]. split.
    + intros k. destruct (String.eqb_spec k p) as [->|Hne]; [done|].
      intros Hk. rewrite Hframe by done. by apply lookup_obj_set_ne.
    + intros H. by apply Hnd, NoDup_obj_set.
Qed.

Lemma mergeRecursive_array obj1 elems :
  mergeRecursive obj1 (VArray elems)
  = for_in (fun obj1 '(p, v2) => merge_property (fun cur => mergeRecursive cur v2) obj1 p v2)
           (indexed 0 elems) obj1.
Proof.
  simpl. generalize 0%nat. revert obj1.
  induction elems as [|v2 elems IH]; intros obj1 i; simpl; [done|].
  destruct (merge_property _ obj1 (string_of_nat i) v2); simpl; [apply IH|done].
Qed.

Lemma mergeRecursive_for_in obj1 obj2 :
  mergeRecursive obj1 obj2
  = for_in (fun obj1 '(p, v2) => merge_property (fun cur => mergeRecursive cur v2) obj1 p v2)
           (own_enumerable obj2) obj1.
Proof.
  destruct obj2; try done.
  - simpl. generalize 0%nat. revert obj1.
    induction s as [|a s IH]; intros obj1 i; simpl; [done|].
    change (merge_property (fun cur => Ret cur) obj1 (string_of_nat i)
              (VString (String a EmptyString)))
      with (merge_property
              (fun cur => mergeRecursive cur (VString (String a EmptyString)))
              obj1 (string_of_nat i) (VString (String a EmptyString))).
    destruct (merge_property _ obj1 (string_of_nat i) _); simpl; [apply IH|done].
  - apply mergeRecursive_array.
Qed.

(** Merging into an object never throws: what throws inside is caught by the
    [catch] of the frame above, which writes [obj2[p]] itself. The result is
    an object whose other properties are as before. *)
Lemma mergeRecursive_object_target obj2 props :
  exists props',
    mergeRecursive (VObject props) obj2 = Ret (VObject props')
    /\ (forall k, lookup_prop k (own_enumerable obj2) = None ->
                  lookup_prop k props' = lookup_prop k props)
    /\ (NoDup props.*1 -> NoDup props'.*1).
Proof. rewrite mergeRecursive_for_in. apply merge_loop_object. Qed.

(** A value that is not a plain object replaces wholesale. *)
Lemma merge_loop_copies (recurse : value -> value -> result value) items props props' k v :
  NoDup items.*1 ->
  (k, v) ∈ items ->
  constructor_is_Object v = Ret false ->
  for_in (fun obj1 '(p, v2) => merge_property (fun cur => recurse cur v2) obj1 p v2)
         items (VObject props) = Ret (VObject props') ->
  lookup_prop k props' = Some v.
Proof.
  revert props. induction items as [|[p v2] items IH]; intros props Hnd Hin Hv; csimpl.
  - by apply elem_of_nil in Hin.
  - apply NoDup_cons in Hnd as [Hp Hnd]. apply elem_of_cons in Hin as [Heq|Hin].
    + injection Heq as <- <-. rewrite merge_property_not_object by done. simpl.
      destruct (merge_loop_object recurse items (obj_set k v props))
        as (props'' & -> & Hframe & _).
      intros [= <-]. rewrite Hframe; [apply lookup_obj_set_eq|].
      by apply lookup_prop_None.
    + destruct (merge_property_object (fun cur => recurse cur v2) props p v2) as [x ->].
      simpl. by apply IH.
Qed.

Lemma mergeRecursive_copies obj2 props props' k v :
  NoDup (own_enumerable obj2).*1 ->
  (k, v) ∈ own_enumerable obj2 ->
  constructor_is_Object v = Ret false ->
  mergeRecursive (VObject props) obj2 = Ret (VObject props') ->
  lookup_prop k props' = Some v.
Proof. rewrite mergeRecursive_for_in. apply merge_loop_copies. Qed.

(** A non-empty mapping under a key that the target does not have: the
    inner call throws, the [catch] stores the mapping itself. *)
Lemma merge_nested_mapping_absent_key props p k v inner :
  lookup_prop p props = None ->
  hasOwnProperty ((k, v) :: inner) "constructor" = false ->
  mergeRecursive (VObject props) (VObject [(p, VObject ((k, v) :: inner))])
  = Ret (VObject (obj_set p (VObject ((k, v) :: inner)) props)).
Proof.
  intros Hp Hc. simpl. unfold merge_property at 1.
  unfold constructor_is_Object. rewrite Hc. simpl. rewrite Hp. simpl.
  unfold merge_property.
  by destruct (constructor_is_Object v) as [[|]|e].
Qed.

(** An empty mapping under a key that the target does not have leaves
    [undefined] there, and an empty mapping does not replace a string. *)
Lemma merge_empty_mapping :
  mergeRecursive (VObject [("track", VString "T")]) (VObject [("a", VObject [])])
  = Ret (VObject [("track", VString "T"); ("a", VUndefined)])
  /\ mergeRecursive (VObject [("a", VString "x")]) (VObject [("a", VObject [])])
     = Ret (VObject [("a", VString "x")]).
Proof. split; reflexivity. Qed.

(** C2 fails on the code. With fixed params [{track: "T", ctx: {a: "1"}}],
    after [execute(m1, {ctx: {b: "2"}})] the params of a second call
    [execute(m2, {})] hold [b] as well, and so do the fixed params of the
    instance: line 134 copies the outer object only, and line 138 merges the
    first call's mapping into the [ctx] object that the instance owns. *)
Theorem call_params_leak_into_fixed_params :
  fst Store.two_calls = Ret (Store.HObject 5, Store.HObject 6)
  /\ Store.reify 4 (snd Store.two_calls) (Store.HObject 6)
     = VObject [("track", VString "T");
                ("ctx", VObject [("a", VString "1"); ("b", VString "2")])]
  /\ Store.reify 4 (snd Store.two_calls) (Store.HObject 0)
     = VObject [("track", VString "T");
                ("ctx", VObject [("a", VString "1"); ("b", VString "2")])]
  /\ stringifyCall {| method := "m2";
                      params := Store.reify 4 (snd Store.two_calls) (Store.HObject 6);
                      deferred := 1; timeStart := (0, 0) |}
     = Ret "method=m2&track=T&ctx[a]=1&ctx[b]=2".
Proof. repeat split; vm_compute; reflexivity. Qed.

(** ** Merging ordinary values gives an ordinary value *)

Lemma value_nested_ind (P : value -> Prop) :
  P VUndefined -> P VNull -> (forall b, P (VBool b)) -> (forall n, P (VNumber n)) ->
  (forall s, P (VString s)) -> (forall d, P (VSymbol d)) -> (forall f, P (VFunction f)) ->
  (forall elems, Forall P elems -> P (VArray elems)) ->
  (forall props, Forall (fun kv => P kv.2) props -> P (VObject props)) ->
  forall v, P v.
Proof.
  intros HU HN HB HZ HS HY HF HA HO. fix IH 1. intros [| | b | n | s | d | f | elems | props].
  - exact HU.
  - exact HN.
  - apply HB.
  - apply HZ.
  - apply HS.
  - apply HY.
  - apply HF.
  - apply HA. induction elems as [|e elems IHe]; constructor; [apply IH|exact IHe].
  - apply HO. induction props as [|[k x] props IHp]; constructor; [apply IH|exact IHp].
Qed.

Lemma special_name_index i : special_name (string_of_nat i) = false.
Proof.
  unfold string_of_nat. destruct (Nat.to_uint i); reflexivity.
Qed.

Lemma ordinary_object props :
  ordinary (VObject props) = forallb ordinary_prop props.
Proof.
  simpl. induction props as [|[k x] props IH]; simpl; [done|]. by rewrite IH.
Qed.

Lemma ordinary_lookup props p v :
  ordinary (VObject props) = true -> lookup_prop p props = Some v -> ordinary v = true.
Proof.
  rewrite ordinary_object.
  induction props as [|[k x] props IH]; simpl; [done|].
  intros [[_ Hx]%andb_true_iff Hrest]%andb_true_iff.
  destruct (String.eqb p k); [by intros [= <-]|by apply IH].
Qed.

Lemma ordinary_nth elems i :
  forallb ordinary elems = true -> ordinary (nth i elems VUndefined) = true.
Proof.
  revert i. induction elems as [|e elems IH]; intros [|i]; simpl; try done.
  - by intros [? _]%andb_true_iff.
  - intros [_ ?]%andb_true_iff. by apply IH.
Qed.

Lemma get_prop_ordinary obj p v :
  ordinary obj = true -> get_prop obj p = Ret v -> ordinary v = true.
Proof.
  intros Hobj. destruct obj as [| | b | n | s | d | f | elems | props]; simpl;
    try done; try (by intros [= <-]).
  - destruct (array_index p); [|by destruct (String.eqb p "length"); intros [= <-]].
    intros [= <-]. by destruct (nth_unit _ _).
  - destruct (array_index p); [|by destruct (String.eqb p "length"); intros [= <-]].
    intros [= <-]. by apply ordinary_nth.
  - intros [= <-]. destruct (lookup_prop p props) as [x|] eqn:Hp; [|done].
    by apply (ordinary_lookup props p).
Qed.

Lemma replace_prop_ordinary p v props :
  forallb ordinary_prop props = true -> ordinary v = true ->
  forallb ordinary_prop (replace_prop p v props) = true.
Proof.
  intros Hprops Hv. induction props as [|[k x] props IH]; simpl in *; [done|].
  apply andb_true_iff in Hprops as [Hkx Hrest].
  destruct (String.eqb p k); simpl.
  - apply andb_true_iff. split; [|done]. unfold ordinary_prop in *. simpl in *.
    apply andb_true_iff in Hkx as [-> _]. done.
  - rewrite Hkx. by apply IH.
Qed.

Lemma add_prop_ordinary p v props :
  forallb ordinary_prop props = true -> special_name p = false -> ordinary v = true ->
  forallb ordinary_prop (add_prop p v props) = true.
Proof.
  intros Hprops Hp Hv.
  assert (Hpv : ordinary_prop (p, v) = true) by (unfold ordinary_prop; simpl; by rewrite Hp, Hv).
  induction props as [|[k x] props IH]; simpl in *; [by rewrite Hpv|].
  apply andb_true_iff in Hprops as [Hkx Hrest].
  assert (Hhere : forallb ordinary_prop ((p, v) :: (k, x) :: props) = true).
  { simpl. by rewrite Hpv, Hkx, Hrest. }
  assert (Hlater : forallb ordinary_prop ((k, x) :: add_prop p v props) = true).
  { simpl. rewrite Hkx. by apply IH. }
  destruct (array_index p) as [i|]; [|exact Hlater].
  destruct (array_index k) as [i'|]; [|exact Hhere].
  destruct (i <? i')%N; [exact Hhere|exact Hlater].
Qed.

Lemma arr_set_ordinary i v elems :
  forallb ordinary elems = true -> ordinary v = true ->
  forallb ordinary (arr_set i v elems) = true.
Proof.
  intros Helems Hv. revert elems Helems.
  induction i as [|i IH]; intros [|e elems] Helems; simpl in *.
  - by rewrite Hv.
  - apply andb_true_iff in Helems as [_ ->]. by rewrite Hv.
  - by apply (IH []).
  - apply andb_true_iff in Helems as [-> Hrest]. by apply IH.
Qed.

Lemma set_prop_ordinary obj p v r :
  ordinary obj = true -> special_name p = false -> ordinary v = true ->
  set_prop obj p v = Ret r -> ordinary r = true.
Proof.
  intros Hobj Hp Hv. destruct obj as [| | b | n | s | d | f | elems | props]; simpl; try done.
  - by intros [= <-].
  - destruct (array_index p); intros [= <-]; [|done]. simpl. by apply arr_set_ordinary.
  - intros [= <-]. rewrite ordinary_object in *. unfold obj_set.
    destruct (hasOwnProperty props p); [by apply replace_prop_ordinary|by apply add_prop_ordinary].
Qed.

Lemma merge_property_ordinary recurse obj1 p v2 r :
  (forall cur merged, ordinary cur = true -> recurse cur = Ret merged -> ordinary merged = true) ->
  ordinary obj1 = true -> special_name p = false -> ordinary v2 = true ->
  merge_property recurse obj1 p v2 = Ret r -> ordinary r = true.
Proof.
  intros Hrec Hobj Hp Hv. unfold merge_property.
  destruct (constructor_is_Object v2) as [[|]|e]; simpl.
  - destruct (get_prop obj1 p) as [cur|e] eqn:Hcur; simpl;
      [|by apply set_prop_ordinary].
    destruct (recurse cur) as [merged|e] eqn:Hm; simpl; [|by apply set_prop_ordinary].
    destruct (set_prop obj1 p merged) as [r'|e] eqn:Hset; simpl.
    + intros [= <-]. apply (set_prop_ordinary obj1 p merged); try done.
      apply (Hrec cur); [|done]. by apply (get_prop_ordinary obj1 p).
    + by apply set_prop_ordinary.
  - destruct (set_prop obj1 p v2) as [r'|e] eqn:Hset; simpl; [|done].
    intros [= <-]. by apply (set_prop_ordinary obj1 p v2).
  - by apply set_prop_ordinary.
Qed.

Lemma mergeRecursive_ordinary obj2 :
  ordinary obj2 = true ->
  forall obj1 r, ordinary obj1 = true -> mergeRecursive obj1 obj2 = Ret r -> ordinary r = true.
Proof.
  induction obj2 as [| | b | n | s | d | f | elems IH | props IH] using value_nested_ind;
    intros Hobj2 obj1 r Hobj1; try (by intros [= <-]).
  - (* a string: its code units *)
    simpl. clear Hobj2. generalize 0%nat. revert obj1 Hobj1.
    induction s as [|a s IHs]; intros obj1 Hobj1 i; simpl; [by intros [= <-]|].
    destruct (merge_property _ obj1 _ _) as [obj1'|e] eqn:Hm; simpl; [|done].
    apply IHs. revert Hm. apply merge_property_ordinary; try done.
    + by intros cur merged Hcur [= <-].
    + apply special_name_index.
  - (* an array: its elements *)
    simpl in *. generalize 0%nat. revert obj1 Hobj1 Hobj2.
    induction IH as [|e elems He _ IHe]; intros obj1 Hobj1 Hobj2 i; simpl;
      [by intros [= <-]|].
    simpl in Hobj2. apply andb_true_iff in Hobj2 as [Hord Hrest].
    destruct (merge_property _ obj1 _ e) as [obj1'|err] eqn:Hm; simpl; [|done].
    apply IHe; [|done].
    revert Hm. apply merge_property_ordinary; try done.
    + intros cur merged Hcur. by apply He.
    + apply special_name_index.
  - (* an object: its properties *)
    rewrite ordinary_object in Hobj2. simpl. revert obj1 Hobj1 Hobj2.
    induction IH as [|[k x] props Hx _ IHp]; intros obj1 Hobj1 Hobj2; simpl;
      [by intros [= <-]|].
    simpl in Hobj2. apply andb_true_iff in Hobj2 as [Hkx Hrest].
    unfold ordinary_prop in Hkx. simpl in Hkx, Hx.
    apply andb_true_iff in Hkx as [Hk Hord]. apply negb_true_iff in Hk.
    destruct (merge_property _ obj1 k x) as [obj1'|err] eqn:Hm; simpl; [|done].
    apply IHp; [|done].
    revert Hm. apply merge_property_ordinary; try done.
    intros cur merged Hcur. by apply Hx.
Qed.

(** ** What the operations leave alone *)


Lemma preserves_mret {A : Type} P (a : A) : preserves P (mret a).
Proof. by intros w. Qed.

Lemma preserves_mthrow {A : Type} P e : preserves P (@mthrow A e).
Proof. by intros w. Qed.

Lemma preserves_lift {A : Type} P (r : result A) : preserves P (lift r).
Proof. by intros w. Qed.

Lemma preserves_get_this P : preserves P get_this.
Proof. by intros w. Qed.

Lemma preserves_mbind {A B : Type} P (m : M A) (k : A -> M B) :
  preserves P m -> (forall a, preserves P (k a)) -> preserves P (mbind m k).
Proof.
  intros Hm Hk w HP. unfold mbind. specialize (Hm w HP).
  destruct (m w) as [[a|e] w']; simpl in *; [by apply Hk|done].
Qed.

Lemma mfor_in_cons {A : Type} (body : A -> M unit) x l :
  mfor_in body (x :: l) = mbind (body x) (fun _ => mfor_in body l).
Proof. done. Qed.

Lemma preserves_mfor_in {A : Type} P (body : A -> M unit) l :
  (forall x, preserves P (body x)) -> preserves P (mfor_in body l).
Proof.
  intros Hb. induction l as [|x l IH]; simpl.
  - apply preserves_mret.
  - apply preserves_mbind; [apply Hb|by intros _].
Qed.

(** Goals [preserves P m] are solved along the structure of [m]. *)
Create HintDb preserves.
#[local] Hint Resolve preserves_mret preserves_mthrow preserves_lift preserves_get_this
  : preserves.
#[local] Hint Extern 2 (preserves _ (mbind _ _)) =>
  apply preserves_mbind; [|intros ?] : preserves.
#[local] Hint Extern 2 (preserves _ (mfor_in _ _)) =>
  apply preserves_mfor_in; intros ? : preserves.
#[local] Hint Extern 3 (preserves _ (if ?b then _ else _)) => destruct b : preserves.
#[local] Hint Extern 3 (preserves _ (match ?x with Some _ => _ | None => _ end)) =>
  destruct x : preserves.
#[local] Hint Extern 3 (preserves _ (let (_, _) := ?x in _)) => destruct x : preserves.


Lemma preserves_mfor_in_elem {A : Type} P (body : A -> M unit) l :
  (forall x, x ∈ l -> preserves P (body x)) -> preserves P (mfor_in body l).
Proof.
  induction l as [|x l IH]; intros Hb; [apply preserves_mret|].
  rewrite mfor_in_cons. apply preserves_mbind; [apply Hb, list_elem_of_here|].
  intros _. apply IH. intros y Hy. by apply Hb, list_elem_of_further.
Qed.

Lemma elem_of_enumerate_snd {A : Type} (l : list A) i0 i x :
  (i, x) ∈ enumerate i0 l -> x ∈ l.
Proof.
  revert i0. induction l as [|y l IH]; intros i0; simpl; [by intros ?%elem_of_nil|].
  intros [[= _ ->]|Hin]%elem_of_cons; [apply list_elem_of_here|].
  apply list_elem_of_further. by apply (IH (S i0)).
Qed.

(** What the demultiplexer keeps: it only logs, and settles the promises of
    the calls it is given. *)
Section Frames.
Context {host : Host}.
Context (P : World -> Prop) (calls : list CallRecord).
Hypothesis P_log : forall e, preserves P (log e).
Hypothesis P_settle :
  forall call st, call ∈ calls -> preserves P (settle (deferred call) st).

Lemma preserves_deferred_resolve call v :
  call ∈ calls -> preserves P (deferred_resolve call v).
Proof. intros Hin. unfold deferred_resolve. auto with preserves. Qed.

Lemma preserves_deferred_reject call e :
  call ∈ calls -> preserves P (deferred_reject call e).
Proof. intros Hin. unfold deferred_reject. auto with preserves. Qed.

Lemma preserves_rejectQueue queue e :
  queue ⊆ calls -> preserves P (rejectQueue queue e).
Proof.
  intros Hsub. unfold rejectQueue. apply preserves_mfor_in_elem.
  intros call Hin. by apply preserves_deferred_reject, Hsub.
Qed.

Lemma preserves_resolve_call results i call :
  call ∈ calls -> preserves P (resolve_call results (i, call)).
Proof.
  intros Hin. unfold resolve_call, notify.
  auto 12 using preserves_deferred_reject, preserves_deferred_resolve with preserves.
Qed.

Lemma preserves_resolveQueue queue results :
  queue ⊆ calls -> preserves P (resolveQueue queue results).
Proof.
  intros Hsub. unfold resolveQueue. apply preserves_mfor_in_elem.
  intros [i call] Hin. apply preserves_resolve_call, Hsub.
  by apply elem_of_enumerate_snd in Hin.
Qed.

Lemma preserves_complete x o : batch x ⊆ calls -> preserves P (complete x o).
Proof.
  intros Hsub.
  destruct o as [response|reason]; simpl; [|by apply preserves_rejectQueue].
  destruct (parseResponseBody response) as [results|e]; [|by apply preserves_rejectQueue].
  intros w Hw. pose proof (preserves_resolveQueue (batch x) results Hsub w Hw) as H.
  destruct (resolveQueue (batch x) results w) as [[[]|e] w']; simpl in *; [done|].
  by apply preserves_rejectQueue.
Qed.

End Frames.

Lemma about_log P e : about_client_and_timers P -> preserves P (log e).
Proof. intros HP w. by apply HP. Qed.

Lemma about_settle P p st : about_client_and_timers P -> preserves P (settle p st).
Proof. intros HP w. by apply HP. Qed.

Lemma about_complete `{Host} P x o :
  about_client_and_timers P -> preserves P (complete x o).
Proof.
  intros HP. apply (preserves_complete P (batch x)); [| |done].
  - intros. by apply about_log.
  - intros. by apply about_settle.
Qed.

(** ** The queue and its timer *)

Section Queue.
Context {host : Host}.

Lemma resetQueue_eq w :
  resetQueue w
  = (Ret tt,
     {| this := set_queue [] (set_batchTimeout None (this w));
        promises := promises w; next_promise := next_promise w;
        timers := match _batchTimeout (this w) with
                  | Some t => timers w ∖ {[t]}
                  | None => timers w
                  end;
        next_timer := next_timer w; exchanges := exchanges w;
        answered := answered w; trace := trace w |}).
Proof.
  destruct w as [[ep q mx bt op ev ca] ps np ts nt ex an tr].
  unfold resetQueue, mbind, get_this, clearTimeout, update_this, mret. simpl.
  by destruct bt.
Qed.

Lemma _postToApi_eq w :
  _postToApi w
  = match build_request (this w) with
    | Ret req => resetQueue (snd (http_post {| request := req; batch := _queue (this w) |} w))
    | Throw e => (Throw e, w)
    end.
Proof.
  unfold _postToApi, mbind, get_this, lift. simpl.
  by destruct (build_request (this w)).
Qed.

(** The flush transition: when [_postToApi] returns, the queue it posted is
    the batch of the new exchange, the queue is empty, [_batchTimeout] is
    [null] and its timer is cleared. *)
Lemma _postToApi_returns w :
  fst (_postToApi w) = Ret tt ->
  exists req,
    build_request (this w) = Ret req
    /\ _postToApi w
       = (Ret tt,
          {| this := set_queue [] (set_batchTimeout None (this w));
             promises := promises w; next_promise := next_promise w;
             timers := match _batchTimeout (this w) with
                       | Some t => timers w ∖ {[t]}
                       | None => timers w
                       end;
             next_timer := next_timer w;
             exchanges := push (exchanges w) {| request := req; batch := _queue (this w) |};
             answered := answered w; trace := trace w |}).
Proof.
  rewrite _postToApi_eq. destruct (build_request (this w)) as [req|e]; [|done].
  intros _. exists req. split; [done|]. by rewrite resetQueue_eq.
Qed.

(** When it throws, it threw while building the request: nothing was
    posted and nothing changed. *)
Lemma _postToApi_throws w e :
  fst (_postToApi w) = Throw e -> _postToApi w = (Throw e, w).
Proof.
  rewrite _postToApi_eq. destruct (build_request (this w)) as [req|e'].
  - by rewrite resetQueue_eq.
  - by intros [= ->].
Qed.


Lemma timer_inv_about : about_client_and_timers timer_inv.
Proof. intros w w' Hthis Htimers _ _ H t. rewrite <- Hthis, <- Htimers. apply H. Qed.


Lemma timer_inv_none w : timer_inv w -> _batchTimeout (this w) = None -> timers w = ∅.
Proof.
  intros H Hb. apply set_eq. intros t. split; [|set_solver].
  intros Ht. apply H in Ht. congruence.
Qed.

Lemma timer_inv_resetQueue : preserves timer_inv resetQueue.
Proof.
  intros w H. rewrite resetQueue_eq. simpl. intros t Ht. exfalso.
  destruct (_batchTimeout (this w)) as [t'|] eqn:Hb; simpl in Ht.
  - apply elem_of_difference in Ht as [Ht Hne]. apply H in Ht.
    rewrite Hb in Ht. injection Ht as ->. set_solver.
  - apply H in Ht. congruence.
Qed.

Lemma timer_inv__postToApi : preserves timer_inv _postToApi.
Proof.
  intros w H. rewrite _postToApi_eq. destruct (build_request (this w)); [|done].
  by apply timer_inv_resetQueue.
Qed.

End Queue.

Section Enqueue.
Context {host : Host}.

Lemma preserves_new_Promise P (executor : nat -> M unit) :
  about_client_and_timers P ->
  (forall p, preserves P (executor p)) ->
  preserves P (new_Promise executor).
Proof.
  intros HP Hex w Hw. unfold new_Promise.
  set (w0 := {| this := this w; promises := <[next_promise w:=Pending]> (promises w);
                next_promise := S (next_promise w); timers := timers w;
                next_timer := next_timer w; exchanges := exchanges w;
                answered := answered w; trace := trace w |}).
  assert (H0 : P w0) by by apply (HP w).
  pose proof (Hex (next_promise w) w0 H0) as H1.
  destruct (executor (next_promise w) w0) as [[[]|e] w']; simpl in *; [done|].
  by apply (about_settle _ _ _ HP).
Qed.

(** What the executor does when the instance's options are an object, as
    the constructor leaves them: both merges return, the call is queued,
    and then the queue is flushed at once, or a timer is set if none is
    pending. *)
Lemma enqueue_eq w m params_arg env p ps :
  _options (this w) = VObject ps ->
  exists base merged,
    mergeRecursive (VObject []) (default VUndefined (lookup_prop "params" ps))
    = Ret (VObject base)
    /\ mergeRecursive (VObject base) (if truthy params_arg then params_arg else VObject [])
       = Ret (VObject merged)
    /\ enqueue m params_arg env p w
       = let w1 := snd (queue_call {| method := m; params := VObject merged;
                                      deferred := p; timeStart := hrtime env |} w) in
         if limit_reached (this w1) then _postToApi w1
         else match _batchTimeout (this w1) with
              | None => schedule_flush w1
              | Some _ => (Ret tt, w1)
              end.
Proof.
  intros Hopt.
  destruct (mergeRecursive_object_target (default VUndefined (lookup_prop "params" ps)) [])
    as (base & Hbase & _).
  destruct (mergeRecursive_object_target
              (if truthy params_arg then params_arg else VObject []) base)
    as (merged & Hmerged & _).
  exists base, merged. split; [done|]. split; [done|].
  unfold enqueue, mbind, get_this, lift. simpl. rewrite Hopt. simpl.
  rewrite Hbase. simpl. rewrite Hmerged. simpl.
  destruct (limit_reached _); [done|]. by destruct (_batchTimeout (this w)).
Qed.

(** [execute] keeps what its cache updates, its promise and its executor
    keep. *)
Lemma execute_preserves P method_arg params_arg config env :
  about_client_and_timers P ->
  (forall g, preserves P (update_this (fun a => set_cache (g a) a))) ->
  (forall m p, preserves P (enqueue m params_arg env p)) ->
  preserves P (execute method_arg params_arg config env).
Proof.
  intros HP Hcache Henq. unfold execute.
  auto 12 using preserves_new_Promise with preserves.
Qed.

Lemma on_preserves P stat cb :
  (forall g, preserves P (update_this (fun a => set_events (g a) a))) ->
  preserves P (on stat cb).
Proof.
  intros Hev. unfold on. auto with preserves.
Qed.

(** An invariant of the client: kept by every action that is allowed. *)
Lemma perform_preserves (P : World -> Prop) (allowed : action -> Prop) :
  about_client_and_timers P ->
  (forall g, preserves P (update_this (fun a => set_cache (g a) a))) ->
  (forall g, preserves P (update_this (fun a => set_events (g a) a))) ->
  (forall n, preserves P (update_this (set_maxQueueSize n))) ->
  (forall method_arg params_arg config env m p,
     allowed (Execute method_arg params_arg config env) ->
     preserves P (enqueue m params_arg env p)) ->
  preserves P _postToApi ->
  preserves P resetQueue ->
  (forall t w, P w -> P (drop_timer t w)) ->
  forall a w w', allowed a -> P w -> perform a w = Some w' -> P w'.
Proof.
  intros HP Hcache Hev Hmax Henq Hpost Hreset Hdrop a w w' Ha Hw.
  destruct a; simpl.
  - intros [= <-]. apply execute_preserves; eauto.
  - intros [= <-]. by apply on_preserves.
  - intros [= <-]. by apply Hmax.
  - intros [= <-]. by apply Hreset.
  - intros [= <-]. by apply Hpost.
  - destruct (decide (t ∈ timers w)); [|done]. intros [= <-]. by apply Hpost, Hdrop.
  - destruct (exchanges w !! i) as [x|]; [|done].
    destruct (decide (i ∈ answered w)); [done|]. intros [= <-].
    apply (about_complete _ _ _ HP). by apply (HP w).
Qed.

Lemma reachable_by_preserves (P : World -> Prop) (allowed : action -> Prop) w0 w :
  (forall a w w', allowed a -> P w -> perform a w = Some w' -> P w') ->
  P w0 -> reachable_by allowed w0 w -> P w.
Proof.
  intros Hstep H0 Hr. induction Hr as [|w a w' _ IH Ha Hp]; [done|].
  by apply (Hstep a w).
Qed.

Lemma reachable_by_front `{Host} (allowed : action -> Prop) a w0 w1 w :
  allowed a -> perform a w0 = Some w1 ->
  reachable_by allowed w1 w -> reachable_by allowed w0 w.
Proof.
  intros Ha Hp Hr. induction Hr as [|w a' w' _ IH Ha' Hp'].
  - apply (reachable_step _ _ w0 a); [apply reachable_start|done|done].
  - by apply (reachable_step _ _ w a').
Qed.

Lemma run_reachable_by `{Host} (allowed : action -> Prop) actions w0 w :
  Forall allowed actions -> run actions w0 = Some w -> reachable_by allowed w0 w.
Proof.
  intros Hall. revert w0. induction Hall as [|a actions Ha _ IH]; intros w0; simpl.
  - intros [= <-]. apply reachable_start.
  - destruct (perform a w0) as [w1|] eqn:Hp; [|done]. intros Hrun.
    by apply (reachable_by_front _ a w0 w1); [| |apply IH].
Qed.

Lemma run_reachable `{Host} actions w0 w :
  run actions w0 = Some w -> reachable w0 w.
Proof.
  revert w0. induction actions as [|a actions IH]; intros w0; simpl.
  - intros [= <-]. apply reachable_start.
  - destruct (perform a w0) as [w1|] eqn:Hp; [|done]. intros Hrun.
    by apply (reachable_by_front _ a w0 w1); [|done|apply IH].
Qed.

Lemma timer_inv_update_this f :
  (forall a, _batchTimeout (f a) = _batchTimeout a) ->
  preserves timer_inv (update_this f).
Proof. intros Hf w H t Ht. simpl in *. rewrite Hf. by apply H. Qed.

Lemma timer_inv_schedule_flush w :
  timer_inv w -> _batchTimeout (this w) = None -> timer_inv (snd (schedule_flush w)).
Proof.
  intros H Hb t. simpl. rewrite (timer_inv_none w H Hb).
  intros [Ht%elem_of_singleton|Ht%elem_of_empty]%elem_of_union; [by subst|done].
Qed.

Lemma timer_inv_enqueue m params_arg env p : preserves timer_inv (enqueue m params_arg env p).
Proof.
  unfold enqueue.
  apply preserves_mbind; [apply preserves_get_this|intros api].
  apply preserves_mbind; [apply preserves_lift|intros options_params].
  apply preserves_mbind; [apply preserves_lift|intros _params].
  apply preserves_mbind; [apply preserves_lift|intros merged].
  apply preserves_mbind; [by apply timer_inv_update_this|intros _].
  intros w H. unfold mbind, get_this. simpl.
  destruct (limit_reached (this w)); [by apply timer_inv__postToApi|].
  destruct (_batchTimeout (this w)) eqn:Hb; [done|].
  by apply timer_inv_schedule_flush.
Qed.

Lemma timer_inv_perform a w w' :
  timer_inv w -> perform a w = Some w' -> timer_inv w'.
Proof.
  apply (perform_preserves timer_inv (fun _ => True)); try done.
  - apply timer_inv_about.
  - intros g. by apply timer_inv_update_this.
  - intros g. by apply timer_inv_update_this.
  - intros n. by apply timer_inv_update_this.
  - intros. apply timer_inv_enqueue.
  - apply timer_inv__postToApi.
  - apply timer_inv_resetQueue.
  - intros t w0 H t' Ht'. simpl in *. apply H.
    by apply elem_of_difference in Ht' as [? _].
Qed.











End Enqueue.

Section FlushTimer.
Context {host : Host}.




End FlushTimer.


(** ** Validation *)

Lemma parameterize_unencodable k v :
  unencodable v = true -> exists e, parameterize k v = Throw e.
Proof. destruct v; try done; intros _; by eexists. Qed.

Lemma traverse_throws {A B : Type} (f : A -> result B) l x :
  x ∈ l -> (exists e, f x = Throw e) -> exists e, traverse f l = Throw e.
Proof.
  intros Hin [e He]. induction l as [|y l IH]; [by apply elem_of_nil in Hin|].
  simpl. apply elem_of_cons in Hin as [<-|Hin].
  - rewrite He. by eexists.
  - destruct (f y); simpl; [|by eexists].
    destruct (IH Hin) as [e' ->]. by eexists.
Qed.

Lemma stringifyCall_unencodable call k v :
  (k, v) ∈ own_enumerable (params call) -> unencodable v = true ->
  exists e, stringifyCall call = Throw e.
Proof.
  intros Hin Hv. rewrite stringifyCall_wire_line. unfold wire_line, encoded_pairs.
  destruct (traverse_throws (fun kv => parameterize kv.1 kv.2) (sent_params call) (k, v))
    as [e ->]; [| |by eexists].
  - unfold sent_params. apply list_elem_of_filter. split; [|done]. by destruct v.
  - by apply parameterize_unencodable.
Qed.

Lemma stringifyQueue_unencodable queue call k v :
  call ∈ queue -> (k, v) ∈ own_enumerable (params call) -> unencodable v = true ->
  exists e, stringifyQueue queue = Throw e.
Proof.
  intros Hc Hin Hv. rewrite stringifyQueue_body. unfold wire_body.
  destruct (traverse_throws wire_line queue call Hc) as [e ->]; [|by eexists].
  rewrite <- stringifyCall_wire_line. by apply (stringifyCall_unencodable call k v).
Qed.

Section Validation.
Context {host : Host}.

Lemma execute_invalid_method method_arg params_arg config env w :
  invalid_method method_arg = true ->
  execute method_arg params_arg config env w
  = (Throw (Error "Method is required to execute API calls"), w).
Proof. intros H. unfold execute. by rewrite H. Qed.

Lemma _postToApi_unencodable w call k v :
  call ∈ _queue (this w) -> (k, v) ∈ own_enumerable (params call) ->
  unencodable v = true ->
  exists e, _postToApi w = (Throw e, w).
Proof.
  intros Hc Hin Hv. rewrite _postToApi_eq. unfold build_request.
  destruct (stringifyQueue_unencodable _ call k v Hc Hin Hv) as [e ->].
  by exists e.
Qed.

End Validation.

(** ** execute, step by step *)

Section Execute.
Context {host : Host}.

Lemma with_cache_same w : with_cache (_cache (this w)) w = w.
Proof. by destruct w as [[] ? ? ? ? ? ? ?]. Qed.

(** A call with a valid method: the sweep, then either the live cache entry
    is returned and nothing else happens, or the call goes through. *)
Lemma execute_valid m params_arg config env w :
  m <> "" ->
  execute (VString m) params_arg config env w
  = let c := swept_cache env w in
    match (if cache_requested config then c !! cache_key m params_arg else None) with
    | Some entry =>
        if expires_gt (expires entry) (now_lookup env)
        then (Ret (ReturnedCacheEntry entry), with_cache c w)
        else call_through m params_arg config env
               (with_cache (delete (cache_key m params_arg) c) w)
    | None => call_through m params_arg config env (with_cache c w)
    end.
Proof.
  intros Hm. unfold execute, invalid_method. simpl.
  assert (String.eqb m "" = false) as -> by by apply String.eqb_neq.
  simpl. unfold swept_cache, call_through.
  destruct w as [[ep q mx bt op ev ca] ps np ts nt ex an tr].
  unfold mbind at 1. simpl. unfold mbind at 1.
  destruct (random_gt_099 (randomNum env)); simpl;
    (destruct (cache_requested config) eqn:Hc; unfold mbind, new_Promise; simpl;
     [ match goal with
       | |- context [ ?c !! cache_key m params_arg ] =>
           destruct (c !! cache_key m params_arg) as [entry|]; simpl
       end;
       [ destruct (expires_gt (expires entry) (now_lookup env)); simpl; [done|] | ]
     | ];
     unfold with_new_promise, with_cache; simpl;
     by destruct (enqueue _ _ _ _ _) as [[[]|e] w']).
Qed.

End Execute.

Lemma lookup_prop_elem k v (props : list (string * value)) :
  lookup_prop k props = Some v -> (k, v) ∈ props.
Proof.
  induction props as [|[k' v'] props IH]; simpl; [done|].
  destruct (String.eqb_spec k k') as [->|Hne].
  - intros [= ->]. apply list_elem_of_here.
  - intros H. apply list_elem_of_further. by apply IH.
Qed.

Lemma own_enumerable_truthy k v o : (k, v) ∈ own_enumerable o -> truthy o = true.
Proof.
  destruct o; simpl; try (by intros ?%elem_of_nil); try done.
  destruct s; [by intros ?%elem_of_nil|done].
Qed.

Section Accepted.
Context {host : Host}.

(** A call that goes through with a parameter of an unencodable kind: it is
    queued with that parameter, the caller gets the promise, and nothing is
    sent; if the executor tries to flush, that throws and the promise is
    rejected, the call still in the queue. *)
Lemma call_through_unencodable m params_arg config env w ps k v :
  _options (this w) = VObject ps ->
  NoDup (own_enumerable params_arg).*1 ->
  (k, v) ∈ own_enumerable params_arg ->
  unencodable v = true ->
  exists call w',
    call_through m params_arg config env w = (Ret (ReturnedPromise (next_promise w)), w')
    /\ call ∈ _queue (this w')
    /\ method call = m /\ deferred call = next_promise w
    /\ (k, v) ∈ own_enumerable (params call)
    /\ exchanges w' = exchanges w.
Proof.
  intros Hopt Hnd Hin Hv. unfold call_through.
  destruct (enqueue_eq (with_new_promise w) m params_arg env (next_promise w) ps Hopt)
    as (base & merged & Hbase & Hmerged & ->).
  rewrite (own_enumerable_truthy k v params_arg Hin) in Hmerged.
  assert (Hk : (k, v) ∈ merged).
  { apply lookup_prop_elem. apply (mergeRecursive_copies params_arg base); try done.
    by destruct v. }
  set (call := {| method := m; params := VObject merged; deferred := next_promise w;
                  timeStart := hrtime env |}).
  set (w1 := snd (queue_call call (with_new_promise w))).
  assert (Hq : call ∈ _queue (this w1)).
  { simpl. unfold push. apply elem_of_app. right. apply list_elem_of_here. }
  exists call. cbv zeta.
  destruct (limit_reached (this w1)).
  - destruct (_postToApi_unencodable w1 call k v Hq Hk Hv) as [e ->].
    eexists. split; [reflexivity|]. by destruct (cache_requested config).
  - destruct (_batchTimeout (this w1)); simpl;
      (eexists; split; [reflexivity|]); by destruct (cache_requested config).
Qed.

(** With ordinary options and params the record that goes into the queue
    is ordinary too. *)
Lemma call_through_accepts m params_arg config env w ps k v :
  _options (this w) = VObject ps ->
  ordinary (VObject ps) = true ->
  ordinary params_arg = true ->
  NoDup (own_enumerable params_arg).*1 ->
  (k, v) ∈ own_enumerable params_arg ->
  unencodable v = true ->
  exists call w',
    call_through m params_arg config env w = (Ret (ReturnedPromise (next_promise w)), w')
    /\ _queue (this w') = (_queue (this w) ++ [call])%list
    /\ _options (this w') = _options (this w)
    /\ method call = m /\ deferred call = next_promise w
    /\ (k, v) ∈ own_enumerable (params call)
    /\ ordinary (params call) = true
    /\ exchanges w' = exchanges w.
Proof.
  intros Hopt Hps Hparams Hnd Hin Hv. unfold call_through.
  destruct (enqueue_eq (with_new_promise w) m params_arg env (next_promise w) ps Hopt)
    as (base & merged & Hbase & Hmerged & ->).
  assert (Hfixed : ordinary (default VUndefined (lookup_prop "params" ps)) = true).
  { destruct (lookup_prop "params" ps) eqn:Hl; [by apply (ordinary_lookup ps "params")|done]. }
  assert (Hcopy : ordinary (VObject base) = true)
    by apply (mergeRecursive_ordinary _ Hfixed (VObject []) _ eq_refl Hbase).
  assert (Harg : ordinary (if truthy params_arg then params_arg else VObject []) = true)
    by by destruct (truthy params_arg).
  assert (Hord : ordinary (VObject merged) = true)
    by apply (mergeRecursive_ordinary _ Harg _ _ Hcopy Hmerged).
  rewrite (own_enumerable_truthy k v params_arg Hin) in Hmerged.
  assert (Hk : (k, v) ∈ merged).
  { apply lookup_prop_elem. apply (mergeRecursive_copies params_arg base); try done.
    by destruct v. }
  set (call := {| method := m; params := VObject merged; deferred := next_promise w;
                  timeStart := hrtime env |}).
  set (w1 := snd (queue_call call (with_new_promise w))).
  assert (Hq : call ∈ _queue (this w1)).
  { simpl. unfold push. apply elem_of_app. right. apply list_elem_of_here. }
  exists call. cbv zeta.
  destruct (limit_reached (this w1)).
  - destruct (_postToApi_unencodable w1 call k v Hq Hk Hv) as [e ->].
    eexists. split; [reflexivity|]. by destruct (cache_requested config).
  - destruct (_batchTimeout (this w1)); simpl;
      (eexists; split; [reflexivity|]); by destruct (cache_requested config).
Qed.

(** C3, as the code has it, for options and params that are ordinary. A
    call whose method is empty or not a string throws from [execute] at once
    and changes nothing. A call with a valid method whose params hold a
    value of an unencodable kind is accepted: unless a live cache entry
    answers it, it goes to the end of the queue with that value, its caller
    gets the promise, nothing is sent, and the state stays ordinary. The
    encoding error is raised when the queue is serialized: [_postToApi]
    throws it before posting and changes nothing. *)
Theorem validation_errors w :
  (forall method_arg params_arg config env,
     invalid_method method_arg = true ->
     execute method_arg params_arg config env w
     = (Throw (Error "Method is required to execute API calls"), w))
  /\ (forall m params_arg config env ps k v,
        m <> "" ->
        ordinary_state w ->
        _options (this w) = VObject ps ->
        ordinary params_arg = true ->
        NoDup (own_enumerable params_arg).*1 ->
        (k, v) ∈ own_enumerable params_arg ->
        unencodable v = true ->
        (exists entry w',
           execute (VString m) params_arg config env w
           = (Ret (ReturnedCacheEntry entry), w'))
        \/ (exists call w',
              execute (VString m) params_arg config env w
              = (Ret (ReturnedPromise (next_promise w)), w')
              /\ _queue (this w') = (_queue (this w) ++ [call])%list
              /\ method call = m /\ deferred call = next_promise w
              /\ (k, v) ∈ own_enumerable (params call)
              /\ exchanges w' = exchanges w
              /\ ordinary_state w'))
  /\ (forall call k v,
        ordinary_state w ->
        call ∈ _queue (this w) ->
        (k, v) ∈ own_enumerable (params call) ->
        unencodable v = true ->
        exists e, _postToApi w = (Throw e, w)).
Proof.
  split; [intros; by apply execute_invalid_method|]. split.
  - intros m params_arg config env ps k v Hm [Hopts Hqueue] Hopt Hparams Hnd Hin Hv.
    rewrite Hopt in Hopts.
    assert (Hthrough : forall c,
              exists call w',
                call_through m params_arg config env (with_cache c w)
                = (Ret (ReturnedPromise (next_promise w)), w')
                /\ _queue (this w') = (_queue (this w) ++ [call])%list
                /\ method call = m /\ deferred call = next_promise w
                /\ (k, v) ∈ own_enumerable (params call)
                /\ exchanges w' = exchanges w
                /\ ordinary_state w').
    { intros c.
      destruct (call_through_accepts m params_arg config env (with_cache c w) ps k v)
        as (call & w' & Heq & Hq & Ho & Hmethod & Hp & Hk & Hord & Hex); try done.
      exists call, w'. repeat split; try done.
      - rewrite Ho. simpl. by rewrite Hopt.
      - rewrite Hq. simpl. apply Forall_app. split; [done|]. by constructor. }
    rewrite execute_valid by done. cbv zeta.
    destruct (if cache_requested config then _ else _) as [entry|].
    + destruct (expires_gt _ _); [left; by eauto|]. right. apply Hthrough.
    + right. apply Hthrough.
  - intros call k v _. apply _postToApi_unencodable.
Qed.

End Accepted.

(** C3 as stated fails: [execute("m", {f: function(){}})] does not throw;
    it returns a promise and the call sits in the queue, a flush timer set. *)
Lemma unencodable_param_counterexample :
  let r := execute (VString "m") (VObject [("f", VFunction "function(){}")])
             NoCache (sample_env 0) (initial_world sample_api) in
  fst r = Ret (ReturnedPromise 0)
  /\ _queue (this (snd r))
     = [{| method := "m";
           params := VObject [("track", VString "MTIzNDU2Nz");
                              ("f", VFunction "function(){}")];
           deferred := 0; timeStart := (0, 0) |}]
  /\ promises (snd r) !! 0%nat = Some Pending
  /\ _batchTimeout (this (snd r)) = Some 0%nat.
Proof. repeat split; reflexivity. Qed.

(** An empty method, a call with a function-valued parameter on a new
    client, and the flush of the queue that holds it. *)
Lemma validation_errors_witness :
  let host := table_host [] in
  let w0 := initial_world sample_api in
  let r := execute (VString "m") function_params NoCache (sample_env 0) w0 in
  execute (VString "") VUndefined NoCache (sample_env 0) w0
  = (Throw (Error "Method is required to execute API calls"), w0)
  /\ (exists call,
        fst r = Ret (ReturnedPromise 0)
        /\ _queue (this (snd r)) = [call]
        /\ ("f", VFunction "function(){}") ∈ own_enumerable (params call)
        /\ exchanges (snd r) = [])
  /\ exists e, _postToApi (snd r) = (Throw e, snd r).
Proof.
  intros host w0 r.
  assert (H0 : ordinary_state w0) by (split; [reflexivity|constructor]).
  destruct (proj1 (proj2 (validation_errors w0)) "m" function_params NoCache (sample_env 0)
              [("query", VObject []);
               ("params", VObject [("track", VString "MTIzNDU2Nz")]);
               ("timeout", VNumber 10000)]
              "f" (VFunction "function(){}"))
    as [(entry & w' & Hhit)|(call & w' & Heq & Hq & _ & _ & Hk & Hex & Hord)].
  - discriminate.
  - exact H0.
  - reflexivity.
  - reflexivity.
  - apply (bool_decide_unpack _). vm_compute. exact I.
  - apply list_elem_of_here.
  - reflexivity.
  - exfalso. vm_compute in Hhit. discriminate.
  - assert (Hr : snd r = w') by (unfold r; by rewrite Heq).
    split; [apply (proj1 (validation_errors w0)); reflexivity|]. split.
    + exists call. unfold r. rewrite Heq. simpl. by repeat split.
    + rewrite Hr. apply (proj2 (proj2 (validation_errors w'))
                           call "f" (VFunction "function(){}")); try done.
      rewrite Hq. apply list_elem_of_here.
Defined.

(** ** The promise cache *)

Section Cache.
Context {host : Host}.

Lemma sweep_lookup now (c : gmap string CacheEntry) key entry :
  c !! key = Some entry ->
  expires_lt (expires entry) now = false ->
  sweep now c !! key = Some entry.
Proof. intros Hc He. unfold sweep. by apply map_lookup_filter_Some. Qed.

Lemma call_through_caches m params_arg config env w :
  cache_requested config = true ->
  _cache (this (snd (call_through m params_arg config env w))) !! cache_key m params_arg
  = Some {| expires := expiry_for config (now_store env); promise := next_promise w |}.
Proof.
  intros Hc. unfold call_through.
  destruct (enqueue _ _ _ _ _) as [r w']. rewrite Hc. simpl.
  apply lookup_insert_eq.
Qed.

(** A call that finds a live entry under its key: [execute] hands back the
    entry object itself and does nothing else; only the sweep may have
    changed the cache. *)
Lemma execute_cache_hit m params_arg config env w entry :
  m <> "" ->
  cache_requested config = true ->
  _cache (this w) !! cache_key m params_arg = Some entry ->
  expires_lt (expires entry) (now_sweep env) = false ->
  expires_gt (expires entry) (now_lookup env) = true ->
  execute (VString m) params_arg config env w
  = (Ret (ReturnedCacheEntry entry), with_cache (swept_cache env w) w).
Proof.
  intros Hm Hc Hl Hs Hg. rewrite execute_valid by done. cbv zeta. rewrite Hc.
  assert (swept_cache env w !! cache_key m params_arg = Some entry) as ->.
  { unfold swept_cache. destruct (random_gt_099 _); [by apply sweep_lookup|done]. }
  by rewrite Hg.
Qed.

(** An entry that has expired at the lookup: the call goes through. *)
Lemma execute_cache_expired m params_arg config env w entry :
  m <> "" ->
  cache_requested config = true ->
  swept_cache env w !! cache_key m params_arg = Some entry ->
  expires_gt (expires entry) (now_lookup env) = false ->
  execute (VString m) params_arg config env w
  = call_through m params_arg config env
      (with_cache (delete (cache_key m params_arg) (swept_cache env w)) w).
Proof.
  intros Hm Hc Hl Hg. rewrite execute_valid by done. cbv zeta. by rewrite Hc, Hl, Hg.
Qed.

End Cache.

(** C1 fails on the code. Two identical calls with [{cache: 10}], one second
    apart: the first caller gets promise 0; the second gets the cache entry
    [{expires, promise}] that holds it, not the promise. One call is queued,
    and a third call at the expiry time queues a second one. *)
Theorem cache_hit_returns_entry :
  let call := execute (VString "m") (VObject [("a", VNumber 1)]) (CacheSeconds 10) in
  let r1 := call (sample_env 1000) (initial_world sample_api) in
  let r2 := call (sample_env 2000) (snd r1) in
  let r3 := call (sample_env 11000) (snd r2) in
  fst r1 = Ret (ReturnedPromise 0)
  /\ fst r2 = Ret (ReturnedCacheEntry {| expires := At 11000; promise := 0 |})
  /\ length (_queue (this (snd r2))) = 1%nat
  /\ exchanges (snd r2) = []
  /\ fst r3 = Ret (ReturnedPromise 1)
  /\ length (_queue (this (snd r3))) = 2%nat.
Proof. repeat split; reflexivity. Qed.

(** ** The demultiplexer *)


Lemma logged_logged l1 l2 w : logged l2 (logged l1 w) = logged (l1 ++ l2) w.
Proof. unfold logged. simpl. by rewrite app_assoc. Qed.



Section Demultiplex.
Context {host : Host}.


(** A subscriber that throws ends the loop with what it threw. *)
Lemma notify_throws tag call res cbs b0 w cb e :
  cb ∈ cbs -> cb call res = Throw e ->
  exists e' w', mfor_in (notify tag call res) (enumerate b0 cbs) w = (Throw e', w')
                /\ promises w' = promises w /\ this w' = this w.
Proof.
  intros Hin He. revert b0 w. induction cbs as [|cb' cbs IH]; intros b0 w.
  - by apply elem_of_nil in Hin.
  - simpl. unfold mbind at 1. unfold notify at 1. unfold mbind, log, lift. simpl.
    destruct (cb' call res) as [[]|e1] eqn:H1.
    + apply elem_of_cons in Hin as [->|Hin]; [congruence|].
      edestruct (IH Hin (S b0)) as (e' & w' & Heq & Hp & Ht).
      exists e', w'. split; [exact Heq|]. by rewrite Hp, Ht.
    + by eexists _, _.
Qed.


End Demultiplex.


Section DemultiplexLoop.
Context {host : Host}.

Lemma settle_promises p st w :
  promises (snd (settle p st w))
  = match promises w !! p with
    | Some Pending => <[p := st]> (promises w)
    | _ => promises w
    end.
Proof. done. Qed.


Lemma settle_other p st w q :
  q <> p -> promises (snd (settle p st w)) !! q = promises w !! q.
Proof.
  intros Hne. rewrite settle_promises.
  destruct (promises w !! p) as [[| |]|]; try done. by rewrite lookup_insert_ne.
Qed.

Lemma settle_pending p st w :
  promises w !! p = Some Pending -> promises (snd (settle p st w)) !! p = Some st.
Proof. intros Hp. rewrite settle_promises, Hp. apply lookup_insert_eq. Qed.





End DemultiplexLoop.



Section Rejection.
Context {host : Host}.




End Rejection.


Section Settling.
Context {host : Host}.




End Settling.

Section Subscribers.
Context {host : Host}.








End Subscribers.

(** ** The track identifier *)

Lemma traverse_Ret_elem {A B : Type} (f : A -> result B) l ys x :
  traverse f l = Ret ys -> x ∈ l -> exists y, f x = Ret y /\ y ∈ ys.
Proof.
  revert ys. induction l as [|a l IH]; intros ys Ht Hin.
  - by apply elem_of_nil in Hin.
  - simpl in Ht. destruct (f a) as [b|e] eqn:Hfa; simpl in Ht; [|done].
    destruct (traverse f l) as [bs|e] eqn:Hl; simpl in Ht; [|done].
    injection Ht as <-. apply elem_of_cons in Hin as [->|Hin].
    + exists b. split; [done|apply list_elem_of_here].
    + destruct (IH bs eq_refl Hin) as (y & Hy & Hyin).
      exists y. split; [done|by apply list_elem_of_further].
Qed.

(** The wire line of a call that carries [track: id]. *)
Lemma wire_line_track id call line :
  has_track id call -> stringifyCall call = Ret line ->
  exists pairs,
    line = join "&" (("method=" ++ encode_string (method call)) :: pairs)
    /\ ("track=" ++ encode_string id) ∈ pairs.
Proof.
  intros (ps & Hps & Htrack). rewrite stringifyCall_wire_line. unfold wire_line.
  destruct (encoded_pairs call) as [pairs|e] eqn:Hpairs; simpl; [|done].
  intros [= <-]. exists pairs. split; [done|].
  unfold encoded_pairs in Hpairs.
  destruct (traverse_Ret_elem _ _ _ ("track", VString id) Hpairs) as (y & Hy & Hin).
  - unfold sent_params. apply list_elem_of_filter. split; [done|].
    rewrite Hps. simpl. by apply lookup_prop_elem.
  - simpl in Hy. unfold parameterize, parameterizePrimitive in Hy. simpl in Hy.
    by injection Hy as <-.
Qed.

Lemma stringifyQueue_lines queue text call :
  stringifyQueue queue = Ret text -> call ∈ queue ->
  exists line, stringifyCall call = Ret line.
Proof.
  rewrite stringifyQueue_body. unfold wire_body.
  destruct (traverse wire_line queue) as [lines|e] eqn:Hl; simpl; [|done].
  intros _ Hin. destruct (traverse_Ret_elem _ _ _ call Hl Hin) as (line & Hline & _).
  exists line. by rewrite stringifyCall_wire_line.
Qed.

(** The constructor keeps the generated track when the options do not set
    one. *)
Lemma merge_options_keep_track items props ps id :
  (forall v, ("params", v) ∈ items ->
     exists ps2, v = VObject ps2 /\ hasOwnProperty ps2 "constructor" = false
                 /\ lookup_prop "track" ps2 = None) ->
  lookup_prop "params" props = Some (VObject ps) ->
  lookup_prop "track" ps = Some (VString id) ->
  NoDup ps.*1 ->
  exists props' ps',
    for_in (fun obj1 '(p, v2) => merge_property (fun cur => mergeRecursive cur v2) obj1 p v2)
           items (VObject props) = Ret (VObject props')
    /\ lookup_prop "params" props' = Some (VObject ps')
    /\ lookup_prop "track" ps' = Some (VString id)
    /\ NoDup ps'.*1.
Proof.
  revert props ps. induction items as [|[p v2] items IH]; intros props ps Hitems Hp Ht Hnd.
  - by exists props, ps.
  - rewrite for_in_cons. cbv beta iota.
    destruct (String.eqb_spec p "params") as [->|Hne].
    + destruct (Hitems v2 (list_elem_of_here _ _)) as (ps2 & -> & Hc & Ht2).
      destruct (mergeRecursive_object_target (VObject ps2) ps)
        as (ps' & Hmerge & Hframe & Hnd').
      rewrite (merge_property_plain_object _ _ _ _ (VObject ps')).
      * apply (IH _ ps').
        -- intros v Hv. by apply Hitems, list_elem_of_further.
        -- apply lookup_obj_set_eq.
        -- by rewrite Hframe.
        -- by apply Hnd'.
      * unfold constructor_is_Object. by rewrite Hc.
      * by rewrite Hp.
    + destruct (merge_property_object (fun cur => mergeRecursive cur v2) props p v2)
        as [x ->].
      apply (IH _ ps); try done.
      * intros v Hv. by apply Hitems, list_elem_of_further.
      * by rewrite lookup_obj_set_ne.
Qed.

Lemma new_TaggedApi_track endpoint options encoded api :
  new_TaggedApi endpoint options encoded = Ret api ->
  options_keep_track options ->
  fixed_track (_generateTrackId encoded) api
  /\ _queue api = [].
Proof.
  unfold new_TaggedApi. intros Hnew Hkeep.
  rewrite mergeRecursive_for_in in Hnew.
  destruct (merge_options_keep_track
              (own_enumerable (if truthy options then options else VObject []))
              [("query", VObject []);
               ("params", VObject [("track", VString (_generateTrackId encoded))]);
               ("timeout", VNumber 10000)]
              [("track", VString (_generateTrackId encoded))]
              (_generateTrackId encoded))
    as (ops & ps & Hmerge & Hp & Ht & Hnd); try done.
  { intros v Hv. apply Hkeep. destruct (truthy options); [done|].
    by apply elem_of_nil in Hv. }
  { apply NoDup_singleton. }
  rewrite Hmerge in Hnew. simpl in Hnew.
  destruct (get_prop options "cookies") as [c|]; simpl in Hnew; [|done].
  destruct (if truthy c then _ else _); simpl in Hnew; [|done].
  injection Hnew as <-. split; [|done]. by exists ops, ps.
Qed.

Section Track.
Context {host : Host}.

Lemma build_request_body api req :
  build_request api = Ret req -> stringifyQueue (_queue api) = Ret (body req).
Proof.
  unfold build_request, request_for.
  destruct (stringifyQueue (_queue api)) as [text|e]; simpl; [|done].
  destruct (get_prop (_options api) "query"); simpl; [|done].
  destruct (for_in _ _ _); simpl; [|done].
  repeat (destruct (get_prop (_options api) _); simpl; [|done]).
  by intros [= <-].
Qed.

Lemma track_inv_about id : about_client_and_timers (track_inv id).
Proof.
  intros w w' Hthis _ _ Hex (Hf & Hq & Hx). unfold track_inv.
  by rewrite <- Hthis, <- Hex.
Qed.

Lemma track_inv_update_this id f :
  (forall a, _options (f a) = _options a) ->
  (forall a, _queue (f a) = _queue a) ->
  preserves (track_inv id) (update_this f).
Proof.
  intros Hopt Hqueue w (Hf & Hq & Hx). unfold track_inv, fixed_track. simpl.
  by rewrite Hopt, Hqueue.
Qed.

Lemma track_inv_resetQueue id : preserves (track_inv id) resetQueue.
Proof.
  intros w (Hf & Hq & Hx). rewrite resetQueue_eq. unfold track_inv. simpl.
  split; [done|]. split; [constructor|done].
Qed.

Lemma track_inv__postToApi id : preserves (track_inv id) _postToApi.
Proof.
  intros w (Hf & Hq & Hx).
  destruct (_postToApi w) as [[[]|e] w'] eqn:Hpost.
  - destruct (_postToApi_returns w) as (req & Hreq & Heq); [by rewrite Hpost|].
    rewrite Hpost in Heq. injection Heq as ->. unfold track_inv. simpl.
    split; [done|]. split; [constructor|]. unfold push. apply Forall_app. split; [done|].
    apply Forall_singleton. simpl. split; [done|]. by apply build_request_body.
  - rewrite (_postToApi_throws w e) in Hpost by by rewrite Hpost.
    by injection Hpost as <-.
Qed.

(** The params of the queued record carry the track of the fixed params
    when the call passes none. *)
Lemma enqueue_track id m params_arg env p w :
  lookup_prop "track" (own_enumerable params_arg) = None ->
  track_inv id w -> track_inv id (snd (enqueue m params_arg env p w)).
Proof.
  intros Hcall (Hf & Hq & Hx).
  destruct Hf as (ops & ps & Hops & Hparams & Htrack & Hnd).
  destruct (enqueue_eq w m params_arg env p ops Hops)
    as (base & merged & Hbase & Hmerged & ->).
  rewrite Hparams in Hbase. simpl in Hbase.
  assert (Hb : lookup_prop "track" base = Some (VString id)).
  { apply (mergeRecursive_copies (VObject ps) [] base); try done.
    by apply lookup_prop_elem. }
  assert (Hm : lookup_prop "track" merged = Some (VString id)).
  { destruct (mergeRecursive_object_target
                (if truthy params_arg then params_arg else VObject []) base)
      as (merged' & Hmerged' & Hframe & _).
    rewrite Hmerged in Hmerged'. injection Hmerged' as <-.
    rewrite Hframe; [done|]. by destruct (truthy params_arg). }
  set (call := {| method := m; params := VObject merged; deferred := p;
                  timeStart := hrtime env |}).
  set (w1 := snd (queue_call call w)).
  assert (H1 : track_inv id w1).
  { unfold track_inv. simpl. split; [by exists ops, ps|]. split; [|done].
    unfold push. apply Forall_app. split; [done|]. apply Forall_singleton.
    by exists merged. }
  cbv zeta. destruct (limit_reached (this w1)); [by apply track_inv__postToApi|].
  destruct (_batchTimeout (this w1)); [done|].
  apply (preserves_mbind (track_inv id) setTimeout); [| |done].
  - intros w2 H2. exact H2.
  - intros t. by apply track_inv_update_this.
Qed.

Lemma track_inv_perform id a w w' :
  keeps_track a -> track_inv id w -> perform a w = Some w' -> track_inv id w'.
Proof.
  apply (perform_preserves (track_inv id) keeps_track).
  - apply track_inv_about.
  - intros g. by apply track_inv_update_this.
  - intros g. by apply track_inv_update_this.
  - intros n. by apply track_inv_update_this.
  - intros method_arg params_arg config env m p Hkeep w0. by apply enqueue_track.
  - apply track_inv__postToApi.
  - apply track_inv_resetQueue.
  - intros t w0 H0. exact H0.
Qed.

Lemma reachable_by_sub (allowed allowed' : action -> Prop) w0 w :
  (forall a, allowed a -> allowed' a) ->
  reachable_by allowed w0 w -> reachable_by allowed' w0 w.
Proof.
  intros Hsub Hr. induction Hr as [|w a w' _ IH Ha Hp]; [apply reachable_start|].
  apply (reachable_step _ _ w a); [done|by apply Hsub|done].
Qed.

(** C10, as the code has it. Take a client constructed from ordinary
    options that give no [params], or give as [params] a plain object
    without a [track] of its own, and let it be used in any ordinary way, as
    long as no call of [execute] passes a [track] of its own. Then each
    request it posts has one line per call of its batch, and the line of
    each call holds the pair [track=<id>], where [<id>] is the
    percent-encoded identifier that the constructor generated: the same for
    every call. *)
Theorem track_on_every_wire_line endpoint options encoded api w :
  new_TaggedApi endpoint options encoded = Ret api ->
  ordinary options = true ->
  options_keep_track options ->
  reachable_by (fun a => keeps_track a /\ ordinary_action a) (initial_world api) w ->
  forall x call, x ∈ exchanges w -> call ∈ batch x ->
    stringifyQueue (batch x) = Ret (body (request x))
    /\ exists pairs,
         stringifyCall call
         = Ret (join "&" (("method=" ++ encode_string (method call)) :: pairs))
         /\ ("track=" ++ encode_string (_generateTrackId encoded)) ∈ pairs.
Proof.
  intros Hnew _ Hkeep Hreach x call Hx Hcall.
  apply (reachable_by_sub _ keeps_track) in Hreach; [|by intros a [? _]].
  destruct (new_TaggedApi_track _ _ _ _ Hnew Hkeep) as [Hfixed Hqueue].
  assert (Hinv : track_inv (_generateTrackId encoded) w).
  { apply (reachable_by_preserves _ keeps_track (initial_world api)); [| |done].
    - intros a w1 w2. apply track_inv_perform.
    - unfold track_inv. simpl. rewrite Hqueue. by repeat split. }
  destruct Hinv as (_ & _ & Hexs).
  rewrite Forall_forall in Hexs. destruct (Hexs x Hx) as [Hbatch Hbody].
  split; [done|].
  destruct (stringifyQueue_lines _ _ call Hbody Hcall) as [line Hline].
  rewrite Forall_forall in Hbatch.
  destruct (wire_line_track _ call line (Hbatch call Hcall) Hline) as (pairs & -> & Hin).
  by exists pairs.
Qed.

End Track.


(** ** The promises of the calls in flight *)









Section PromiseInvariant.
Context {host : Host}.






End PromiseInvariant.

Section PromiseSteps.
Context {host : Host}.

(** The executor either throws before it queues anything, or queues the call
    and goes on as in [enqueue_eq]. *)
Lemma enqueue_cases m params_arg env p w :
  (exists e, enqueue m params_arg env p w = (Throw e, w))
  \/ (exists merged,
        enqueue m params_arg env p w
        = let w1 := snd (queue_call {| method := m; params := merged; deferred := p;
                                       timeStart := hrtime env |} w) in
          if limit_reached (this w1) then _postToApi w1
          else match _batchTimeout (this w1) with
               | None => schedule_flush w1
               | Some _ => (Ret tt, w1)
               end).
Proof.
  unfold enqueue, mbind, get_this, lift. simpl.
  destruct (get_prop (_options (this w)) "params") as [op|e]; [|left; by exists e].
  destruct (mergeRecursive (VObject []) op) as [base|e]; [|left; by exists e].
  destruct (mergeRecursive base _) as [merged|e]; [|left; by exists e].
  right. exists merged. simpl. destruct (limit_reached _); [done|].
  by destruct (_batchTimeout (this w)).
Qed.



Lemma invalid_method_false method_arg :
  invalid_method method_arg = false -> exists m, method_arg = VString m /\ m <> "".
Proof.
  unfold invalid_method.
  destruct method_arg as [| |b|n|m| | | |]; simpl;
    try (rewrite orb_true_r; discriminate); try discriminate.
  intros H. exists m. split; [done|]. intros ->. discriminate.
Qed.


(** The exchange answered: only the promises of its batch change. *)
Lemma complete_frame x o w :
  let w' := snd (complete x o w) in
  this w' = this w /\ exchanges w' = exchanges w /\ answered w' = answered w
  /\ next_promise w' = next_promise w
  /\ forall q, q ∉ deferred <$> batch x -> promises w' !! q = promises w !! q.
Proof.
  apply (preserves_complete
           (fun w' => this w' = this w /\ exchanges w' = exchanges w
                      /\ answered w' = answered w /\ next_promise w' = next_promise w
                      /\ forall q, q ∉ deferred <$> batch x ->
                                   promises w' !! q = promises w !! q)
           (batch x)).
  - by intros e w0 (Ht & Hx & Ha & Hn & Hp).
  - intros call st Hin w0 (Ht & Hx & Ha & Hn & Hp).
    repeat (split; [done|]).
    intros q Hq. rewrite settle_other; [by apply Hp|].
    intros ->. by apply Hq, list_elem_of_fmap_2.
  - done.
  - done.
Qed.





End PromiseSteps.

(** ** Answered exchanges of a constructed client *)

Section Answers.
Context {host : Host}.

Lemma new_TaggedApi_queue endpoint options encoded api :
  new_TaggedApi endpoint options encoded = Ret api -> _queue api = [].
Proof.
  unfold new_TaggedApi.
  destruct (mergeRecursive _ _) as [merged|]; simpl; [|done].
  destruct (get_prop options "cookies") as [c|]; simpl; [|done].
  destruct (if truthy c then _ else _); simpl; [|done].
  by intros [= <-].
Qed.



Lemma reachable_by_any allowed w0 w : reachable_by allowed w0 w -> reachable w0 w.
Proof. by apply reachable_by_sub. Qed.




End Answers.

(** * Further properties of the client *)

(** ** The encoder keeps its separators apart *)

Lemma occurrences_app c s t :
  occurrences c (s ++ t) = (occurrences c s + occurrences c t)%nat.
Proof.
  induction s as [|a s IH]; [done|].
  change (String a s ++ t) with (String a (s ++ t)). simpl. rewrite IH. lia.
Qed.

Lemma all_units_app P s t : all_units P (s ++ t) = all_units P s && all_units P t.
Proof.
  induction s as [|a s IH]; [done|].
  change (String a s ++ t) with (String a (s ++ t)). simpl. rewrite IH.
  by rewrite andb_assoc.
Qed.

Lemma occurrences_all_units P c s :
  all_units P s = true -> P c = false -> occurrences c s = 0%nat.
Proof.
  intros Hs Hc. induction s as [|a s IH]; [done|].
  simpl in *. apply andb_true_iff in Hs as [Ha Hs]. rewrite (IH Hs).
  destruct (Ascii.eqb_spec a c) as [->|_]; [congruence|done].
Qed.

Lemma encode_unit_safe a : all_units wire_safe (encode_unit a) = true.
Proof. destruct a as [[] [] [] [] [] [] [] []]; vm_compute; reflexivity. Qed.

Lemma encode_string_cons a s :
  encode_string (String a s) = encode_unit a ++ encode_string s.
Proof. reflexivity. Qed.

Lemma encode_string_safe s : all_units wire_safe (encode_string s) = true.
Proof.
  induction s as [|a s IH]; [done|].
  by rewrite encode_string_cons, all_units_app, encode_unit_safe, IH.
Qed.

Lemma occurrences_encode_string c s :
  wire_safe c = false -> occurrences c (encode_string s) = 0%nat.
Proof. apply occurrences_all_units, encode_string_safe. Qed.

Lemma decode_first_encode_unit a s : decode_first (encode_unit a ++ s) = Some (a, s).
Proof. destruct a as [[] [] [] [] [] [] [] []]; reflexivity. Qed.

Lemma encode_string_inj s t : encode_string s = encode_string t -> s = t.
Proof.
  revert t. induction s as [|a s IH]; intros [|b t] H.
  - done.
  - apply (f_equal decode_first) in H.
    rewrite encode_string_cons, decode_first_encode_unit in H. done.
  - apply (f_equal decode_first) in H.
    rewrite encode_string_cons, decode_first_encode_unit in H. done.
  - apply (f_equal decode_first) in H.
    rewrite !encode_string_cons, !decode_first_encode_unit in H.
    injection H as -> H. by rewrite (IH t H).
Qed.

(** Two texts cut at the first [c] agree on both sides of the cut. *)
Lemma cut_at_first c s1 t1 s2 t2 :
  occurrences c s1 = 0%nat -> occurrences c s2 = 0%nat ->
  s1 ++ String c t1 = s2 ++ String c t2 -> s1 = s2 /\ t1 = t2.
Proof.
  revert s2. induction s1 as [|a s1 IH]; intros [|b s2] H1 H2 H.
  - by injection H.
  - change (String c t1 = String b (s2 ++ String c t2)) in H. injection H as <- _.
    simpl in H2. rewrite Ascii.eqb_refl in H2. lia.
  - change (String a (s1 ++ String c t1) = String c t2) in H. injection H as -> _.
    simpl in H1. rewrite Ascii.eqb_refl in H1. lia.
  - change (String a (s1 ++ String c t1) = String b (s2 ++ String c t2)) in H.
    injection H as -> H. simpl in H1, H2.
    destruct (IH s2) as [-> ->]; [lia|lia|done|done].
Qed.

Lemma parameterizePrimitive_eq key v :
  parameterizePrimitive key v
  = let! s := ToString v in Ret (encode_string key ++ "=" ++ encode_string s).
Proof.
  unfold parameterizePrimitive. rewrite encodeURIComponent_string. simpl.
  unfold encodeURIComponent. by destruct (ToString v).
Qed.

(** X1. Distinct keys or distinct value texts give distinct pairs: when
    [parameterizePrimitive] writes the same pair for two parameters, their
    keys are equal and so are the texts of their values. *)
Theorem parameterizePrimitive_injective key v key' v' pair :
  parameterizePrimitive key v = Ret pair ->
  parameterizePrimitive key' v' = Ret pair ->
  key = key' /\ ToString v = ToString v'.
Proof.
  rewrite !parameterizePrimitive_eq.
  destruct (ToString v) as [s|]; simpl; [|done].
  destruct (ToString v') as [s'|]; simpl; [|done].
  intros [= <-] [= H].
  change (encode_string key' ++ String "=" (encode_string s')
          = encode_string key ++ String "=" (encode_string s)) in H.
  apply cut_at_first in H as [Hk Hv]; try by apply occurrences_encode_string.
  apply encode_string_inj in Hk as ->. by apply encode_string_inj in Hv as ->.
Qed.

Lemma Ret_inj {A : Type} (a b : A) : Ret a = Ret b -> a = b.
Proof. by intros [= ->]. Qed.

Lemma join_cons sep p q parts :
  join sep (p :: q :: parts) = p ++ sep ++ join sep (q :: parts).
Proof. reflexivity. Qed.

Lemma occurrences_join c sep parts :
  occurrences c (join sep parts)
  = (sum_list (occurrences c <$> parts) + pred (length parts) * occurrences c sep)%nat.
Proof.
  induction parts as [|p [|q parts] IH]; [done|simpl; lia|].
  rewrite join_cons, !occurrences_app, IH. simpl. lia.
Qed.

Lemma all_units_join P sep parts :
  all_units P sep = true -> Forall (fun p => all_units P p = true) parts ->
  all_units P (join sep parts) = true.
Proof.
  intros Hsep. induction 1 as [|p parts Hp Hparts IH]; [done|].
  destruct parts as [|q parts]; [done|].
  by rewrite join_cons, !all_units_app, Hp, Hsep, IH.
Qed.

Lemma all_units_weaken (P Q : ascii -> bool) s :
  (forall a, P a = true -> Q a = true) -> all_units P s = true -> all_units Q s = true.
Proof.
  intros HPQ. induction s as [|a s IH]; [done|]. simpl.
  intros [Ha Hs]%andb_true_iff. by rewrite (HPQ a Ha), IH.
Qed.

Lemma encode_string_line s : all_units line_unit (encode_string s) = true.
Proof.
  apply (all_units_weaken wire_safe); [|apply encode_string_safe].
  intros a Ha. unfold line_unit. by rewrite Ha.
Qed.

Lemma traverse_Forall {A B : Type} (f : A -> result B) (Q : B -> Prop) l ys :
  (forall x y, x ∈ l -> f x = Ret y -> Q y) -> traverse f l = Ret ys -> Forall Q ys.
Proof.
  revert ys. induction l as [|x l IH]; intros ys Hf; simpl.
  - intros [= <-]. constructor.
  - destruct (f x) as [y|] eqn:Hy; simpl; [|done].
    destruct (traverse f l) as [ys'|] eqn:Hl; simpl; [|done].
    intros [= <-]. constructor.
    + apply (Hf x); [apply list_elem_of_here|done].
    + apply IH; [|done]. intros x' y' Hin. apply Hf. by apply list_elem_of_further.
Qed.

Lemma sum_list_const {A : Type} (f : A -> nat) n l :
  Forall (fun x => f x = n) l -> sum_list (f <$> l) = (length l * n)%nat.
Proof. induction 1 as [|x l Hx _ IH]; [done|]. csimpl. rewrite Hx, IH. lia. Qed.

Lemma traverse_length {A B : Type} (f : A -> result B) l ys :
  traverse f l = Ret ys -> length ys = length l.
Proof.
  revert ys. induction l as [|x l IH]; intros ys; simpl.
  - by intros [= <-].
  - destruct (f x) as [y|]; simpl; [|done].
    destruct (traverse f l) as [ys'|]; simpl; [|done].
    intros [= <-]. simpl. by rewrite (IH ys').
Qed.

Lemma encodeURIComponent_line v text :
  encodeURIComponent v = Ret text -> all_units line_unit text = true.
Proof.
  unfold encodeURIComponent. destruct (ToString v) as [s|]; simpl; [|done].
  intros [= <-]. apply encode_string_line.
Qed.

Lemma parameterizePrimitive_line key v pair :
  parameterizePrimitive key v = Ret pair -> all_units line_unit pair = true.
Proof.
  rewrite parameterizePrimitive_eq. destruct (ToString v) as [s|]; simpl; [|done].
  intros [= <-]. by rewrite !all_units_app, !encode_string_line.
Qed.

Lemma for_in_invariant {A S : Type} (I : S -> Prop) (body : S -> A -> result S) l s s' :
  (forall s x s', I s -> body s x = Ret s' -> I s') ->
  I s -> for_in body l s = Ret s' -> I s'.
Proof.
  intros Hbody. revert s. induction l as [|x l IH]; intros s Hs; simpl.
  - by intros [= <-].
  - destruct (body s x) as [s1|] eqn:H1; simpl; [|done]. apply IH. by apply (Hbody s x).
Qed.

Lemma Forall_push {A : Type} (Q : A -> Prop) l x : Forall Q l -> Q x -> Forall Q (push l x).
Proof. intros Hl Hx. apply Forall_app. split; [done|]. by constructor. Qed.

Lemma parameterizeObject_line key v text :
  parameterizeObject key v = Ret text -> all_units line_unit text = true.
Proof.
  unfold parameterizeObject.
  set (Q := fun p : string => all_units line_unit p = true).
  assert (Harr : forall elems pieces,
             for_in (fun params e =>
                       let! k := encodeURIComponent (VString key) in
                       let! x := encodeURIComponent e in
                       Ret (push params (k ++ "[]=" ++ x))) elems [] = Ret pieces ->
             Forall Q pieces).
  { intros elems pieces. apply (for_in_invariant (Forall Q)); [|constructor].
    intros acc e acc' Hacc. rewrite encodeURIComponent_string. simpl.
    destruct (encodeURIComponent e) as [x|] eqn:Hx; simpl; [|done]. intros [= <-].
    apply Forall_push; [done|]. unfold Q.
    by rewrite !all_units_app, encode_string_line, (encodeURIComponent_line _ _ Hx). }
  assert (Hobj : forall items pieces,
             for_in (fun params '(subkey, x) =>
                       let! k := encodeURIComponent (VString key) in
                       let! sk := encodeURIComponent (VString subkey) in
                       let! e := encodeURIComponent x in
                       Ret (push params (k ++ "[" ++ sk ++ "]=" ++ e))) items [] = Ret pieces ->
             Forall Q pieces).
  { intros items pieces. apply (for_in_invariant (Forall Q)); [|constructor].
    intros acc [subkey x] acc' Hacc. rewrite !encodeURIComponent_string. simpl.
    destruct (encodeURIComponent x) as [t|] eqn:Hx; simpl; [|done]. intros [= <-].
    apply Forall_push; [done|]. unfold Q.
    by rewrite !all_units_app, !encode_string_line, (encodeURIComponent_line _ _ Hx). }
  assert (Hjoin : forall r : result (list string),
             (forall pieces, r = Ret pieces -> Forall Q pieces) ->
             (let! params := r in Ret (join "&" params)) = Ret text ->
             all_units line_unit text = true).
  { intros [pieces|] Hr; cbn [bind]; [|done]. intros <-%Ret_inj.
    apply all_units_join; [done|]. by apply Hr. }
  destruct v; apply Hjoin; first [apply Harr | apply Hobj].
Qed.

Lemma parameterize_line key v pair :
  parameterize key v = Ret pair -> all_units line_unit pair = true.
Proof.
  unfold parameterize.
  destruct v; simpl;
    first [apply parameterizePrimitive_line | apply parameterizeObject_line | done].
Qed.

Lemma stringifyCall_line call line :
  stringifyCall call = Ret line -> all_units line_unit line = true.
Proof.
  rewrite stringifyCall_wire_line. unfold wire_line.
  destruct (encoded_pairs call) as [pairs|] eqn:Hpairs; cbn [bind]; [|done]. intros <-%Ret_inj.
  apply all_units_join; [done|]. constructor.
  - by rewrite all_units_app, encode_string_line.
  - apply (traverse_Forall _ _ _ _ (fun kv y _ H => parameterize_line _ _ _ H) Hpairs).
Qed.

(** X2. The body of a batch has one line per call: however the methods and
    the parameters are written, the body that [stringifyQueue] returns holds
    one newline more than the queue has calls (two for an empty queue), so
    no call can add a line to the batch. *)
Theorem body_newlines queue text :
  stringifyQueue queue = Ret text ->
  occurrences newline_unit text = S (Nat.max 1 (length queue)).
Proof.
  rewrite stringifyQueue_body. unfold wire_body.
  destruct (traverse wire_line queue) as [lines|] eqn:Hlines; cbn [bind]; [|done].
  intros <-%Ret_inj. rewrite !occurrences_app, occurrences_join.
  assert (Hfree : Forall (fun l => occurrences newline_unit l = 0%nat) lines).
  { apply (traverse_Forall wire_line _ queue lines); [|done]. intros call l _ H.
    rewrite <- stringifyCall_wire_line in H.
    apply (occurrences_all_units line_unit); [by apply (stringifyCall_line call)|done]. }
  rewrite (sum_list_const _ 0%nat _ Hfree).
  rewrite (traverse_length _ _ _ Hlines).
  change (occurrences newline_unit newline) with 1%nat.
  destruct queue; simpl; lia.
Qed.

(** The pair of a parameter that is written as one pair. *)
Lemma parameterize_primitive key v pair :
  primitive v = true -> is_null v = false -> parameterize key v = Ret pair ->
  occurrences "&" pair = 0%nat /\ occurrences "=" pair = 1%nat.
Proof.
  intros Hprim Hnull.
  assert (Hpair : forall x, parameterizePrimitive key x = Ret pair ->
                            occurrences "&" pair = 0%nat /\ occurrences "=" pair = 1%nat).
  { intros x. rewrite parameterizePrimitive_eq.
    destruct (ToString x) as [s|]; simpl; [|done]. intros [= <-].
    rewrite !occurrences_app, !occurrences_encode_string by done. done. }
  unfold parameterize. destruct v; try done; simpl; apply Hpair.
Qed.

(** X3. A call whose parameters are all primitive is written as one pair
    per parameter that is not [null], whatever the keys and the values
    hold: its line has one [&] per such parameter and one [=] more, the
    one of the method. *)
Theorem flat_line_separators call line :
  (forall k v, (k, v) ∈ own_enumerable (params call) -> primitive v = true) ->
  stringifyCall call = Ret line ->
  occurrences "&" line = length (sent_params call)
  /\ occurrences "=" line = S (length (sent_params call)).
Proof.
  intros Hflat. rewrite stringifyCall_wire_line. unfold wire_line.
  destruct (encoded_pairs call) as [pairs|] eqn:Hpairs; cbn [bind]; [|done]. intros <-%Ret_inj.
  rewrite !occurrences_join. csimpl.
  rewrite !occurrences_app, !occurrences_encode_string by done. csimpl.
  unfold encoded_pairs in Hpairs. rewrite (traverse_length _ _ _ Hpairs).
  assert (Hall : Forall (fun p => occurrences "&" p = 0%nat /\ occurrences "=" p = 1%nat)
                        pairs).
  { apply (traverse_Forall (fun kv : string * value => parameterize kv.1 kv.2) _
             (sent_params call) pairs); [|exact Hpairs].
    intros [k v] y Hin H. unfold sent_params in Hin.
    apply list_elem_of_filter in Hin as [Hnull Hin]. simpl in *.
    by apply (parameterize_primitive k v); [apply (Hflat k)| |]. }
  rewrite (sum_list_const (occurrences "&") 0%nat pairs),
          (sum_list_const (occurrences "=") 1%nat pairs);
    [|by eapply Forall_impl; [exact Hall|intros p []]
     |by eapply Forall_impl; [exact Hall|intros p []]].
  rewrite (traverse_length _ _ _ Hpairs). lia.
Qed.

(** ** mergeRecursive, key by key *)

Lemma merge_property_value props p v2 :
  merge_property (fun cur => mergeRecursive cur v2) (VObject props) p v2
  = Ret (VObject (obj_set p (merged_value (default VUndefined (lookup_prop p props)) v2)
                    props)).
Proof.
  unfold merge_property, merged_value.
  destruct (constructor_is_Object v2) as [[|]|e]; simpl; [|done|done].
  by destruct (mergeRecursive _ v2).
Qed.

Lemma merge_loop_values items props :
  NoDup items.*1 ->
  exists props',
    for_in (fun obj1 '(p, v2) => merge_property (fun cur => mergeRecursive cur v2) obj1 p v2)
           items (VObject props) = Ret (VObject props')
    /\ (forall k v, (k, v) ∈ items ->
          lookup_prop k props'
          = Some (merged_value (default VUndefined (lookup_prop k props)) v))
    /\ (forall k, k ∉ items.*1 -> lookup_prop k props' = lookup_prop k props).
Proof.
  revert props. induction items as [|[p v2] items IH]; intros props Hnd.
  - exists props. split; [done|]. split; [|done]. by intros k v Hin%elem_of_nil.
  - apply NoDup_cons in Hnd as [Hp Hnd]. rewrite for_in_cons, merge_property_value.
    cbn [bind].
    destruct (IH (obj_set p (merged_value (default VUndefined (lookup_prop p props)) v2)
                    props) Hnd) as (props' & -> & Hvalues & Hframe).
    exists props'. split; [done|]. split.
    + intros k v [[= -> ->]|Hin]%elem_of_cons.
      * rewrite Hframe by done. apply lookup_obj_set_eq.
      * rewrite (Hvalues k v Hin). rewrite lookup_obj_set_ne; [done|].
        intros ->. apply Hp. by apply (list_elem_of_fmap_2 fst _ (p, v)).
    + intros k Hk. apply not_elem_of_cons in Hk as [Hne Hk].
      rewrite Hframe by done. by apply lookup_obj_set_ne.
Qed.

(** X4. Merging an ordinary value into an object that holds mappings and
    primitives only returns an object and never throws. With the keys of
    [obj2] distinct, each key of [obj2] ends up holding [obj2]'s value when
    that is not a plain object, and for a plain object the merge of it into
    what the target held under the key (or the object itself when that
    inner merge throws); every other key of the target keeps its value. *)
Theorem mergeRecursive_by_key props obj2 :
  ordinary obj2 = true ->
  mappings_only (VObject props) = true ->
  NoDup (own_enumerable obj2).*1 ->
  exists props',
    mergeRecursive (VObject props) obj2 = Ret (VObject props')
    /\ (forall k v, (k, v) ∈ own_enumerable obj2 ->
          lookup_prop k props'
          = Some (merged_value (default VUndefined (lookup_prop k props)) v))
    /\ (forall k, k ∉ (own_enumerable obj2).*1 -> lookup_prop k props' = lookup_prop k props).
Proof. intros _ _. rewrite mergeRecursive_for_in. apply merge_loop_values. Qed.

Lemma merge_property_refused recurse target p v2 :
  refuses_properties target = true ->
  exists e, merge_property recurse target p v2 = Throw e.
Proof.
  intros Ht. unfold merge_property.
  assert (Hset : forall v, exists e, set_prop target p v = Throw e).
  { intros v. destruct target; try done; simpl; eauto. }
  destruct (Hset v2) as [e2 He2].
  destruct (constructor_is_Object v2) as [[|]|e]; simpl; rewrite ?He2; simpl; eauto.
  destruct (get_prop target p) as [cur|e]; simpl; [|eauto].
  destruct (recurse cur) as [merged|e]; simpl; [|eauto].
  destruct (Hset merged) as [e ->]. simpl. eauto.
Qed.

(** X5. A target that is [undefined], [null] or a primitive takes no
    properties: merging an ordinary value into it returns it unchanged when
    [obj2] has no property to copy, and throws as soon as [obj2] has one. *)
Theorem mergeRecursive_refused target obj2 :
  ordinary obj2 = true ->
  refuses_properties target = true ->
  (own_enumerable obj2 = [] -> mergeRecursive target obj2 = Ret target)
  /\ (own_enumerable obj2 <> [] -> exists e, mergeRecursive target obj2 = Throw e).
Proof.
  intros _ Ht. rewrite mergeRecursive_for_in. split.
  - by intros ->.
  - destruct (own_enumerable obj2) as [|[p v2] items]; [done|]. intros _.
    rewrite for_in_cons.
    destruct (merge_property_refused (fun cur => mergeRecursive cur v2) target p v2 Ht)
      as [e ->].
    by exists e.
Qed.

(** ** The cache of execute *)

Section CacheHits.
Context {host : Host}.

Lemma call_through_returns m params_arg config env w :
  fst (call_through m params_arg config env w) = Ret (ReturnedPromise (next_promise w)).
Proof. unfold call_through. by destruct (enqueue _ _ _ _ _). Qed.

Lemma swept_cache_lookup env w key entry :
  swept_cache env w !! key = Some entry -> _cache (this w) !! key = Some entry.
Proof.
  unfold swept_cache, sweep. destruct (random_gt_099 _); [|done].
  by intros [? _]%map_lookup_filter_Some.
Qed.

(** X6. A cache entry that [execute] hands back is one that was stored
    under the key of this method and these params, was asked for by the
    cache directive and has not expired; handing it back makes no promise,
    queues nothing, posts nothing and schedules nothing. *)
Theorem cache_hit_sound method_arg params_arg config env w entry w' :
  execute method_arg params_arg config env w = (Ret (ReturnedCacheEntry entry), w') ->
  exists m,
    method_arg = VString m
    /\ cache_requested config = true
    /\ _cache (this w) !! cache_key m params_arg = Some entry
    /\ expires_gt (expires entry) (now_lookup env) = true
    /\ _queue (this w') = _queue (this w)
    /\ promises w' = promises w /\ next_promise w' = next_promise w
    /\ exchanges w' = exchanges w /\ timers w' = timers w.
Proof.
  destruct (invalid_method method_arg) eqn:Hm.
  { by rewrite execute_invalid_method. }
  apply invalid_method_false in Hm as (m & -> & Hm).
  rewrite execute_valid by done. cbv zeta. intros H. exists m. split; [done|].
  destruct (cache_requested config) eqn:Hc.
  - destruct (swept_cache env w !! cache_key m params_arg) as [cached|] eqn:Hl.
    + destruct (expires_gt (expires cached) (now_lookup env)) eqn:Hlive.
      * injection H as <- <-. split; [done|].
        split; [by apply (swept_cache_lookup env)|]. by rewrite Hlive.
      * apply (f_equal fst) in H. by rewrite call_through_returns in H.
    + apply (f_equal fst) in H. by rewrite call_through_returns in H.
  - apply (f_equal fst) in H. by rewrite call_through_returns in H.
Qed.

(** X7. A call that [execute] let through with a cache directive is
    answered from the cache when it is made again before its entry
    expires: the second call gets the entry that holds the promise of the
    first, and makes no promise, queues nothing and posts nothing. *)
Theorem cached_call_is_shared m params_arg config env1 env2 w p w1 :
  m <> "" ->
  cache_requested config = true ->
  execute (VString m) params_arg config env1 w = (Ret (ReturnedPromise p), w1) ->
  expires_gt (expiry_for config (now_store env1)) (now_lookup env2) = true ->
  (random_gt_099 (randomNum env2) = true ->
   expires_lt (expiry_for config (now_store env1)) (now_sweep env2) = false) ->
  exists w2,
    execute (VString m) params_arg config env2 w1
    = (Ret (ReturnedCacheEntry
              {| expires := expiry_for config (now_store env1); promise := p |}), w2)
    /\ _queue (this w2) = _queue (this w1)
    /\ promises w2 = promises w1
    /\ exchanges w2 = exchanges w1.
Proof.
  intros Hm Hc H1 Hlive Hkept.
  assert (Hstored : _cache (this w1) !! cache_key m params_arg
                    = Some {| expires := expiry_for config (now_store env1);
                              promise := p |}).
  { rewrite execute_valid in H1 by done. cbv zeta in H1. rewrite Hc in H1.
    assert (Hthrough : forall w0,
               call_through m params_arg config env1 w0 = (Ret (ReturnedPromise p), w1) ->
               _cache (this w1) !! cache_key m params_arg
               = Some {| expires := expiry_for config (now_store env1); promise := p |}).
    { intros w0 H0. pose proof (call_through_caches m params_arg config env1 w0 Hc) as Hk.
      pose proof (call_through_returns m params_arg config env1 w0) as Hr.
      rewrite H0 in Hk, Hr. simpl in Hk, Hr. injection Hr as ->. exact Hk. }
    destruct (swept_cache env1 w !! cache_key m params_arg) as [cached|].
    - destruct (expires_gt (expires cached) (now_lookup env1)); [done|].
      by apply (Hthrough _ H1).
    - by apply (Hthrough _ H1). }
  assert (Hswept : swept_cache env2 w1 !! cache_key m params_arg
                   = Some {| expires := expiry_for config (now_store env1);
                             promise := p |}).
  { unfold swept_cache. destruct (random_gt_099 _); [|done].
    apply sweep_lookup; [done|]. by apply Hkept. }
  rewrite execute_valid by done. cbv zeta. rewrite Hc, Hswept. cbn [expires].
  rewrite Hlive. by eexists.
Qed.

End CacheHits.

(** ** What execute throws, and what it turns into a rejection *)

Section ExecuteErrors.
Context {host : Host}.

(** X8. The one exception that [execute] lets reach its caller is the
    method error, thrown before anything is changed: whatever goes wrong
    later happens inside the executor of the promise. With a cache
    directive this is for params that [JSON.stringify] takes (line 119):
    ordinary ones, which have no [toJSON], and, as every [value], no cycle
    and no BigInt. *)
Theorem execute_throws_only_method_error method_arg params_arg config env w e w' :
  (cache_requested config = true -> ordinary params_arg = true) ->
  execute method_arg params_arg config env w = (Throw e, w') ->
  invalid_method method_arg = true
  /\ e = Error "Method is required to execute API calls"
  /\ w' = w.
Proof.
  intros _.
  destruct (invalid_method method_arg) eqn:Hm.
  { rewrite execute_invalid_method by done. by intros [= <- <-]. }
  apply invalid_method_false in Hm as (m & -> & Hm).
  rewrite execute_valid by done. cbv zeta. intros H. apply (f_equal fst) in H.
  destruct (if cache_requested config then _ else _) as [cached|].
  - destruct (expires_gt _ _); [done|]. by rewrite call_through_returns in H.
  - by rewrite call_through_returns in H.
Qed.

Lemma call_through_failed_flush m params_arg config env w ps n k v :
  _options (this w) = VObject ps ->
  NoDup (own_enumerable params_arg).*1 ->
  (k, v) ∈ own_enumerable params_arg ->
  unencodable v = true ->
  _maxQueueSize (this w) = Some n -> n <> 0 ->
  n <= Z.of_nat (length (_queue (this w))) + 1 ->
  let w' := snd (call_through m params_arg config env w) in
  (exists e, promises w' !! next_promise w = Some (Rejected e))
  /\ (exists call, _queue (this w') = (_queue (this w) ++ [call])%list
                   /\ method call = m /\ deferred call = next_promise w)
  /\ exchanges w' = exchanges w /\ timers w' = timers w.
Proof.
  intros Hopt Hnd Hin Hv Hmax Hn Hlen. unfold call_through.
  destruct (enqueue_eq (with_new_promise w) m params_arg env (next_promise w) ps Hopt)
    as (base & merged & Hbase & Hmerged & ->).
  rewrite (own_enumerable_truthy k v params_arg Hin) in Hmerged.
  assert (Hk : (k, v) ∈ merged).
  { apply lookup_prop_elem. apply (mergeRecursive_copies params_arg base); try done.
    by destruct v. }
  set (call := {| method := m; params := VObject merged; deferred := next_promise w;
                  timeStart := hrtime env |}).
  set (w1 := snd (queue_call call (with_new_promise w))).
  assert (Hq : call ∈ _queue (this w1)).
  { simpl. unfold push. apply elem_of_app. right. apply list_elem_of_here. }
  assert (Hlimit : limit_reached (this w1) = true).
  { unfold limit_reached. simpl. rewrite Hmax. unfold push. rewrite length_app. simpl.
    apply andb_true_iff. split; [by apply negb_true_iff, Z.eqb_neq|].
    apply Z.leb_le. lia. }
  cbv zeta. rewrite Hlimit.
  destruct (_postToApi_unencodable w1 call k v Hq Hk Hv) as [e ->].
  assert (Hp : promises (snd (settle (next_promise w) (Rejected e) w1)) !! next_promise w
               = Some (Rejected e)).
  { apply settle_pending. simpl. apply lookup_insert_eq. }
  split; [exists e; by destruct (cache_requested config)|].
  split; [exists call; by destruct (cache_requested config)|].
  by destruct (cache_requested config).
Qed.

(** X9. With a size limit that the new call reaches, the flush runs inside
    the executor of the promise. In a state with ordinary options and
    queued params, when the call has ordinary params that hold a value of an
    unencodable kind, the error of that flush does not reach the caller of
    [execute]: the promise it gets is rejected, nothing is posted, and the
    call stays at the end of the queue. *)
Theorem failed_flush_rejects_promise m params_arg config env w ps n k v p w' :
  m <> "" ->
  ordinary_state w ->
  ordinary params_arg = true ->
  _options (this w) = VObject ps ->
  NoDup (own_enumerable params_arg).*1 ->
  (k, v) ∈ own_enumerable params_arg ->
  unencodable v = true ->
  _maxQueueSize (this w) = Some n -> n <> 0 ->
  n <= Z.of_nat (length (_queue (this w))) + 1 ->
  execute (VString m) params_arg config env w = (Ret (ReturnedPromise p), w') ->
  p = next_promise w
  /\ (exists e, promises w' !! p = Some (Rejected e))
  /\ (exists call, _queue (this w') = (_queue (this w) ++ [call])%list
                   /\ method call = m /\ deferred call = p)
  /\ exchanges w' = exchanges w /\ timers w' = timers w.
Proof.
  intros Hm _ _ Hopt Hnd Hin Hv Hmax Hn Hlen. rewrite execute_valid by done. cbv zeta.
  assert (Hthrough : forall c,
             call_through m params_arg config env (with_cache c w)
             = (Ret (ReturnedPromise p), w') ->
             p = next_promise w
             /\ (exists e, promises w' !! p = Some (Rejected e))
             /\ (exists call, _queue (this w') = (_queue (this w) ++ [call])%list
                              /\ method call = m /\ deferred call = p)
             /\ exchanges w' = exchanges w /\ timers w' = timers w).
  { intros c H.
    pose proof (call_through_returns m params_arg config env (with_cache c w)) as Hr.
    pose proof (call_through_failed_flush m params_arg config env (with_cache c w)
                  ps n k v Hopt Hnd Hin Hv Hmax Hn Hlen) as Hf.
    rewrite H in Hr, Hf. simpl in Hr. injection Hr as ->.
    split; [done|]. exact Hf. }
  destruct (if cache_requested config then _ else _) as [cached|].
  - destruct (expires_gt _ _); [done|]. apply Hthrough.
  - apply Hthrough.
Qed.

End ExecuteErrors.

(** ** What an action does to the calls and the promises *)

Section Effects.
Context {host : Host}.

Lemma effect_quiet w w' :
  sent_then_queued w' = sent_then_queued w ->
  promises w' = promises w ->
  next_promise w' = next_promise w ->
  effect w w'.
Proof.
  intros Hc Hp Hn. unfold effect. rewrite Hp, Hn. split; [done|]. split; [by left|].
  split; [by left|by left].
Qed.

Lemma sent_push w x :
  mjoin (batch <$> push (exchanges w) x) = (sent w ++ batch x)%list.
Proof. unfold push, sent. rewrite fmap_app, join_app. simpl. by rewrite app_nil_r. Qed.

Lemma _postToApi_calls w :
  let w' := snd (_postToApi w) in
  sent_then_queued w' = sent_then_queued w
  /\ promises w' = promises w /\ next_promise w' = next_promise w.
Proof.
  rewrite _postToApi_eq. destruct (build_request (this w)) as [req|e]; [|done].
  rewrite resetQueue_eq. unfold sent_then_queued, sent. simpl.
  by rewrite sent_push, app_nil_r.
Qed.

Lemma enqueue_calls m params_arg env p w :
  let w' := snd (enqueue m params_arg env p w) in
  (sent_then_queued w' = sent_then_queued w
   \/ exists call, sent_then_queued w' = (sent_then_queued w ++ [call])%list
                    /\ deferred call = p)
  /\ promises w' = promises w /\ next_promise w' = next_promise w.
Proof.
  destruct (enqueue_cases m params_arg env p w) as [[e ->]|[merged ->]].
  - simpl. split; [by left|done].
  - set (call := {| method := m; params := merged; deferred := p;
                    timeStart := hrtime env |}).
    set (w1 := snd (queue_call call w)).
    assert (H1 : sent_then_queued w1 = (sent_then_queued w ++ [call])%list).
    { unfold sent_then_queued, sent. simpl. unfold push. by rewrite app_assoc. }
    cbv zeta.
    destruct (limit_reached (this w1)).
    + destruct (_postToApi_calls w1) as (Hc & Hp & Hn). rewrite Hc, Hp, Hn, H1.
      split; [right; by exists call|done].
    + destruct (_batchTimeout (this w1)); simpl; (split; [right; by exists call|done]).
Qed.

Lemma call_through_effect m params_arg config env w :
  effect w (snd (call_through m params_arg config env w)).
Proof.
  unfold call_through.
  pose proof (enqueue_calls m params_arg env (next_promise w) (with_new_promise w)) as He.
  destruct (enqueue m params_arg env (next_promise w) (with_new_promise w)) as [r w1].
  simpl in He. destruct He as (Hcalls & Hp & Hn).
  set (w2 := match r with
             | Ret _ => w1
             | Throw e => snd (settle (next_promise w) (Rejected e) w1)
             end).
  assert (H2 : sent_then_queued w2 = sent_then_queued w1
               /\ next_promise w2 = S (next_promise w)
               /\ (forall q, q <> next_promise w -> promises w2 !! q = promises w !! q)).
  { unfold w2. destruct r as [[]|e].
    - split; [done|]. split; [done|]. intros q Hq. rewrite Hp. simpl.
      by rewrite lookup_insert_ne.
    - split; [done|]. split; [done|]. intros q Hq. rewrite settle_other by done.
      rewrite Hp. simpl. by rewrite lookup_insert_ne. }
  destruct H2 as (Hc2 & Hn2 & Hp2).
  assert (Hw : effect w w2).
  { unfold effect. rewrite Hn2, Hc2. split; [lia|]. split.
    - destruct Hcalls as [->|(call & -> & Hid)]; [by left|].
      right. left. exists call. split; [done|]. split; [done|lia].
    - split.
      + intros q Hq. left. apply Hp2. lia.
      + intros q Hq. destruct (decide (q = next_promise w)) as [->|Hne].
        * right. split; [done|lia].
        * left. by rewrite <- Hp2. }
  by destruct (cache_requested config).
Qed.

Lemma execute_effect method_arg params_arg config env w :
  effect w (snd (execute method_arg params_arg config env w)).
Proof.
  destruct (invalid_method method_arg) eqn:Hm.
  { rewrite execute_invalid_method by done. by apply effect_quiet. }
  apply invalid_method_false in Hm as (m & -> & Hm).
  rewrite execute_valid by done. cbv zeta.
  destruct (if cache_requested config then _ else _) as [cached|].
  - destruct (expires_gt _ _); [by apply effect_quiet|].
    apply (call_through_effect m params_arg config env (with_cache _ w)).
  - apply (call_through_effect m params_arg config env (with_cache _ w)).
Qed.

Lemma complete_keeps x o w q :
  promises w !! q <> Some Pending ->
  promises (snd (complete x o w)) !! q = promises w !! q.
Proof.
  intros Hq.
  apply (preserves_complete (fun w' => promises w' !! q = promises w !! q) (batch x));
    [by intros e w0 H0| |done|done].
  intros call st _ w0 H0. rewrite settle_promises.
  destruct (promises w0 !! deferred call) as [[| |]|] eqn:Hc; try done.
  destruct (decide (q = deferred call)) as [->|Hne]; [congruence|].
  by rewrite lookup_insert_ne.
Qed.

Lemma elem_of_sent w x c : x ∈ exchanges w -> c ∈ batch x -> c ∈ sent w.
Proof.
  intros Hx Hc. apply list_elem_of_join. exists (batch x). split; [done|].
  by apply list_elem_of_fmap_2.
Qed.

Lemma answer_effect i x o w :
  exchanges w !! i = Some x -> effect w (snd (complete x o (mark_answered i w))).
Proof.
  intros Hx.
  destruct (complete_frame x o (mark_answered i w)) as (Ht & He & _ & Hn & Hp).
  unfold effect, sent_then_queued, sent. rewrite Ht, He, Hn. simpl.
  split; [done|]. split; [by left|]. split.
  - intros q _.
    assert (Hcases : promises w !! q = Some Pending \/ promises w !! q <> Some Pending).
    { destruct (promises w !! q) as [[| |]|]; by eauto. }
    destruct Hcases as [Hpend|Hpend].
    + destruct (decide (q ∈ deferred <$> batch x)) as [Hin|Hout].
      * right. split; [done|]. apply list_elem_of_fmap in Hin as (c & -> & Hc).
        apply list_elem_of_fmap_2. apply (elem_of_sent w x); [|done].
        by apply list_elem_of_lookup_2 in Hx.
      * left. by apply Hp.
    + left. by apply (complete_keeps x o (mark_answered i w)).
  - intros q Hq. left.
    assert (Hcases : promises w !! q = Some Pending \/ promises w !! q <> Some Pending).
    { destruct (promises w !! q) as [[| |]|]; by eauto. }
    destruct Hcases as [Hpend|Hpend].
    + by rewrite Hpend.
    + by rewrite (complete_keeps x o (mark_answered i w) q Hpend) in Hq.
Qed.

(** [on] puts the subscriber last in the list of its tag. *)
Lemma on_eq stat cb w :
  on stat cb w
  = update_this
      (set_events (<[stat := (default [] (_events (this w) !! stat) ++ [cb])%list]>
                     (_events (this w)))) w.
Proof.
  unfold on, mbind, get_this. simpl.
  destruct (_events (this w) !! stat) as [cbs|] eqn:Hcbs; simpl.
  - unfold update_this. simpl. by rewrite (alter_alt_Some _ _ _ cbs).
  - unfold update_this. simpl. by rewrite alter_insert_eq.
Qed.

Lemma perform_effect a w w' : perform a w = Some w' -> effect w w'.
Proof.
  destruct a; simpl.
  - intros [= <-]. apply execute_effect.
  - intros [= <-]. rewrite on_eq. by apply effect_quiet.
  - intros [= <-]. by apply effect_quiet.
  - intros [= <-]. rewrite resetQueue_eq. unfold effect, sent_then_queued, sent. simpl.
    split; [done|]. split; [right; right; by rewrite app_nil_r|].
    split; [by left|by left].
  - intros [= <-]. destruct (_postToApi_calls w) as (Hc & Hp & Hn). by apply effect_quiet.
  - destruct (decide (t ∈ timers w)); [|done]. intros [= <-].
    destruct (_postToApi_calls (drop_timer t w)) as (Hc & Hp & Hn). by apply effect_quiet.
  - destruct (exchanges w !! i) as [x|] eqn:Hx; [|done].
    destruct (decide (i ∈ answered w)); [done|]. intros [= <-]. by apply answer_effect.
Qed.

Lemma promises_made_effect w w' : effect w w' -> promises_made w -> promises_made w'.
Proof.
  intros (Hn & _ & _ & Hdom) Hw q Hq. destruct (Hdom q Hq) as [Hold|[-> Hlt]]; [|done].
  specialize (Hw q Hold). lia.
Qed.

Lemma promises_made_reachable allowed api w :
  reachable_by allowed (initial_world api) w -> promises_made w.
Proof.
  induction 1 as [|w a w' _ IH _ Hp].
  - intros q [st Hq]. simpl in Hq. by rewrite lookup_empty in Hq.
  - apply perform_effect in Hp. by apply (promises_made_effect w).
Qed.

(** X10. A promise settles once. In a state that a client has reached, a
    promise that is resolved or rejected keeps that state and that value
    through everything that happens later. *)
Theorem settled_promises_are_final api w w' p st :
  reachable (initial_world api) w ->
  reachable w w' ->
  promises w !! p = Some st -> st <> Pending ->
  promises w' !! p = Some st.
Proof.
  intros Hw Hreach Hp Hst.
  assert (Hboth : promises_made w' /\ promises w' !! p = Some st); [|by destruct Hboth].
  induction Hreach as [|w1 a w2 _ [Hmade IH] _ Hstep].
  - split; [by apply (promises_made_reachable (fun _ => True) api)|done].
  - apply perform_effect in Hstep. split; [by apply (promises_made_effect w1)|].
    destruct Hstep as (_ & _ & Hkeep & _).
    destruct (Hkeep p) as [->|[Hpend _]]; [by apply Hmade|done|congruence].
Qed.

Lemma increasing_snoc l n :
  increasing l -> Forall (fun a => (a < n)%nat) l -> increasing (l ++ [n]).
Proof.
  intros Hl Hn i j a b Hi Hj Hij.
  assert (Hlen : (j < length (l ++ [n]))%nat) by by apply lookup_lt_Some in Hj.
  rewrite length_app in Hlen. simpl in Hlen.
  rewrite lookup_app_l in Hi by lia.
  destruct (decide (j < length l)%nat) as [Hjl|Hjl].
  - rewrite lookup_app_l in Hj by done. by apply (Hl i j).
  - rewrite lookup_app_r in Hj by lia. replace (j - length l)%nat with 0%nat in Hj by lia.
    injection Hj as <-. rewrite Forall_forall in Hn. apply Hn.
    by apply list_elem_of_lookup_2 in Hi.
Qed.

Lemma increasing_prefix l1 l2 : increasing (l1 ++ l2) -> increasing l1.
Proof.
  intros H i j a b Hi Hj. apply (H i j); by apply lookup_app_l_Some.
Qed.

Lemma in_order_effect w w' : effect w w' -> in_order w -> in_order w'.
Proof.
  intros (Hn & Hcalls & _) [Hinc Hbound]. unfold in_order.
  destruct Hcalls as [->|[(call & -> & Hid & Hlt)| ->]].
  - split; [done|]. eapply Forall_impl; [exact Hbound|]. simpl. lia.
  - split.
    + rewrite fmap_app. simpl. apply increasing_snoc; [done|].
      rewrite Forall_fmap. eapply Forall_impl; [exact Hbound|]. simpl. lia.
    + apply Forall_app. split; [|constructor; [lia|constructor]].
      eapply Forall_impl; [exact Hbound|]. simpl. lia.
  - unfold sent_then_queued in Hinc, Hbound. rewrite fmap_app in Hinc.
    split; [by apply increasing_prefix in Hinc|].
    apply Forall_app in Hbound as [Hbound _].
    eapply Forall_impl; [exact Hbound|]. simpl. lia.
Qed.

(** X11. Calls leave in the order in which they were made. In every state
    that a constructed client can reach, the promises of the calls posted so
    far, batch after batch, followed by those of the queue, are numbered in
    strictly increasing order: no call overtakes another, and none is
    posted twice or both posted and queued. *)
Theorem calls_leave_in_order endpoint options encoded api w :
  new_TaggedApi endpoint options encoded = Ret api ->
  reachable (initial_world api) w ->
  increasing (deferred <$> sent_then_queued w).
Proof.
  intros Hnew Hreach.
  assert (Hinv : in_order w); [|by destruct Hinv].
  apply (reachable_by_preserves in_order (fun _ => True) (initial_world api));
    [| |done].
  - intros a w1 w2 _ H1 Hstep. apply perform_effect in Hstep.
    by apply (in_order_effect w1).
  - unfold in_order, sent_then_queued, sent. simpl.
    rewrite (new_TaggedApi_queue _ _ _ _ Hnew). simpl.
    split; [|constructor]. by intros i j a b Hi.
Qed.

Lemma abandoned_effect p w w' : effect w w' -> abandoned p w -> abandoned p w'.
Proof.
  intros (Hn & Hcalls & Hkeep & _) (Hlt & Hpend & Hout). unfold abandoned.
  assert (Hsent : p ∉ deferred <$> sent w).
  { intros Hin. apply Hout. unfold sent_then_queued. rewrite fmap_app.
    apply elem_of_app. by left. }
  split; [lia|]. split.
  - destruct (Hkeep p Hlt) as [->|[_ Hin]]; [done|]. by destruct Hsent.
  - destruct Hcalls as [->|[(call & -> & Hid & _)| ->]]; [done| |done].
    rewrite fmap_app. intros [Hin|Hin]%elem_of_app; [done|].
    apply list_elem_of_singleton in Hin. lia.
Qed.

(** X12. [resetQueue] gives up the calls of the queue without settling
    them: the promise of a call that was queued and pending when the queue
    was reset stays pending through everything that happens later. *)
Theorem resetQueue_abandons_calls endpoint options encoded api w call w' :
  new_TaggedApi endpoint options encoded = Ret api ->
  reachable (initial_world api) w ->
  call ∈ _queue (this w) ->
  promises w !! deferred call = Some Pending ->
  reachable (snd (resetQueue w)) w' ->
  _queue (this (snd (resetQueue w))) = []
  /\ promises w' !! deferred call = Some Pending.
Proof.
  intros Hnew Hreach Hcall Hpend Hlater.
  split; [by rewrite resetQueue_eq|].
  assert (Hinv : in_order w).
  { apply (reachable_by_preserves in_order (fun _ => True) (initial_world api));
      [| |done].
    - intros a w1 w2 _ H1 Hstep. apply perform_effect in Hstep.
      by apply (in_order_effect w1).
    - unfold in_order, sent_then_queued, sent. simpl.
      rewrite (new_TaggedApi_queue _ _ _ _ Hnew). simpl.
      split; [|constructor]. by intros i j a b Hi. }
  destruct Hinv as [Hinc Hbound].
  assert (Hab : abandoned (deferred call) w'); [|by destruct Hab as (_ & ? & _)].
  apply (reachable_by_preserves (abandoned (deferred call)) (fun _ => True)
           (snd (resetQueue w))); [| |done].
  - intros a w1 w2 _ H1 Hstep. apply perform_effect in Hstep.
    by apply (abandoned_effect _ w1).
  - rewrite resetQueue_eq. unfold abandoned, sent_then_queued, sent. simpl.
    rewrite app_nil_r. split.
    + rewrite Forall_forall in Hbound. apply Hbound. unfold sent_then_queued.
      apply elem_of_app. by right.
    + split; [done|]. intros Hin.
      apply list_elem_of_lookup in Hin as [i Hi].
      apply list_elem_of_lookup in Hcall as [j Hj].
      assert (Hi' : (deferred <$> sent_then_queued w) !! i = Some (deferred call)).
      { unfold sent_then_queued. rewrite fmap_app. by apply lookup_app_l_Some. }
      assert (Hlen : (i < length (sent w))%nat).
      { apply lookup_lt_Some in Hi. by rewrite length_fmap in Hi. }
      assert (Hj' : (deferred <$> sent_then_queued w) !! (length (sent w) + j)%nat
                    = Some (deferred call)).
      { unfold sent_then_queued. rewrite list_lookup_fmap, lookup_app_r by lia.
        replace (length (sent w) + j - length (sent w))%nat with j by lia.
        by rewrite Hj. }
      specialize (Hinc i (length (sent w) + j)%nat _ _ Hi' Hj'). lia.
Qed.

End Effects.

(** ** Parts of the client that an action leaves alone *)

Section Fields.
Context {host : Host}.
Context {X : Type} (F : TaggedApi -> X) (v : X).
Hypothesis F_queue : forall q a, F (set_queue q a) = F a.
Hypothesis F_batchTimeout : forall t a, F (set_batchTimeout t a) = F a.
Hypothesis F_cache : forall c a, F (set_cache c a) = F a.

Lemma field_is_about : about_client_and_timers (field_is F v).
Proof. intros w w' Hthis _ _ _ H. unfold field_is. by rewrite <- Hthis. Qed.

Lemma field_is_update_this f :
  (forall a, F (f a) = F a) -> preserves (field_is F v) (update_this f).
Proof. intros Hf w H. unfold field_is in *. simpl. by rewrite Hf. Qed.

Lemma field_is_resetQueue : preserves (field_is F v) resetQueue.
Proof.
  intros w H. rewrite resetQueue_eq. unfold field_is in *. simpl.
  by rewrite F_queue, F_batchTimeout.
Qed.

Lemma field_is__postToApi : preserves (field_is F v) _postToApi.
Proof.
  intros w H. rewrite _postToApi_eq. destruct (build_request (this w)); [|done].
  by apply field_is_resetQueue.
Qed.

Lemma field_is_enqueue m params_arg env p :
  preserves (field_is F v) (enqueue m params_arg env p).
Proof.
  unfold enqueue, queue_call, schedule_flush.
  assert (preserves (field_is F v) setTimeout) by by intros w H.
  auto 12 using field_is__postToApi, field_is_update_this with preserves.
Qed.

Lemma field_is_perform a w w' :
  (forall stat cb, a = On stat cb -> forall ev b, F (set_events ev b) = F b) ->
  (forall n, a = SetMaxQueueSize n -> forall n' b, F (set_maxQueueSize n' b) = F b) ->
  field_is F v w -> perform a w = Some w' -> field_is F v w'.
Proof.
  intros Hon Hset Hw. destruct a; unfold perform.
  - intros [= <-]. apply execute_preserves; try done.
    + apply field_is_about.
    + intros g. by apply field_is_update_this.
    + intros m p. apply field_is_enqueue.
  - intros <-%(inj Some). rewrite on_eq. apply field_is_update_this; [|done].
    intros a. by apply (Hon stat cb).
  - intros [= <-]. apply field_is_update_this; [|done].
    intros a. by apply (Hset maxQueueSize).
  - intros [= <-]. by apply field_is_resetQueue.
  - intros [= <-]. by apply field_is__postToApi.
  - destruct (decide (t ∈ timers w)); [|done]. intros [= <-].
    by apply field_is__postToApi.
  - destruct (exchanges w !! i) as [x|]; [|done].
    destruct (decide (i ∈ answered w)); [done|]. intros [= <-].
    apply (about_complete _ _ _ field_is_about). by apply (field_is_about w).
Qed.

End Fields.

Section Subscribers.
Context {host : Host}.

Lemma events_perform a w w' :
  (forall stat cb, a <> On stat cb) ->
  perform a w = Some w' -> _events (this w') = _events (this w).
Proof.
  intros Ha.
  apply (field_is_perform _events (_events (this w))
           (fun _ _ => eq_refl) (fun _ _ => eq_refl) (fun _ _ => eq_refl) a w w');
    [|done|done].
  intros stat cb ->. by destruct (Ha stat cb).
Qed.

(** X13. Subscribers are kept in the order of their registration and are
    never removed. Where no subscriber is registered under a special name,
    [on] with a tag that is not one puts the new subscriber last under its
    tag and leaves the other tags alone, and through every ordinary use that
    follows the list under a tag only grows at its end. *)
Theorem subscribers_only_grow w stat cb :
  special_name stat = false ->
  (forall k, special_name k = true -> _events (this w) !! k = None) ->
  let w1 := snd (on stat cb w) in
  _events (this w1) !! stat
  = Some (default [] (_events (this w) !! stat) ++ [cb])%list
  /\ (forall tag, tag <> stat -> _events (this w1) !! tag = _events (this w) !! tag)
  /\ (forall w' tag,
        reachable_by ordinary_action w1 w' ->
        default [] (_events (this w1) !! tag) `prefix_of` default [] (_events (this w') !! tag)).
Proof.
  intros _ _.
  cbv zeta. rewrite on_eq. simpl. split; [apply lookup_insert_eq|].
  split; [intros tag Hne; by apply lookup_insert_ne|].
  intros w' tag. induction 1 as [|w2 a w3 _ IH _ Hstep]; [done|].
  etrans; [exact IH|]. clear IH.
  assert (Hcases : (exists stat' cb', a = On stat' cb') \/ forall stat' cb', a <> On stat' cb').
  { destruct a; eauto. }
  destruct Hcases as [(stat' & cb' & ->)|Hother].
  - apply (inj Some) in Hstep as <-. rewrite on_eq. simpl.
    destruct (decide (tag = stat')) as [->|Hne].
    + rewrite lookup_insert_eq. simpl. by apply prefix_app_r.
    + by rewrite lookup_insert_ne.
  - by rewrite (events_perform a w2 w3 Hother Hstep).
Qed.

End Subscribers.

Section Limit.
Context {host : Host}.

(** X14. The size limit is what [setMaxQueueSize] was last given: after
    [setMaxQueueSize(n)], [getMaxQueueSize] returns [n] in every state
    reached without another call of [setMaxQueueSize], and reading it
    changes nothing. *)
Theorem limit_is_last_set n w w' :
  reachable_by keeps_limit (snd (setMaxQueueSize n w)) w' ->
  getMaxQueueSize w' = (Ret n, w').
Proof.
  intros Hreach. unfold getMaxQueueSize, mbind, get_this, mret. simpl.
  assert (H : field_is _maxQueueSize n w'); [|by rewrite H].
  apply (reachable_by_preserves (field_is _maxQueueSize n) keeps_limit
           (snd (setMaxQueueSize n w))); [|done|done].
  intros a w1 w2 Ha.
  apply (field_is_perform _maxQueueSize n
           (fun _ _ => eq_refl) (fun _ _ => eq_refl) (fun _ _ => eq_refl) a w1 w2).
  - done.
  - intros n0 ->. done.
Qed.

End Limit.

(** ** Batches are not empty *)

Section Batches.
Context {host : Host}.

Lemma batches_inv_about : about_client_and_timers batches_inv.
Proof.
  intros w w' Hthis _ _ Hx H. unfold batches_inv in *. by rewrite <- Hthis, <- Hx.
Qed.

Lemma batches_inv_update_this f :
  (forall a, _queue (f a) = _queue a) ->
  (forall a, _batchTimeout (f a) = _batchTimeout a) ->
  preserves batches_inv (update_this f).
Proof. intros Hq Ht w H. unfold batches_inv in *. simpl. by rewrite Hq, Ht. Qed.

Lemma batches_inv_resetQueue : preserves batches_inv resetQueue.
Proof.
  intros w [_ Hx]. rewrite resetQueue_eq. split; [|done]. simpl. by intros [t Ht].
Qed.

Lemma batches_inv__postToApi w :
  _queue (this w) <> [] -> batches_inv w -> batches_inv (snd (_postToApi w)).
Proof.
  intros Hq [Ht Hx]. rewrite _postToApi_eq.
  destruct (build_request (this w)) as [req|e]; [|done].
  rewrite resetQueue_eq. split; simpl; [by intros [t H]|].
  apply Forall_app. split; [done|]. by constructor.
Qed.

Lemma batches_inv_enqueue m params_arg env p :
  preserves batches_inv (enqueue m params_arg env p).
Proof.
  intros w Hw. destruct (enqueue_cases m params_arg env p w) as [[e ->]|[merged ->]];
    [done|].
  set (call := {| method := m; params := merged; deferred := p;
                  timeStart := hrtime env |}).
  set (w1 := snd (queue_call call w)).
  assert (Hq : _queue (this w1) <> []).
  { simpl. unfold push. by destruct (_queue (this w)). }
  assert (H1 : batches_inv w1) by (split; [done|by destruct Hw]).
  cbv zeta. destruct (limit_reached (this w1)); [by apply batches_inv__postToApi|].
  destruct (_batchTimeout (this w1)); [done|]. split; [done|by destruct H1].
Qed.

Lemma batches_inv_perform a w w' :
  public a -> timer_inv w -> batches_inv w -> perform a w = Some w' -> batches_inv w'.
Proof.
  intros Ha Htimer Hw. destruct a; unfold perform.
  - intros [= <-]. apply execute_preserves; try done.
    + apply batches_inv_about.
    + intros g. by apply batches_inv_update_this.
    + intros m p. apply batches_inv_enqueue.
  - intros <-%(inj Some). rewrite on_eq. by apply batches_inv_update_this.
  - intros [= <-]. by apply batches_inv_update_this.
  - intros [= <-]. by apply batches_inv_resetQueue.
  - done.
  - destruct (decide (t ∈ timers w)) as [Ht|]; [|done]. intros [= <-].
    apply batches_inv__postToApi; [|done]. simpl. apply Hw. rewrite (Htimer t Ht). by eexists.
  - destruct (exchanges w !! i) as [x|]; [|done].
    destruct (decide (i ∈ answered w)); [done|]. intros [= <-].
    apply (about_complete _ _ _ batches_inv_about). by apply (batches_inv_about w).
Qed.

(** X15. The client never posts an empty batch. In every state that a
    constructed client reaches through its public methods, its timer and
    the answers of the transport, each request that was posted carries at
    least one call. *)
Theorem posted_batches_not_empty endpoint options encoded api w x :
  new_TaggedApi endpoint options encoded = Ret api ->
  reachable_by public (initial_world api) w ->
  x ∈ exchanges w ->
  batch x <> [].
Proof.
  intros Hnew Hreach.
  assert (Hinv : timer_inv w /\ batches_inv w).
  { apply (reachable_by_preserves (fun w => timer_inv w /\ batches_inv w) public
             (initial_world api)); [| |done].
    - intros a w1 w2 Ha [Ht Hb] Hstep. split.
      + by apply (timer_inv_perform a w1).
      + by apply (batches_inv_perform a w1).
    - split; [by intros t Ht%elem_of_empty|]. split; [|constructor].
      simpl. rewrite (new_TaggedApi_queue _ _ _ _ Hnew).
      unfold new_TaggedApi in Hnew.
      destruct (mergeRecursive _ _) as [merged|]; simpl in Hnew; [|done].
      destruct (get_prop options "cookies") as [c|]; simpl in Hnew; [|done].
      destruct (if truthy c then _ else _); simpl in Hnew; [|done].
      injection Hnew as <-. by intros [t Ht]. }
  destruct Hinv as [_ [_ Hx]]. rewrite Forall_forall in Hx. apply Hx.
Qed.

(** X16. An answer of the transport for which no subscriber is called,
    because the exchange failed or because nothing is subscribed, touches
    nothing but the promises of its own batch: the client object (queue,
    cache, subscribers, limit, timer), the pending timers and the posted
    requests are as before, no promise is made, and every promise that no
    call of the batch holds keeps its state. *)
Theorem answer_touches_only_its_batch i x o w w' :
  exchange_fails o \/ _events (this w) = ∅ ->
  exchanges w !! i = Some x ->
  perform (TransportAnswers i o) w = Some w' ->
  this w' = this w /\ timers w' = timers w /\ exchanges w' = exchanges w
  /\ next_promise w' = next_promise w
  /\ forall q, q ∉ deferred <$> batch x -> promises w' !! q = promises w !! q.
Proof.
  intros _.
  intros Hx. simpl. rewrite Hx. destruct (decide (i ∈ answered w)); [done|].
  intros [= <-].
  apply (preserves_complete
           (fun w' => this w' = this w /\ timers w' = timers w
                      /\ exchanges w' = exchanges w /\ next_promise w' = next_promise w
                      /\ forall q, q ∉ deferred <$> batch x ->
                                   promises w' !! q = promises w !! q)
           (batch x)); [| |done|done].
  - by intros e w0 H0.
  - intros call st Hin w0 (Ht & Hti & He & Hn & Hp). repeat (split; [done|]).
    intros q Hq. rewrite settle_other; [by apply Hp|].
    intros ->. by apply Hq, list_elem_of_fmap_2.
Qed.

End Batches.

(** ** parseInt reads back what ToString writes *)

Lemma digits_value_pos d p :
  digits_value (Z.pos p) (NilEmpty.string_of_uint d) = Z.pos (Pos.of_uint_acc d p).
Proof.
  revert p. induction d; intros p; simpl; [done|..];
    rewrite <- IHd; f_equal; lia.
Qed.

Lemma digits_value_uint d :
  digits_value 0 (NilEmpty.string_of_uint d) = Z.of_N (Pos.of_uint d).
Proof.
  induction d; [done|exact IHd|..];
    cbn [NilEmpty.string_of_uint Pos.of_uint Z.of_N];
    rewrite <- digits_value_pos; reflexivity.
Qed.

Lemma parse_digits_uint d :
  parse_digits (NilZero.string_of_uint d) = Some (Z.of_N (Pos.of_uint d)).
Proof.
  rewrite <- digits_value_uint. by destruct d.
Qed.

Lemma trim_left_uint d :
  trim_left (NilZero.string_of_uint d) = NilZero.string_of_uint d.
Proof. by destruct d. Qed.

Lemma parseInt_number n : parseInt (VNumber n) = Ret (Some n).
Proof.
  unfold parseInt. simpl. f_equal. unfold string_of_Z.
  destruct n as [|p|p]; simpl.
  - done.
  - rewrite trim_left_uint.
    assert (Hparse := parse_digits_uint (Pos.to_uint p)).
    rewrite DecimalPos.Unsigned.of_to in Hparse. simpl in Hparse.
    rewrite <- Hparse.
    by destruct (Pos.to_uint p).
  - assert (Hparse := parse_digits_uint (Pos.to_uint p)).
    rewrite DecimalPos.Unsigned.of_to in Hparse. by rewrite Hparse.
Qed.

(** ** The timeout of the transport *)

(** X17. The timeout that the constructor hands to the transport is a
    positive number whatever the options hold: a timeout that is missing,
    not a number, zero or negative becomes 10000. The Angular adapter
    stores a positive timeout as it is given. *)
Theorem timeout_is_positive api t :
  http_timeout api = Ret t ->
  0 < t /\ (t < 10 ^ 21 -> AngularAdapter_setTimeout (VNumber t) = Ret t).
Proof.
  unfold http_timeout.
  destruct (get_prop (_options api) "timeout") as [v|]; simpl; [|done].
  destruct (parseInt v) as [parsed|]; simpl; [|done]. intros [= <-].
  assert (Hpos : 0 < (if or_10000 parsed <? 0 then 10000 else or_10000 parsed)).
  { unfold or_10000. destruct parsed as [n|]; [|done].
    destruct (Z.eqb_spec n 0) as [->|Hn]; [done|].
    destruct (Z.ltb_spec n 0); lia. }
  split; [done|]. intros _. unfold AngularAdapter_setTimeout.
  rewrite parseInt_number. simpl.
  destruct (Z.eqb_spec (if or_10000 parsed <? 0 then 10000 else or_10000 parsed) 0);
    [lia|done].
Qed.

(** X18. A client constructed from options that name no [timeout] hands
    10000 to the transport. *)
Theorem default_timeout endpoint options encoded api :
  new_TaggedApi endpoint options encoded = Ret api ->
  lookup_prop "timeout" (own_enumerable options) = None ->
  http_timeout api = Ret 10000.
Proof.
  unfold new_TaggedApi. intros Hnew Hnone.
  destruct (mergeRecursive_object_target (if truthy options then options else VObject [])
              [("query", VObject []);
               ("params", VObject [("track", VString (_generateTrackId encoded))]);
               ("timeout", VNumber 10000)]) as (ps & Hmerge & Hframe & _).
  rewrite Hmerge in Hnew. simpl in Hnew.
  destruct (get_prop options "cookies") as [c|]; simpl in Hnew; [|done].
  destruct (if truthy c then _ else _); simpl in Hnew; [|done].
  injection Hnew as <-. unfold http_timeout. simpl.
  rewrite (Hframe "timeout"); [done|]. by destruct (truthy options).
Qed.

(** ** Time stamps *)

Lemma digits_value_digit acc a s d :
  digit_value a = Some d -> digits_value acc (String a s) = digits_value (10 * acc + d) s.
Proof. intros H. simpl. by rewrite H. Qed.



Lemma string_app_empty_r (s : string) : s ++ "" = s.
Proof.
  induction s as [|a s IH]; [done|].
  change (String a s ++ "") with (String a (s ++ "")). by rewrite IH.
Qed.




(** ** The cookies of the constructor *)

Lemma split_cookies_piece p piece rest :
  occurrences ";" p = 0%nat ->
  split_cookies piece false (p ++ rest) = split_cookies (piece ++ p) false rest.
Proof.
  revert piece. induction p as [|a p IH]; intros piece Hp.
  - by rewrite string_app_empty_r.
  - change (String a p ++ rest) with (String a (p ++ rest)). simpl in Hp |- *.
    destruct (Ascii.eqb_spec a ";") as [->|_]; [done|].
    rewrite IH by lia. by rewrite string_app_assoc.
Qed.

Lemma split_cookies_first p rest :
  occurrences ";" p = 0%nat ->
  match p with String " " _ => False | EmptyString => False | _ => True end ->
  split_cookies "" true (p ++ rest) = split_cookies p false rest.
Proof.
  destruct p as [|a p]; [done|]. intros Hp Ha.
  change (String a p ++ rest) with (String a (p ++ rest)). simpl in Hp |- *.
  destruct (Ascii.eqb_spec a " ") as [->|_]; [done|].
  destruct (Ascii.eqb_spec a ";") as [->|_]; [done|].
  by rewrite split_cookies_piece by lia.
Qed.

Lemma split_cookies_join p pieces :
  Forall (fun p => occurrences ";" p = 0%nat
                   /\ match p with
                      | String " " _ => False | EmptyString => False | _ => True
                      end) (p :: pieces) ->
  split_cookies p false
    (match pieces with [] => "" | _ => "; " ++ join "; " pieces end)
  = p :: pieces.
Proof.
  revert p. induction pieces as [|q pieces IH]; intros p Hall; [done|].
  apply Forall_cons in Hall as [_ Hall].
  pose proof Hall as [[Hq Hq'] _]%Forall_cons.
  change ("; " ++ join "; " (q :: pieces))
    with (String ";" (String " " (join "; " (q :: pieces)))).
  cbn [split_cookies]. simpl (false && _). simpl (Ascii.eqb ";" ";").
  cbn iota. simpl (true && _). cbn iota. f_equal.
  destruct pieces as [|r pieces].
  - change (join "; " [q]) with q. rewrite <- (string_app_empty_r q) at 1.
    rewrite split_cookies_first by done. by apply (IH q).
  - rewrite join_cons, split_cookies_first by done. by apply (IH q).
Qed.

Lemma before_eq_app k rest :
  occurrences "=" k = 0%nat -> before_eq (k ++ String "=" rest) = k.
Proof.
  induction k as [|a k IH]; [done|]. intros Hk.
  change (String a k ++ String "=" rest) with (String a (k ++ String "=" rest)).
  simpl in Hk |- *. destruct (Ascii.eqb_spec a "=") as [->|_]; [done|].
  by rewrite IH by lia.
Qed.

Lemma after_eq_app k rest :
  occurrences "=" k = 0%nat -> after_eq (k ++ String "=" rest) = Some rest.
Proof.
  induction k as [|a k IH]; [done|]. intros Hk.
  change (String a k ++ String "=" rest) with (String a (k ++ String "=" rest)).
  simpl in Hk |- *. destruct (Ascii.eqb_spec a "=") as [->|_]; [done|].
  by rewrite IH by lia.
Qed.

Lemma keyValuePair_pair k v :
  occurrences "=" k = 0%nat ->
  keyValuePair (k ++ "=" ++ v) = (k, VString (before_eq v)).
Proof.
  intros Hk. unfold keyValuePair. change (k ++ "=" ++ v) with (k ++ String "=" v).
  by rewrite before_eq_app, after_eq_app.
Qed.

Lemma fold_obj_set (kvs : list (string * value)) init k v :
  NoDup kvs.*1 -> (k, v) ∈ kvs ->
  lookup_prop k (fold_left (fun props '(k, v) => obj_set k v props) kvs init) = Some v.
Proof.
  revert init. induction kvs as [|[k' v'] kvs IH]; intros init Hnd Hin.
  - by apply elem_of_nil in Hin.
  - apply NoDup_cons in Hnd as [Hk' Hnd]. simpl.
    apply elem_of_cons in Hin as [[= -> ->]|Hin]; [|by apply IH].
    clear IH. revert init. induction kvs as [|[k2 v2] kvs IH]; intros init; simpl.
    + apply lookup_obj_set_eq.
    + csimpl in Hk'. apply not_elem_of_cons in Hk' as [Hne Hk'].
      apply NoDup_cons in Hnd as [_ Hnd].
      assert (Hswap : forall props, lookup_prop k' props = Some v' ->
                lookup_prop k' (fold_left (fun props '(k, v) => obj_set k v props) kvs
                                  (obj_set k2 v2 props)) = Some v').
      { clear IH. intros props Hp.
        assert (Hgen : forall props, lookup_prop k' props = Some v' ->
                  lookup_prop k' (fold_left (fun props '(k, v) => obj_set k v props) kvs props)
                  = Some v').
        { clear props Hp. induction kvs as [|[k3 v3] kvs IH]; intros props Hp; [done|].
          simpl. csimpl in Hk'. apply not_elem_of_cons in Hk' as [Hne3 Hk'].
          apply NoDup_cons in Hnd as [_ Hnd]. apply IH; try done.
          by rewrite lookup_obj_set_ne. }
        apply Hgen. by rewrite lookup_obj_set_ne. }
      apply Hswap. apply lookup_obj_set_eq.
Qed.

(** X20. The constructor reads the cookie header into [this._cookies] name
    by name: for a header that lists cookies with distinct names, none of
    them [__proto__], separated by a semicolon and a space, each name is
    mapped to the text of its value up to the first [=] in it, so a value
    that holds a [=] is cut there. *)
Theorem cookies_by_name options pairs :
  pairs <> [] ->
  Forall (fun kv => cookie_name kv.1 = true /\ cookie_value kv.2 = true) pairs ->
  NoDup pairs.*1 ->
  "__proto__" ∉ pairs.*1 ->
  get_prop options "cookies" = Ret (VString (cookie_header pairs)) ->
  exists cookies,
    constructor_cookies options = Ret cookies
    /\ forall k v, (k, v) ∈ pairs -> lookup_prop k cookies = Some (VString (before_eq v)).
Proof.
  intros Hne Hall Hnd Hproto Hget. unfold constructor_cookies. rewrite Hget. cbn [bind].
  set (pieces := map (fun '(k, v) => k ++ "=" ++ v) pairs).
  assert (Hpieces : Forall (fun p => occurrences ";" p = 0%nat
                                     /\ match p with
                                        | String " " _ => False
                                        | EmptyString => False
                                        | _ => True
                                        end) pieces).
  { unfold pieces. rewrite Forall_map. eapply Forall_impl; [exact Hall|].
    intros [k v]. simpl. unfold cookie_name, cookie_value.
    intros [[[Hk1 Hk2]%andb_true_iff Hk3]%andb_true_iff Hv].
    apply Nat.eqb_eq in Hk1, Hk2, Hv.
    change (k ++ "=" ++ v) with (k ++ String "=" v). split.
    - rewrite occurrences_app. simpl. lia.
    - destruct k as [|a k]; [done|].
      change (String a k ++ String "=" v) with (String a (k ++ String "=" v)).
      by destruct a as [[] [] [] [] [] [] [] []]. }
  assert (Hsplit : split_cookies "" false (cookie_header pairs) = pieces).
  { unfold cookie_header. fold pieces. destruct pieces as [|p pieces'] eqn:Hp.
    { by destruct pairs. }
    apply Forall_cons in Hpieces as [[Hp1 Hp2] Hrest].
    replace (join "; " (p :: pieces'))
      with (p ++ match pieces' with [] => "" | _ => "; " ++ join "; " pieces' end).
    - rewrite split_cookies_piece by done. change ("" ++ p) with p.
      apply split_cookies_join. by constructor.
    - destruct pieces'; [by rewrite string_app_empty_r|done]. }
  assert (Htruthy : truthy (VString (cookie_header pairs)) = true).
  { unfold cookie_header. fold pieces. destruct pairs as [|[k v] pairs']; [done|].
    simpl. apply negb_true_iff, String.eqb_neq.
    destruct (map _ pairs'); destruct k; discriminate. }
  rewrite Htruthy, Hsplit. eexists. split; [reflexivity|].
  intros k v Hin.
  assert (Hfold : forall init,
             fold_left (fun cookies cookie =>
                          let '(k, v) := keyValuePair cookie in set_cookie k v cookies)
                       pieces init
             = fold_left (fun props '(k, v) => obj_set k v props)
                 (map (fun kv => (kv.1, VString (before_eq kv.2))) pairs) init).
  { unfold pieces. clear Hsplit Hpieces Htruthy Hget Hin Hnd Hne.
    induction Hall as [|[k' v'] pairs' [Hk _] _ IH]; intros init; [done|].
    csimpl in Hproto. apply not_elem_of_cons in Hproto as [Hk' Hproto].
    cbn [map fold_left fst snd]. rewrite keyValuePair_pair.
    - unfold set_cookie at 2. replace (String.eqb k' "__proto__") with false.
      + by apply IH.
      + symmetry. apply String.eqb_neq. by intros ->.
    - unfold cookie_name in Hk. simpl in Hk.
      apply andb_true_iff in Hk as [[_ Hk]%andb_true_iff _]. by apply Nat.eqb_eq in Hk. }
  rewrite Hfold. apply fold_obj_set.
  - rewrite <- list_fmap_compose.
    replace (fst ∘ (fun kv : string * string => (kv.1, VString (before_eq kv.2))))
      with (@fst string string); [done|]. done.
  - by apply (list_elem_of_fmap_2 (fun kv : string * string => (kv.1, VString (before_eq kv.2)))
                _ (k, v)).
Qed.

(** ** The requests of one client *)

Section Requests.
Context {host : Host}.

Lemma request_for_ext api api' text :
  _options api' = _options api -> _endpoint api' = _endpoint api ->
  request_for api' text = request_for api text.
Proof. intros Ho He. unfold request_for. by rewrite Ho, He. Qed.

Lemma request_for_body api text req : request_for api text = Ret req -> body req = text.
Proof.
  unfold request_for.
  repeat match goal with
         | |- context [bind ?r _] => destruct r; cbn [bind]; [|done]
         end.
  by intros [= <-].
Qed.

Lemma requests_inv_about api : about_client_and_timers (requests_inv api).
Proof.
  intros w w' Hthis _ _ Hx H. unfold requests_inv in *. by rewrite <- Hthis, <- Hx.
Qed.

Lemma requests_inv_update_this api f :
  (forall a, _options (f a) = _options a) ->
  (forall a, _endpoint (f a) = _endpoint a) ->
  preserves (requests_inv api) (update_this f).
Proof. intros Ho He w H. unfold requests_inv in *. simpl. by rewrite Ho, He. Qed.

Lemma requests_inv_resetQueue api : preserves (requests_inv api) resetQueue.
Proof. intros w H. by rewrite resetQueue_eq. Qed.

Lemma requests_inv__postToApi api : preserves (requests_inv api) _postToApi.
Proof.
  intros w (Ho & He & Hx). rewrite _postToApi_eq.
  destruct (build_request (this w)) as [req|e] eqn:Hreq; [|done].
  rewrite resetQueue_eq. split; [done|]. split; [done|]. simpl.
  apply Forall_app. split; [done|]. constructor; [|done]. simpl.
  unfold build_request in Hreq.
  destruct (stringifyQueue (_queue (this w))) as [text|]; simpl in Hreq; [|done].
  rewrite (request_for_body _ _ _ Hreq). by rewrite <- (request_for_ext api (this w)).
Qed.

Lemma requests_inv_enqueue api m params_arg env p :
  preserves (requests_inv api) (enqueue m params_arg env p).
Proof.
  unfold enqueue, queue_call, schedule_flush.
  assert (preserves (requests_inv api) setTimeout) by by intros w H.
  auto 12 using requests_inv__postToApi, requests_inv_update_this with preserves.
Qed.

Lemma requests_inv_reachable api w :
  reachable (initial_world api) w -> requests_inv api w.
Proof.
  apply reachable_by_preserves.
  - intros a w1 w2 _.
    apply (perform_preserves (requests_inv api) (fun _ => True)); try done.
    + apply requests_inv_about.
    + intros g. by apply requests_inv_update_this.
    + intros g. by apply requests_inv_update_this.
    + intros n. by apply requests_inv_update_this.
    + intros. apply requests_inv_enqueue.
    + apply requests_inv__postToApi.
    + apply requests_inv_resetQueue.
  - split; [done|]. split; [done|]. constructor.
Qed.

(** X21. Through every ordinary use of a client with ordinary options,
    each request it posts is the one that [_postToApi] builds from the
    endpoint and from the query, cookies, client id, secret and headers of
    the options the client was constructed with: all requests of one client
    go to the same URL and carry the same cookies, client id, secret and
    headers. *)
Theorem requests_of_one_client api w x y :
  ordinary (_options api) = true ->
  reachable_by ordinary_action (initial_world api) w ->
  x ∈ exchanges w -> y ∈ exchanges w ->
  request_for api (body (request x)) = Ret (request x)
  /\ url (request x) = url (request y)
  /\ cookies (request x) = cookies (request y)
  /\ clientId (request x) = clientId (request y)
  /\ secret (request x) = secret (request y)
  /\ headers (request x) = headers (request y).
Proof.
  intros _ Hreach%reachable_by_any Hx Hy.
  destruct (requests_inv_reachable api w Hreach) as (_ & _ & Hall).
  rewrite Forall_forall in Hall. pose proof (Hall x Hx) as Hrx.
  pose proof (Hall y Hy) as Hry. split; [done|].
  unfold request_for in Hrx, Hry.
  repeat match type of Hrx with
         | context [bind ?r _] => destruct r; cbn [bind] in Hrx, Hry; [|done]
         end.
  injection Hrx as Hrx. injection Hry as Hry. by rewrite <- Hrx, <- Hry.
Qed.

Lemma factory_options clientId timeout encoded api :
  new_TaggedApi "/api/" (taggedApiFactory_options clientId timeout) encoded = Ret api ->
  exists ps,
    _options api = VObject ps /\ _endpoint api = "/api/"
    /\ lookup_prop "query" ps
       = Some (VObject [("application_id", VString "user"); ("format", VString "json")])
    /\ lookup_prop "clientId" ps = Some (merged_value VUndefined clientId).
Proof.
  intros Hnew.
  destruct (merge_loop_values
              [("query", VObject [("application_id", VString "user");
                                  ("format", VString "json")]);
               ("clientId", clientId); ("timeout", timeout)]
              [("query", VObject []);
               ("params", VObject [("track", VString (_generateTrackId encoded))]);
               ("timeout", VNumber 10000)]) as (ps & Hloop & Hvalues & _).
  { csimpl. apply (bool_decide_unpack _). by vm_compute. }
  assert (Hmerge : mergeRecursive
                     (VObject [("query", VObject []);
                               ("params",
                                VObject [("track", VString (_generateTrackId encoded))]);
                               ("timeout", VNumber 10000)])
                     (if truthy (taggedApiFactory_options clientId timeout)
                      then taggedApiFactory_options clientId timeout else VObject [])
                   = Ret (VObject ps)) by exact Hloop.
  unfold new_TaggedApi in Hnew. rewrite Hmerge in Hnew. cbn [bind] in Hnew.
  destruct (get_prop _ "cookies") as [c|]; cbn [bind] in Hnew; [|done].
  destruct (if truthy c then _ else _); cbn [bind] in Hnew; [|done].
  injection Hnew as <-. exists ps. split; [done|]. split; [done|]. split.
  - rewrite (Hvalues "query" (VObject [("application_id", VString "user");
                                       ("format", VString "json")]));
      [done|apply list_elem_of_here].
  - rewrite (Hvalues "clientId" clientId); [done|].
    apply list_elem_of_further, list_elem_of_here.
Qed.

(** X22. Through every ordinary use, the Angular service, given an
    ordinary client id and timeout, posts every batch to
    [/api/?application_id=user&format=json], with the body of the request
    as data and, for a client id that is a primitive value, that client id
    in the header [x-tagged-client-id]. *)
Theorem angular_service_requests id timeout encoded api w x t href :
  ordinary (taggedApiFactory_options id timeout) = true ->
  new_TaggedApi "/api/" (taggedApiFactory_options id timeout) encoded = Ret api ->
  reachable_by ordinary_action (initial_world api) w ->
  x ∈ exchanges w ->
  let post := AngularAdapter_post t href (request x) in
  post_url post = "/api/?application_id=user&format=json"
  /\ post_data post = body (request x)
  /\ (primitive id = true ->
      lookup_prop "x-tagged-client-id" (post_headers post) = Some id).
Proof.
  intros _ Hnew Hreach%reachable_by_any Hx.
  destruct (factory_options _ _ _ _ Hnew) as (ps & Hopt & Hend & Hquery & Hid).
  destruct (requests_inv_reachable api w Hreach) as (_ & _ & Hall).
  rewrite Forall_forall in Hall. pose proof (Hall x Hx) as Hrx.
  unfold request_for in Hrx. rewrite Hopt, Hend in Hrx. cbn [get_prop bind] in Hrx.
  rewrite Hquery, Hid in Hrx. simpl in Hrx. injection Hrx as Hrx.
  cbv zeta. unfold AngularAdapter_post. cbn [post_url post_data post_headers].
  rewrite <- Hrx. cbn [url body clientId]. split; [done|]. split; [done|].
  intros Hprim. cbn [lookup_prop]. simpl. f_equal. by destruct id.
Qed.

(** X23. What the client parses is the raw body that the Angular adapter
    passes through: when the body parses to [responses], the results are
    the entries of [responses] parsed one by one, in order, and the first
    entry that does not parse fails the whole. *)
Theorem parse_formatted_response http_response raw responses formatted :
  get_prop http_response "data" = Ret (transformResponse raw) ->
  JSON_parse raw = Ret responses ->
  formatResponse http_response = Ret formatted ->
  parseResponseBody formatted = traverse JSON_parse (own_enumerable responses).*2.
Proof.
  intros Hdata Hparse. unfold formatResponse. rewrite Hdata. cbn [bind].
  intros [= <-]. unfold parseResponseBody. cbn [get_prop lookup_prop]. simpl.
  unfold transformResponse. rewrite Hparse. cbn [bind].
  generalize (own_enumerable responses). intros items.
  assert (Hgen : forall acc,
             for_in (fun results '(_, r) =>
                       let! parsed := JSON_parse r in Ret (push results parsed)) items acc
             = let! ys := traverse JSON_parse items.*2 in Ret (acc ++ ys)%list).
  { induction items as [|[k r] items IH]; intros acc; csimpl.
    - by rewrite app_nil_r.
    - destruct (JSON_parse r) as [parsed|]; cbn [bind]; [|done].
      rewrite IH. destruct (traverse JSON_parse items.*2); cbn [bind]; [|done].
      unfold push. by rewrite <- app_assoc. }
  rewrite Hgen. by destruct (traverse JSON_parse items.*2).
Qed.

End Requests.

(** ** The constructor without options *)

(** X24. The constructor cannot be called without options: line 58 takes
    [options] that are [undefined] or [null] as empty, but line 63 then
    reads [options.cookies] and throws a [TypeError]. Cookies that are a
    number, [true] or an array have no [split] and throw as well. *)
Theorem constructor_needs_options endpoint options encoded :
  (loose_eq_null options = true ->
   new_TaggedApi endpoint options encoded
   = Throw (TypeError "Cannot read properties of undefined or null"))
  /\ (forall c,
        get_prop options "cookies" = Ret c -> truthy c = true ->
        match c with VNumber _ | VBool _ | VArray _ => True | _ => False end ->
        new_TaggedApi endpoint options encoded
        = Throw (TypeError "options.cookies.split is not a function")).
Proof.
  split.
  - intros Hnull. unfold new_TaggedApi.
    assert (truthy options = false) as -> by by destruct options.
    destruct (mergeRecursive_object_target (VObject [])
                [("query", VObject []);
                 ("params", VObject [("track", VString (_generateTrackId encoded))]);
                 ("timeout", VNumber 10000)]) as (ps & -> & _).
    cbn [bind]. by destruct options.
  - intros c Hc Htruthy Hkind. unfold new_TaggedApi.
    destruct (mergeRecursive_object_target (if truthy options then options else VObject [])
                [("query", VObject []);
                 ("params", VObject [("track", VString (_generateTrackId encoded))]);
                 ("timeout", VNumber 10000)]) as (ps & -> & _).
    cbn [bind]. rewrite Hc. cbn [bind]. rewrite Htruthy. by destruct c.
Qed.

(** ** Fixed params without nested mappings are copied *)

Lemma store_mergeRecursive_step depth obj1 obj2 :
  Store.mergeRecursive (S depth) obj1 obj2
  = Store.sbind (Store.own_keys obj2) (fun keys =>
    Store.sbind (Store.sfor_in (merge_step depth obj1 obj2) keys) (fun _ =>
    Store.sret obj1)).
Proof. reflexivity. Qed.

Lemma store_get_pure obj p st : snd (Store.get obj p st) = st.
Proof. by destruct obj. Qed.

Lemma store_constructor_pure v st : snd (Store.constructor_is_Object v st) = st.
Proof. by destruct v. Qed.

Lemma read_non_reference st obj p : is_reference obj = false -> is_reference (read st obj p) = false.
Proof.
  unfold read. destruct obj; try done. simpl.
  destruct (array_index p); [by destruct (nth_unit _ _)|by destruct (String.eqb p "length")].
Qed.

Lemma store_get_read obj p st v :
  Store.get obj p st = (Ret v, st) -> read st obj p = v.
Proof. unfold read. by intros ->. Qed.

Lemma store_set_refused obj p v st :
  is_reference obj = false -> exists e, Store.set obj p v st = (Throw e, st).
Proof. destruct obj; try done; simpl; eauto. Qed.

Lemma store_sfor_in_pure {A : Type} (body : A -> Store.S unit) l st :
  (forall x st, snd (body x st) = st) -> snd (Store.sfor_in body l st) = st.
Proof.
  intros Hbody. revert st. induction l as [|x l IH]; intros st; [done|].
  simpl. unfold Store.sbind. specialize (Hbody x st).
  destruct (body x st) as [[[]|e] st1]; simpl in *; subst; [apply IH|done].
Qed.

Lemma store_handler_pure cur v2 p st :
  is_reference cur = false ->
  snd (Store.sbind (Store.get v2 p) (fun x => Store.set cur p x) st) = st.
Proof.
  intros Hcur. unfold Store.sbind.
  pose proof (store_get_pure v2 p st) as Hg.
  destruct (Store.get v2 p st) as [[x|e] st1]; simpl in Hg; subst st1; [|done].
  by destruct (store_set_refused cur p x st Hcur) as [e' ->].
Qed.

(** Merging into a value that is not an object changes no object. *)
Lemma store_merge_non_reference depth cur v2 st :
  is_reference cur = false -> snd (Store.mergeRecursive depth cur v2 st) = st.
Proof.
  revert cur v2 st. induction depth as [|depth IH]; intros cur v2 st Hcur; [done|].
  rewrite store_mergeRecursive_step. unfold Store.sbind at 1.
  assert (Hkeys : exists keys, Store.own_keys v2 st = (Ret keys, st)) by by eexists.
  destruct Hkeys as [keys ->]. unfold Store.sbind.
  assert (Hloop : snd (Store.sfor_in (merge_step depth cur v2) keys st) = st).
  { apply store_sfor_in_pure. clear st. intros p st.
    pose proof (store_handler_pure cur v2 p st Hcur) as Hh.
    unfold merge_step, Store.stry. unfold Store.sbind at 1.
    pose proof (store_get_pure v2 p st) as Hg.
    destruct (Store.get v2 p st) as [[x|e] st1] eqn:Hv2; simpl in Hg; subst st1;
      [|exact Hh].
    unfold Store.sbind at 1.
    pose proof (store_constructor_pure x st) as Hc.
    destruct (Store.constructor_is_Object x st) as [[[|]|e] st1]; simpl in Hc; subst st1;
      [| |exact Hh].
    - unfold Store.sbind at 1.
      pose proof (store_get_pure cur p st) as Hg1.
      destruct (Store.get cur p st) as [[c|e] st1] eqn:Hget; simpl in Hg1; subst st1;
        [|exact Hh].
      assert (Hc : is_reference c = false).
      { rewrite <- (store_get_read cur p st c Hget). by apply read_non_reference. }
      unfold Store.sbind at 1.
      pose proof (IH c x st Hc) as Hm.
      destruct (Store.mergeRecursive depth c x st) as [[merged|e] st1];
        simpl in Hm; subst st1; [|exact Hh].
      destruct (store_set_refused cur p merged st Hcur) as [e ->]. exact Hh.
    - destruct (store_set_refused cur p x st Hcur) as [e ->]. exact Hh. }
  destruct (Store.sfor_in (merge_step depth cur v2) keys st) as [[[]|e] st1];
    simpl in *; by subst.
Qed.

Lemma hlookup_hreplace q p x props :
  is_Some (Store.hlookup p props) ->
  Store.hlookup q (Store.hreplace p x props)
  = if String.eqb q p then Some x else Store.hlookup q props.
Proof.
  induction props as [|[k' v'] props IH]; simpl; [by intros [? ?]|].
  destruct (String.eqb p k') eqn:Hp.
  - apply String.eqb_eq in Hp as ->. intros _. simpl. by destruct (String.eqb q k').
  - intros Hsome. simpl. destruct (String.eqb q k') eqn:Hq; [|by apply IH].
    apply String.eqb_eq in Hq as ->.
    rewrite String.eqb_sym in Hp. by rewrite Hp.
Qed.

Lemma hlookup_hadd q p x props :
  Store.hlookup p props = None ->
  Store.hlookup q (Store.hadd p x props)
  = if String.eqb q p then Some x else Store.hlookup q props.
Proof.
  induction props as [|[k' v'] props IH]; simpl; [done|].
  destruct (String.eqb p k') eqn:Hp; [done|]. intros Hnone.
  assert (Hrest : Store.hlookup q ((k', v') :: Store.hadd p x props)
                  = if String.eqb q p then Some x
                    else if String.eqb q k' then Some v' else Store.hlookup q props).
  { simpl. destruct (String.eqb q k') eqn:Hq; [|by apply IH].
    apply String.eqb_eq in Hq as ->. rewrite String.eqb_sym in Hp. by rewrite Hp. }
  destruct (array_index p) as [i|]; [|exact Hrest].
  destruct (array_index k') as [i'|]; [destruct (i <? i')%N; [done|exact Hrest]|done].
Qed.

Lemma hlookup_hset q p x props :
  Store.hlookup q (Store.hset p x props)
  = if String.eqb q p then Some x else Store.hlookup q props.
Proof.
  unfold Store.hset. destruct (Store.hlookup p props) eqn:Hp.
  - apply hlookup_hreplace. by rewrite Hp.
  - by apply hlookup_hadd.
Qed.

Lemma read_object st l q :
  read st (Store.HObject l) q = default Store.HUndefined (Store.objects st !! l ≫= Store.hlookup q).
Proof. reflexivity. Qed.

Lemma read_other_object st st' l obj q :
  obj <> Store.HObject l ->
  (forall l', l' <> l -> Store.objects st' !! l' = Store.objects st !! l') ->
  read st' obj q = read st obj q.
Proof.
  intros Hne Hframe. destruct obj as [| | | | |l2]; try done.
  rewrite !read_object, Hframe; [done|]. by intros ->.
Qed.

Lemma read_wrote st l p x q :
  read (wrote l p x st) (Store.HObject l) q
  = match Store.objects st !! l with
    | Some _ => if String.eqb q p then x else read st (Store.HObject l) q
    | None => Store.HUndefined
    end.
Proof.
  rewrite !read_object. unfold wrote. simpl. rewrite lookup_alter_eq.
  destruct (Store.objects st !! l) as [props|]; simpl; [|done].
  rewrite hlookup_hset. by destruct (String.eqb q p).
Qed.

Lemma writes_only_wrote l p x st : writes_only l st (wrote l p x st).
Proof. split; [done|]. intros l' Hne. unfold wrote. simpl. by rewrite lookup_alter_ne. Qed.

Lemma writes_only_refl l st : writes_only l st st.
Proof. by split. Qed.

Lemma writes_only_trans l st1 st2 st3 :
  writes_only l st1 st2 -> writes_only l st2 st3 -> writes_only l st1 st3.
Proof.
  intros [Hn1 Hf1] [Hn2 Hf2]. split; [congruence|].
  intros l' Hne. by rewrite Hf2, Hf1.
Qed.

(** One round of the loop writes at most [obj1[p]]. *)
Lemma merge_step_writes depth l obj2 p st :
  is_reference (read st obj2 p) = false
  \/ is_reference (read st (Store.HObject l) p) = false ->
  snd (merge_step depth (Store.HObject l) obj2 p st) = st
  \/ exists x, snd (merge_step depth (Store.HObject l) obj2 p st) = wrote l p x st
       /\ (is_reference (read st obj2 p) = false -> is_reference x = false).
Proof.
  intros Hpre.
  set (Q := fun st' : Store.store =>
              st' = st
              \/ exists x, st' = wrote l p x st
                   /\ (is_reference (read st obj2 p) = false -> is_reference x = false)).
  change (Q (snd (merge_step depth (Store.HObject l) obj2 p st))).
  assert (Hhandler : Q (snd (Store.sbind (Store.get obj2 p)
                               (fun x => Store.set (Store.HObject l) p x) st))).
  { unfold Store.sbind.
    pose proof (store_get_pure obj2 p st) as Hg.
    destruct (Store.get obj2 p st) as [[x|e] st1] eqn:Hget; simpl in Hg; subst st1;
      [|by left].
    right. exists x. split; [done|]. by rewrite (store_get_read _ _ _ _ Hget). }
  unfold merge_step, Store.stry. unfold Store.sbind at 1.
  pose proof (store_get_pure obj2 p st) as Hg.
  destruct (Store.get obj2 p st) as [[v2|e] st1] eqn:Hv2; simpl in Hg; subst st1;
    [|exact Hhandler].
  apply store_get_read in Hv2 as Hread.
  unfold Store.sbind at 1.
  pose proof (store_constructor_pure v2 st) as Hc.
  destruct (Store.constructor_is_Object v2 st) as [[[|]|e] st1] eqn:Hctor;
    simpl in Hc; subst st1; [| |exact Hhandler].
  - assert (Hv : is_reference v2 = true) by by destruct v2.
    destruct Hpre as [Hpre|Hpre]; [congruence|].
    unfold Store.sbind at 1.
    change (Store.get (Store.HObject l) p st)
      with (Ret (read st (Store.HObject l) p), st).
    cbv iota beta. unfold Store.sbind at 1.
    pose proof (store_merge_non_reference depth _ v2 st Hpre) as Hm.
    destruct (Store.mergeRecursive depth (read st (Store.HObject l) p) v2 st)
      as [[merged|e] st1]; simpl in Hm; subst st1; [|exact Hhandler].
    right. exists merged. split; [done|]. rewrite Hread. congruence.
  - right. exists v2. split; [done|]. by rewrite Hread.
Qed.

Lemma merge_loop_writes depth l obj2 ks st :
  obj2 <> Store.HObject l ->
  (forall p, p ∈ ks -> is_reference (read st obj2 p) = false)
  \/ (NoDup ks /\ forall p, p ∈ ks -> is_reference (read st (Store.HObject l) p) = false) ->
  let st' := snd (Store.sfor_in (merge_step depth (Store.HObject l) obj2) ks st) in
  writes_only l st st'
  /\ ((forall p, p ∈ ks -> is_reference (read st obj2 p) = false) ->
      reads_flat st (Store.HObject l) -> reads_flat st' (Store.HObject l)).
Proof.
  intros Hne. revert st. induction ks as [|p ks IH]; intros st Hpre.
  { split; [apply writes_only_refl|done]. }
  cbn [Store.sfor_in]. unfold Store.sbind.
  assert (Hstep : is_reference (read st obj2 p) = false
                  \/ is_reference (read st (Store.HObject l) p) = false).
  { destruct Hpre as [Hflat|[_ Hcur]]; [left|right]; [apply Hflat|apply Hcur];
      apply list_elem_of_here. }
  apply (merge_step_writes depth) in Hstep.
  destruct (merge_step depth (Store.HObject l) obj2 p st) as [r st1]. simpl in Hstep.
  assert (Hw : writes_only l st st1).
  { destruct Hstep as [->|(x & -> & _)]; [apply writes_only_refl|apply writes_only_wrote]. }
  assert (Hobj2 : forall q, read st1 obj2 q = read st obj2 q).
  { intros q. apply (read_other_object _ _ l); [done|apply Hw]. }
  assert (Hflat1 : (forall q, q ∈ p :: ks -> is_reference (read st obj2 q) = false) ->
                   reads_flat st (Store.HObject l) -> reads_flat st1 (Store.HObject l)).
  { intros Hflat Hl. destruct Hstep as [->|(x & -> & Hx)]; [done|].
    intros q. rewrite read_wrote. destruct (Store.objects st !! l); [|done].
    destruct (String.eqb q p); [|apply Hl]. apply Hx, Hflat, list_elem_of_here. }
  destruct r as [[]|e]; simpl.
  2:{ split; [done|]. intros Hflat Hl. by apply Hflat1. }
  assert (Hpre1 : (forall q, q ∈ ks -> is_reference (read st1 obj2 q) = false)
                  \/ (NoDup ks
                      /\ forall q, q ∈ ks -> is_reference (read st1 (Store.HObject l) q) = false)).
  { destruct Hpre as [Hflat|[Hnd Hcur]]; [left|right].
    - intros q Hq. rewrite Hobj2. by apply Hflat, list_elem_of_further.
    - apply NoDup_cons in Hnd as [Hp Hnd]. split; [done|]. intros q Hq.
      destruct Hstep as [->|(x & -> & _)]; [by apply Hcur, list_elem_of_further|].
      rewrite read_wrote. destruct (Store.objects st !! l); [|done].
      destruct (String.eqb q p) eqn:Hqp.
      + apply String.eqb_eq in Hqp as ->. done.
      + by apply Hcur, list_elem_of_further. }
  destruct (IH st1 Hpre1) as [Hw' Hflat'].
  split; [by apply (writes_only_trans l st st1)|].
  intros Hflat Hl. apply Hflat'.
  - intros q Hq. rewrite Hobj2. by apply Hflat, list_elem_of_further.
  - by apply Hflat1.
Qed.

(** The keys that [for (var p in obj)] visits in [st]. *)
Lemma store_own_keys obj st : exists keys, Store.own_keys obj st = (Ret keys, st).
Proof. by eexists. Qed.

Lemma store_merge_returns_target depth obj1 obj2 st v st' :
  Store.mergeRecursive depth obj1 obj2 st = (Ret v, st') -> v = obj1.
Proof.
  destruct depth as [|depth]; [done|]. rewrite store_mergeRecursive_step.
  unfold Store.sbind.
  destruct (Store.own_keys obj2 st) as [[keys|e] st1]; [|done].
  destruct (Store.sfor_in _ keys st1) as [[[]|e] st2]; [|done].
  by intros [= <- _].
Qed.

(** Merging into the object at [l] writes to that object only. *)
Lemma merge_into_writes depth l obj2 st :
  obj2 <> Store.HObject l ->
  reads_flat st obj2
  \/ (NoDup (match fst (Store.own_keys obj2 st) with Ret keys => keys | Throw _ => [] end)
      /\ reads_flat st (Store.HObject l)) ->
  let st' := snd (Store.mergeRecursive depth (Store.HObject l) obj2 st) in
  writes_only l st st'
  /\ (reads_flat st obj2 -> reads_flat st (Store.HObject l) ->
      reads_flat st' (Store.HObject l)).
Proof.
  intros Hne Hpre. destruct depth as [|depth].
  { split; [apply writes_only_refl|done]. }
  rewrite store_mergeRecursive_step. unfold Store.sbind at 1.
  destruct (store_own_keys obj2 st) as [keys Hkeys]. rewrite Hkeys in Hpre |- *.
  simpl in Hpre.
  assert (Hloop : (forall p, p ∈ keys -> is_reference (read st obj2 p) = false)
                  \/ (NoDup keys
                      /\ forall p, p ∈ keys -> is_reference (read st (Store.HObject l) p) = false)).
  { destruct Hpre as [Hflat|[Hnd Hl]]; [left|right]; [|split; [done|]]; intros p _;
      [apply Hflat|apply Hl]. }
  destruct (merge_loop_writes depth l obj2 keys st Hne Hloop) as [Hw Hflat].
  unfold Store.sbind.
  destruct (Store.sfor_in (merge_step depth (Store.HObject l) obj2) keys st)
    as [[[]|e] st1]; simpl in *; (split; [done|]); intros H2 Hl; apply Hflat; try done;
    intros p _; apply H2.
Qed.

Lemma flat_reads st l props :
  Store.objects st !! l = Some props -> flat props -> reads_flat st (Store.HObject l).
Proof.
  intros Hl Hflat q. rewrite read_object, Hl. simpl. clear Hl.
  induction Hflat as [|[k v] props Hv _ IH]; simpl; [done|].
  by destruct (String.eqb q k).
Qed.

(** X25. In a store of mappings without a property named as a member of
    [Object.prototype], when the fixed params of the instance hold no
    nested mapping and the caller's params hold mappings only under names
    the fixed params do not have, building the params of a queued record
    (lines 134 and 138) changes no object that existed before: neither the
    instance's params nor the params the caller passed, whether or not the
    merge throws. *)
Theorem flat_params_are_copied (depth : nat) (st : Store.store) (l0 : nat)
    (props0 : list (string * Store.hvalue)) (params_arg : Store.hvalue) :
  ordinary_store st ->
  Store.objects st !! l0 = Some props0 ->
  (l0 < Store.next st)%nat ->
  flat props0 ->
  (forall l1, params_arg = Store.HObject l1 ->
     (l1 < Store.next st)%nat
     /\ NoDup (map fst (default [] (Store.objects st !! l1)))
     /\ apart props0 (default [] (Store.objects st !! l1))) ->
  same_objects st (snd (Store.record_params depth (Store.HObject l0) params_arg st)).
Proof.
  intros _ Hl0 Hlt Hflat Harg0.
  assert (Harg : forall l1, params_arg = Store.HObject l1 ->
     (l1 < Store.next st)%nat
     /\ NoDup (map fst (default [] (Store.objects st !! l1)))).
  { intros l1 Hl1. destruct (Harg0 l1 Hl1) as (? & ? & _). by split. }
  clear Harg0.
  unfold Store.record_params. unfold Store.sbind at 1.
  set (n0 := Store.next st).
  set (st1 := {| Store.objects := <[n0 := []]> (Store.objects st);
                 Store.next := S n0 |}).
  change (Store.alloc [] st) with (Ret (Store.HObject n0), st1). cbv iota beta.
  assert (Hst1 : forall l, (l < n0)%nat -> Store.objects st1 !! l = Store.objects st !! l).
  { intros l Hl. unfold st1. simpl. rewrite lookup_insert_ne; [done|lia]. }
  assert (Hempty : reads_flat st1 (Store.HObject n0)).
  { intros q. rewrite read_object. unfold st1. simpl. by rewrite lookup_insert_eq. }
  assert (Hfixed : reads_flat st1 (Store.HObject l0)).
  { apply (flat_reads _ _ props0); [|done]. by rewrite Hst1. }
  assert (Hne0 : Store.HObject l0 <> Store.HObject n0) by (intros [= ->]; unfold n0 in Hlt; lia).
  destruct (merge_into_writes depth n0 (Store.HObject l0) st1 Hne0 (or_introl Hfixed))
    as [[Hn2 Hw2] Hflat2].
  specialize (Hflat2 Hfixed Hempty).
  unfold Store.sbind at 1.
  destruct (Store.mergeRecursive depth (Store.HObject n0) (Store.HObject l0) st1)
    as [[_params|e] st2] eqn:Hmerge; simpl in Hn2, Hw2, Hflat2.
  2:{ intros l Hl. simpl. rewrite Hw2; [by apply Hst1|fold n0 in Hl; lia]. }
  apply store_merge_returns_target in Hmerge as ->.
  assert (Hst2 : forall l, (l < n0)%nat -> Store.objects st2 !! l = Store.objects st !! l).
  { intros l Hl. rewrite Hw2; [by apply Hst1|lia]. }
  unfold Store.sbind at 1.
  assert (Hsecond : forall arg st3,
            arg <> Store.HObject n0 ->
            (forall l, (l < n0)%nat -> Store.objects st3 !! l = Store.objects st !! l) ->
            reads_flat st3 (Store.HObject n0) ->
            reads_flat st3 arg
            \/ NoDup (match fst (Store.own_keys arg st3) with
                      | Ret keys => keys | Throw _ => [] end) ->
            same_objects st (snd (Store.mergeRecursive depth (Store.HObject n0) arg st3))).
  { intros arg st3 Hne Hst3 Hflat3 Hcase.
    assert (Hpre : reads_flat st3 arg
                   \/ (NoDup (match fst (Store.own_keys arg st3) with
                              | Ret keys => keys | Throw _ => [] end)
                       /\ reads_flat st3 (Store.HObject n0))) by tauto.
    destruct (merge_into_writes depth n0 arg st3 Hne Hpre) as [[_ Hw4] _].
    intros l Hl. fold n0 in Hl. rewrite Hw4; [by apply Hst3|lia]. }
  destruct (Store.htruthy params_arg) eqn:Htruthy.
  - change (Store.sret params_arg st2) with (Ret params_arg, st2). cbv iota beta.
    apply Hsecond; [|done|done|].
    + intros ->. destruct (Harg n0 eq_refl) as [Hl _]. unfold n0 in Hl. lia.
    + destruct params_arg as [| | | | |l1].
      * left. intros q. by apply read_non_reference.
      * left. intros q. by apply read_non_reference.
      * left. intros q. by apply read_non_reference.
      * left. intros q. by apply read_non_reference.
      * left. intros q. by apply read_non_reference.
      * right. destruct (Harg l1 eq_refl) as [Hl Hnd]. simpl.
        rewrite Hst2; [done|by fold n0 in Hl].
  - set (st3 := {| Store.objects := <[Store.next st2 := []]> (Store.objects st2);
                   Store.next := S (Store.next st2) |}).
    change (Store.alloc [] st2) with (Ret (Store.HObject (Store.next st2)), st3).
    cbv iota beta. rewrite Hn2. simpl.
    assert (Hframe3 : forall l, l <> S n0 -> Store.objects st3 !! l = Store.objects st2 !! l).
    { intros l Hl. unfold st3. simpl. rewrite Hn2. simpl. by rewrite lookup_insert_ne. }
    apply Hsecond.
    + intros [= Heq]. lia.
    + intros l Hl. rewrite Hframe3; [by apply Hst2|lia].
    + intros q. rewrite read_object, Hframe3; [|lia]. rewrite <- read_object. apply Hflat2.
    + right. simpl. unfold st3. simpl. rewrite Hn2. simpl. rewrite lookup_insert_eq.
      simpl. constructor.
Qed.

(** ** What the cache key and the encoder do not see *)

(** X26. Params that differ only in a property that holds [undefined], a
    function or a symbol have the same cache key (line 119):
    [JSON.stringify] leaves such properties out. This is for params without
    a [toJSON] of their own, which [JSON.stringify] would call. *)
Theorem cache_key_skips_undefined m ps1 k v ps2 :
  hasOwnProperty (ps1 ++ (k, v) :: ps2) "toJSON" = false ->
  JSON_stringify v = None ->
  cache_key m (VObject (ps1 ++ (k, v) :: ps2)) = cache_key m (VObject (ps1 ++ ps2)).
Proof.
  intros _ Hv. unfold cache_key. do 3 f_equal. cbn [JSON_stringify].
  rewrite !omap_app. cbn [omap list_omap]. by rewrite Hv.
Qed.

Lemma for_in_middle {A S : Type} (body : S -> A -> result S) l1 x x' l2 s :
  (forall s, body s x = body s x') ->
  for_in body (l1 ++ x :: l2) s = for_in body (l1 ++ x' :: l2) s.
Proof.
  intros Hbody. revert s. induction l1 as [|y l1 IH]; intros s; simpl.
  - by rewrite Hbody.
  - destruct (body s y); simpl; [apply IH|done].
Qed.

(** X27. What a mapping holds two levels below a param never reaches the
    wire (lines 383-398): [parameterizeObject] does not descend, it prints
    the inner mapping, which for a mapping without a [toString] of its own
    is the same text whatever the mapping holds. *)
Theorem nested_mapping_is_not_encoded key props1 sk inner inner' props2 :
  hasOwnProperty inner "toString" = false ->
  hasOwnProperty inner' "toString" = false ->
  parameterize key (VObject (props1 ++ (sk, VObject inner) :: props2))
  = parameterize key (VObject (props1 ++ (sk, VObject inner') :: props2)).
Proof.
  intros _ _.
  change (parameterize key (VObject (props1 ++ (sk, VObject inner) :: props2)))
    with (parameterizeObject key (VObject (props1 ++ (sk, VObject inner) :: props2))).
  change (parameterize key (VObject (props1 ++ (sk, VObject inner') :: props2)))
    with (parameterizeObject key (VObject (props1 ++ (sk, VObject inner') :: props2))).
  unfold parameterizeObject. cbn [own_enumerable].
  by rewrite (for_in_middle _ props1 (sk, VObject inner) (sk, VObject inner')).
Qed.

(** ** The Angular service does not cache *)

Section Service.
Context {host : Host}.

Lemma new_TaggedApi_cache endpoint options encoded api :
  new_TaggedApi endpoint options encoded = Ret api -> _cache api = ∅.
Proof.
  unfold new_TaggedApi.
  destruct (mergeRecursive _ _) as [merged|]; simpl; [|done].
  destruct (get_prop options "cookies") as [c|]; simpl; [|done].
  destruct (if truthy c then _ else _); simpl; [|done].
  by intros [= <-].
Qed.

Lemma sweep_empty now : sweep now ∅ = ∅.
Proof. unfold sweep. apply map_filter_empty. Qed.

Lemma call_through_uncached m params_arg env w :
  _cache (this (snd (call_through m params_arg NoCache env w))) = _cache (this w).
Proof.
  unfold call_through.
  pose proof (field_is_enqueue _cache (_cache (this w)) (fun _ _ => eq_refl)
                (fun _ _ => eq_refl) m params_arg env (next_promise w)
                (with_new_promise w) eq_refl) as He.
  destruct (enqueue m params_arg env (next_promise w) (with_new_promise w)) as [[[]|e] w1].
  - exact He.
  - exact He.
Qed.

Lemma execute_uncached method_arg params_arg env w :
  _cache (this w) = ∅ ->
  _cache (this (snd (execute method_arg params_arg NoCache env w))) = ∅
  /\ forall r w', execute method_arg params_arg NoCache env w = (Ret r, w') ->
       r = ReturnedPromise (next_promise w).
Proof.
  intros Hw. destruct (invalid_method method_arg) eqn:Hm.
  { rewrite execute_invalid_method by done. by split. }
  apply invalid_method_false in Hm as (m & -> & Hm).
  rewrite execute_valid by done. cbv zeta. cbn [cache_requested].
  assert (Hc : swept_cache env w = ∅).
  { unfold swept_cache. rewrite Hw. destruct (random_gt_099 _); [apply sweep_empty|done]. }
  rewrite Hc. split.
  - by rewrite call_through_uncached.
  - intros r w' H. apply (f_equal fst) in H. rewrite call_through_returns in H.
    by injection H as <-.
Qed.

Lemma cache_empty_perform a w w' :
  through_service a -> _cache (this w) = ∅ -> perform a w = Some w' ->
  _cache (this w') = ∅.
Proof.
  intros Ha Hw. destruct a; unfold perform.
  - simpl in Ha. subst config. intros [= <-]. by apply execute_uncached.
  - intros <-%(inj Some). rewrite on_eq. done.
  - intros [= <-]. done.
  - intros [= <-].
    by apply (field_is_resetQueue _cache ∅ (fun _ _ => eq_refl) (fun _ _ => eq_refl)).
  - intros [= <-].
    by apply (field_is__postToApi _cache ∅ (fun _ _ => eq_refl) (fun _ _ => eq_refl)).
  - destruct (decide (t ∈ timers w)); [|done]. intros [= <-].
    by apply (field_is__postToApi _cache ∅ (fun _ _ => eq_refl) (fun _ _ => eq_refl)).
  - destruct (exchanges w !! i) as [x|]; [|done].
    destruct (decide (i ∈ answered w)); [done|]. intros [= <-].
    apply (about_complete (field_is _cache ∅) x o (field_is_about _cache ∅)). done.
Qed.

(** X28. The Angular service never caches. Its [execute] does not pass
    [config] on, so in every state that the client of the service reaches
    through it the cache is empty, and every call that does not throw gets
    a promise of its own, the next one. *)
Theorem angular_service_never_caches id timeout encoded api w :
  new_TaggedApi "/api/" (taggedApiFactory_options id timeout) encoded = Ret api ->
  reachable_by through_service (initial_world api) w ->
  _cache (this w) = ∅
  /\ forall method_arg params_arg env r w',
       service_execute method_arg params_arg env w = (Ret r, w') ->
       r = ReturnedPromise (next_promise w) /\ _cache (this w') = ∅.
Proof.
  intros Hnew Hreach.
  assert (Hw : _cache (this w) = ∅).
  { apply (reachable_by_preserves (fun w => _cache (this w) = ∅) through_service
             (initial_world api)); [apply cache_empty_perform| |done].
    by apply (new_TaggedApi_cache _ _ _ _ Hnew). }
  split; [done|]. intros method_arg params_arg env r w' H. unfold service_execute in H.
  destruct (execute_uncached method_arg params_arg env w Hw) as [Hc Hr].
  split; [by apply (Hr r w')|]. by rewrite H in Hc.
Qed.

End Service.
(** ** The theorems at sample inputs *)

(** Each conjunct by evaluation, from left to right. *)
Ltac evaluate :=
  lazymatch goal with
  | |- _ /\ _ => split; [vm_compute; reflexivity|evaluate]
  | _ => vm_compute; reflexivity
  end.


(** C5 fails on the code. One call in flight, and the response holds the
    result [{stat: "", result: 7}] for it: its [stat] is present and is not
    ['ok'], so the claim, like the comment above [execute] (lines 95-98),
    has the promise rejected with the result. Line 227 tests
    [result.stat && result.stat !== 'ok'], the empty string is falsy, and
    the promise is resolved with the result. *)
Theorem falsy_stat_is_resolved :
  let res := VObject [("stat", VString ""); ("result", VNumber 7)] in
  let host := host_for [res] in
  exists w,
    run [plain_call "a"; TimerFires 0;
         TransportAnswers 0 (Responded (response_with [res]))]
        (initial_world sample_api) = Some w
    /\ parseResponseBody (response_with [res]) = Ret [res]
    /\ lookup_prop "stat" (own_enumerable res) = Some (VString "")
    /\ strict_eq_string (VString "") "ok" = false
    /\ promises w !! 0%nat = Some (Resolved res)
    /\ trace w = [CalledResolve 0 res].
Proof. intros res host. eexists. evaluate. Qed.





(** A new client, one call, one flush: the line of the call holds the
    track pair. *)
Lemma track_on_every_wire_line_witness :
  let host := host_for [] in
  let w := after [plain_call "m"; TimerFires 0] (initial_world sample_api) in
  let x := {| request := {| body := newline ++ "method=m&track=MTIzNDU2Nz" ++ newline;
                            url := "/api/?"; cookies := VUndefined;
                            clientId := VUndefined; secret := VUndefined;
                            headers := VObject [] |};
              batch := [sample_call "m" 0] |} in
  exchanges w = [x]
  /\ stringifyQueue (batch x) = Ret (body (request x))
  /\ exists pairs,
       stringifyCall (sample_call "m" 0)
       = Ret (join "&" (("method=" ++ encode_string "m") :: pairs))
       /\ ("track=" ++ encode_string (_generateTrackId "MTIzNDU2NzguOTAx")) ∈ pairs.
Proof.
  intros host w x.
  assert (Hw : exchanges w = [x]) by (vm_compute; reflexivity).
  split; [exact Hw|].
  refine (track_on_every_wire_line "/api/" (VObject []) "MTIzNDU2NzguOTAx" sample_api w
            eq_refl eq_refl _ _ x (sample_call "m" 0) _ _).
  - intros v Hv. by apply elem_of_nil in Hv.
  - apply (run_reachable_by _ [plain_call "m"; TimerFires 0]);
      [repeat constructor|vm_compute; reflexivity].
  - rewrite Hw. apply list_elem_of_here.
  - apply list_elem_of_here.
Defined.

(** C10 as stated fails for a client constructed with
    [{params: {track: null}}]: its calls are sent without a track pair. So
    are those of a client constructed with [{params: null}], whose options
    set no [track]: line 58 replaces the fixed params as a whole. *)
Lemma options_override_track_counterexample :
  let host := host_for [] in
  let options := VObject [("params", VObject [("track", VNull)])] in
  let options' := VObject [("params", VNull)] in
  (exists api w x,
     new_TaggedApi "/api/" options "MTIzNDU2NzguOTAx" = Ret api
     /\ run [plain_call "m"; TimerFires 0] (initial_world api) = Some w
     /\ exchanges w = [x]
     /\ body (request x) = newline ++ "method=m" ++ newline)
  /\ (exists api w x,
        new_TaggedApi "/api/" options' "MTIzNDU2NzguOTAx" = Ret api
        /\ run [plain_call "m"; TimerFires 0] (initial_world api) = Some w
        /\ exchanges w = [x]
        /\ body (request x) = newline ++ "method=m" ++ newline).
Proof.
  intros host options options'. split; eexists _, _, _; evaluate.
Qed.

(** ** The further properties at sample inputs *)

(** The pair of the parameter [a b] with the value [1&2]. *)
Lemma parameterizePrimitive_injective_witness :
  parameterizePrimitive "a b" (VString "1&2") = Ret "a%20b=1%262"
  /\ "a b" = "a b" /\ ToString (VString "1&2") = ToString (VString "1&2").
Proof.
  split; [reflexivity|].
  apply (parameterizePrimitive_injective "a b" (VString "1&2") "a b" (VString "1&2")
           "a%20b=1%262"); reflexivity.
Defined.

(** One call whose method and parameter hold newlines: two newlines in the
    body. *)
Lemma body_newlines_witness :
  let queue := [{| method := "a" ++ newline ++ "b";
                   params := VObject [("k", VString newline)];
                   deferred := 0; timeStart := (0, 0) |}] in
  let text := newline ++ "method=a%0Ab&k=%0A" ++ newline in
  stringifyQueue queue = Ret text /\ occurrences newline_unit text = 2%nat.
Proof.
  intros queue text. split; [reflexivity|].
  apply (body_newlines queue text). reflexivity.
Defined.

(** A call with a key that holds [&], a value that holds [=] and a [null]. *)
Lemma flat_line_separators_witness :
  let call := {| method := "m";
                 params := VObject [("a&b", VString "c=d"); ("n", VNull);
                                    ("k", VNumber 7)];
                 deferred := 0; timeStart := (0, 0) |} in
  stringifyCall call = Ret "method=m&a%26b=c%3Dd&k=7"
  /\ occurrences "&" "method=m&a%26b=c%3Dd&k=7" = length (sent_params call)
  /\ occurrences "=" "method=m&a%26b=c%3Dd&k=7" = S (length (sent_params call)).
Proof.
  intros call. split; [reflexivity|].
  apply (flat_line_separators call "method=m&a%26b=c%3Dd&k=7"); [|reflexivity].
  intros k v Hin. simpl in Hin.
  repeat (apply elem_of_cons in Hin as [Hin|Hin]; [by injection Hin as -> ->|]).
  by apply elem_of_nil in Hin.
Defined.

(** A string that replaces a number and a mapping that is merged. *)
Lemma mergeRecursive_by_key_witness :
  let props := [("a", VNumber 1); ("b", VObject [("x", VNumber 1)])] in
  let obj2 := VObject [("a", VString "new"); ("b", VObject [("y", VNumber 2)])] in
  mergeRecursive (VObject props) obj2
  = Ret (VObject [("a", VString "new");
                  ("b", VObject [("x", VNumber 1); ("y", VNumber 2)])])
  /\ exists props',
       mergeRecursive (VObject props) obj2 = Ret (VObject props')
       /\ (forall k v, (k, v) ∈ own_enumerable obj2 ->
             lookup_prop k props'
             = Some (merged_value (default VUndefined (lookup_prop k props)) v))
       /\ (forall k, k ∉ (own_enumerable obj2).*1 ->
             lookup_prop k props' = lookup_prop k props).
Proof.
  intros props obj2. split; [reflexivity|].
  apply (mergeRecursive_by_key props obj2); [reflexivity|reflexivity|].
  apply (bool_decide_unpack _). vm_compute. exact I.
Defined.

(** Merging one property into [undefined]. *)
Lemma mergeRecursive_refused_witness :
  let obj2 := VObject [("a", VNumber 1)] in
  (own_enumerable obj2 = [] -> mergeRecursive VUndefined obj2 = Ret VUndefined)
  /\ (own_enumerable obj2 <> [] -> exists e, mergeRecursive VUndefined obj2 = Throw e).
Proof.
  intros obj2. apply (mergeRecursive_refused VUndefined obj2); reflexivity.
Defined.

(** The same call twice, one second apart, cached for ten seconds. *)
Lemma cache_hit_sound_witness :
  let host := table_host [] in
  let call := execute (VString "m") (VObject [("a", VNumber 1)]) (CacheSeconds 10) in
  let w1 := snd (call (sample_env 1000) (initial_world sample_api)) in
  let entry := {| expires := At 11000; promise := 0 |} in
  call (sample_env 2000) w1 = (Ret (ReturnedCacheEntry entry), w1)
  /\ exists m,
       VString "m" = VString m
       /\ cache_requested (CacheSeconds 10) = true
       /\ _cache (this w1) !! cache_key m (VObject [("a", VNumber 1)]) = Some entry
       /\ expires_gt (expires entry) (now_lookup (sample_env 2000)) = true
       /\ _queue (this w1) = _queue (this w1)
       /\ promises w1 = promises w1 /\ next_promise w1 = next_promise w1
       /\ exchanges w1 = exchanges w1 /\ timers w1 = timers w1.
Proof.
  intros host call w1 entry.
  assert (Hhit : call (sample_env 2000) w1 = (Ret (ReturnedCacheEntry entry), w1))
    by (vm_compute; reflexivity).
  split; [exact Hhit|].
  exact (cache_hit_sound (VString "m") (VObject [("a", VNumber 1)]) (CacheSeconds 10)
           (sample_env 2000) w1 entry w1 Hhit).
Defined.

Lemma cached_call_is_shared_witness :
  let host := table_host [] in
  let call := execute (VString "m") (VObject [("a", VNumber 1)]) (CacheSeconds 10) in
  let w1 := snd (call (sample_env 1000) (initial_world sample_api)) in
  exists w2,
    call (sample_env 2000) w1
    = (Ret (ReturnedCacheEntry {| expires := At 11000; promise := 0 |}), w2)
    /\ _queue (this w2) = _queue (this w1)
    /\ promises w2 = promises w1
    /\ exchanges w2 = exchanges w1.
Proof.
  intros host call w1.
  refine (cached_call_is_shared "m" (VObject [("a", VNumber 1)]) (CacheSeconds 10)
            (sample_env 1000) (sample_env 2000) (initial_world sample_api) 0 w1
            _ eq_refl _ eq_refl _).
  - done.
  - vm_compute; reflexivity.
  - intros _. reflexivity.
Defined.

(** A call without a method, with params and a cache directive. *)
Lemma execute_throws_only_method_error_witness :
  let host := table_host [] in
  let w := initial_world sample_api in
  let params := VObject [("a", VNumber 1)] in
  execute (VString "") params (CacheSeconds 10) (sample_env 0) w
  = (Throw (Error "Method is required to execute API calls"), w)
  /\ invalid_method (VString "") = true
  /\ Error "Method is required to execute API calls"
     = Error "Method is required to execute API calls"
  /\ w = w.
Proof.
  intros host w params. split; [reflexivity|].
  apply (execute_throws_only_method_error (VString "") params (CacheSeconds 10)
           (sample_env 0) w); reflexivity.
Defined.

(** A client with the size limit 1 and a call that holds a function. *)
Lemma failed_flush_rejects_promise_witness :
  let host := table_host [] in
  let w := snd (setMaxQueueSize (Some 1) (initial_world sample_api)) in
  let w' := snd (execute (VString "m") function_params NoCache (sample_env 0) w) in
  0%nat = next_promise w
  /\ (exists e, promises w' !! 0%nat = Some (Rejected e))
  /\ (exists call, _queue (this w') = (_queue (this w) ++ [call])%list
                   /\ method call = "m" /\ deferred call = 0%nat)
  /\ exchanges w' = exchanges w /\ timers w' = timers w.
Proof.
  intros host w w'.
  refine (failed_flush_rejects_promise "m" function_params NoCache (sample_env 0) w
            [("query", VObject []);
             ("params", VObject [("track", VString "MTIzNDU2Nz")]);
             ("timeout", VNumber 10000)]
            1 "f" (VFunction "function(){}") 0 w' _ _ eq_refl eq_refl _ _ eq_refl eq_refl
            _ _ _).
  - done.
  - split; [reflexivity|constructor].
  - apply (bool_decide_unpack _). vm_compute. exact I.
  - apply list_elem_of_here.
  - done.
  - vm_compute. discriminate.
  - vm_compute; reflexivity.
Defined.

(** A call that failed in transport stays rejected when another call is
    made. *)
Lemma settled_promises_are_final_witness :
  let host := table_host [] in
  let timeout := Error "timeout" in
  let w := after [plain_call "a"; TimerFires 0; TransportAnswers 0 (Failed timeout)]
                 (initial_world sample_api) in
  let w' := after [plain_call "b"] w in
  promises w !! 0%nat = Some (Rejected timeout)
  /\ promises w' !! 0%nat = Some (Rejected timeout).
Proof.
  intros host timeout w w'.
  assert (Hp : promises w !! 0%nat = Some (Rejected timeout)) by (vm_compute; reflexivity).
  split; [exact Hp|].
  refine (settled_promises_are_final sample_api w w' 0 (Rejected timeout) _ _ Hp _).
  - apply (run_reachable [plain_call "a"; TimerFires 0;
                          TransportAnswers 0 (Failed timeout)]).
    vm_compute; reflexivity.
  - apply (run_reachable [plain_call "b"]). vm_compute; reflexivity.
  - discriminate.
Defined.

(** Two calls posted, a third queued. *)
Lemma calls_leave_in_order_witness :
  let host := table_host [] in
  let w := after [plain_call "a"; plain_call "b"; TimerFires 0; plain_call "c"]
                 (initial_world sample_api) in
  deferred <$> sent_then_queued w = [0; 1; 2]%nat
  /\ increasing (deferred <$> sent_then_queued w).
Proof.
  intros host w. split; [vm_compute; reflexivity|].
  refine (calls_leave_in_order "/api/" (VObject []) "MTIzNDU2NzguOTAx" sample_api w
            eq_refl _).
  apply (run_reachable [plain_call "a"; plain_call "b"; TimerFires 0; plain_call "c"]).
  vm_compute; reflexivity.
Defined.

(** A call is queued, the queue is reset, and another call is made, posted
    and answered. *)
Lemma resetQueue_abandons_calls_witness :
  let host := table_host [] in
  let w := after [plain_call "a"] (initial_world sample_api) in
  let w' := after [plain_call "b"; TimerFires 1; TransportAnswers 0 (Failed (Error "down"))]
                  (snd (resetQueue w)) in
  sample_call "a" 0 ∈ _queue (this w)
  /\ promises w' !! 1%nat = Some (Rejected (Error "down"))
  /\ _queue (this (snd (resetQueue w))) = []
  /\ promises w' !! deferred (sample_call "a" 0) = Some Pending.
Proof.
  intros host w w'.
  assert (Hin : sample_call "a" 0 ∈ _queue (this w)).
  { replace (_queue (this w)) with [sample_call "a" 0] by (vm_compute; reflexivity).
    apply list_elem_of_here. }
  split; [exact Hin|]. split; [vm_compute; reflexivity|].
  refine (resetQueue_abandons_calls "/api/" (VObject []) "MTIzNDU2NzguOTAx" sample_api
            w (sample_call "a" 0) w' eq_refl _ Hin _ _).
  - apply (run_reachable [plain_call "a"]). vm_compute; reflexivity.
  - vm_compute; reflexivity.
  - apply (run_reachable [plain_call "b"; TimerFires 1;
                          TransportAnswers 0 (Failed (Error "down"))]).
    vm_compute; reflexivity.
Defined.

(** A subscriber registered before a call is made and posted. *)
Lemma subscribers_only_grow_witness :
  let host := table_host [] in
  let w1 := snd (on "error" silent_subscriber (initial_world sample_api)) in
  let w' := after [plain_call "a"; TimerFires 0] w1 in
  default [] (_events (this w1) !! "error") `prefix_of` default [] (_events (this w') !! "error").
Proof.
  intros host w1 w'.
  refine (proj2 (proj2 (subscribers_only_grow (initial_world sample_api) "error"
                          silent_subscriber eq_refl _)) w' "error" _).
  - intros k _. apply lookup_empty.
  - apply (run_reachable_by ordinary_action [plain_call "a"; TimerFires 0]);
      [repeat constructor|vm_compute; reflexivity].
Defined.

(** The limit 2, then three calls. *)
Lemma limit_is_last_set_witness :
  let host := table_host [] in
  let w' := after [plain_call "a"; plain_call "b"; plain_call "c"]
                  (snd (setMaxQueueSize (Some 2) (initial_world sample_api))) in
  length (exchanges w') = 1%nat /\ getMaxQueueSize w' = (Ret (Some 2), w').
Proof.
  intros host w'. split; [vm_compute; reflexivity|].
  refine (limit_is_last_set (Some 2) (initial_world sample_api) w' _).
  apply (run_reachable_by keeps_limit [plain_call "a"; plain_call "b"; plain_call "c"]).
  - repeat constructor.
  - vm_compute; reflexivity.
Defined.

(** One call, posted by the timer. *)
Lemma posted_batches_not_empty_witness :
  let host := table_host [] in
  let w := after [plain_call "m"; TimerFires 0] (initial_world sample_api) in
  let x := sample_exchange (newline ++ "method=m&track=MTIzNDU2Nz" ++ newline)
                           [sample_call "m" 0] in
  x ∈ exchanges w /\ batch x <> [].
Proof.
  intros host w x.
  assert (Hx : x ∈ exchanges w).
  { replace (exchanges w) with [x] by (vm_compute; reflexivity). apply list_elem_of_here. }
  split; [exact Hx|].
  refine (posted_batches_not_empty "/api/" (VObject []) "MTIzNDU2NzguOTAx" sample_api
            w x eq_refl _ Hx).
  apply (run_reachable_by public [plain_call "m"; TimerFires 0]).
  - repeat constructor.
  - vm_compute; reflexivity.
Defined.

(** Two calls in two batches; the first batch fails. *)
Lemma answer_touches_only_its_batch_witness :
  let host := table_host [] in
  let w := after [plain_call "a"; TimerFires 0; plain_call "b"; TimerFires 1]
                 (initial_world sample_api) in
  let x := sample_exchange (newline ++ "method=a&track=MTIzNDU2Nz" ++ newline)
                           [sample_call "a" 0] in
  let o := Failed (Error "down") in
  let w' := snd (complete x o (mark_answered 0 w)) in
  promises w' !! 0%nat = Some (Rejected (Error "down"))
  /\ this w' = this w /\ timers w' = timers w /\ exchanges w' = exchanges w
  /\ next_promise w' = next_promise w
  /\ forall q, q ∉ deferred <$> batch x -> promises w' !! q = promises w !! q.
Proof.
  intros host w x o w'. split; [vm_compute; reflexivity|].
  refine (answer_touches_only_its_batch 0 x o w w' _ _ _);
    [left; constructor|vm_compute; reflexivity|vm_compute; reflexivity].
Defined.

(** The timeout of a client constructed without options. *)
Lemma timeout_is_positive_witness :
  http_timeout sample_api = Ret 10000
  /\ 0 < 10000
  /\ (10000 < 10 ^ 21 -> AngularAdapter_setTimeout (VNumber 10000) = Ret 10000).
Proof.
  split; [reflexivity|]. apply (timeout_is_positive sample_api 10000). reflexivity.
Defined.

Lemma default_timeout_witness :
  new_TaggedApi "/api/" (VObject []) "MTIzNDU2NzguOTAx" = Ret sample_api
  /\ http_timeout sample_api = Ret 10000.
Proof.
  split; [reflexivity|].
  apply (default_timeout "/api/" (VObject []) "MTIzNDU2NzguOTAx" sample_api); reflexivity.
Defined.


(** A session cookie whose value ends in [==], and a second cookie. *)
Lemma cookies_by_name_witness :
  let options := VObject [("cookies", VString "sid=abc==; lang=en")] in
  let pairs := [("sid", "abc=="); ("lang", "en")] in
  constructor_cookies options = Ret [("sid", VString "abc"); ("lang", VString "en")]
  /\ exists cookies,
       constructor_cookies options = Ret cookies
       /\ forall k v, (k, v) ∈ pairs -> lookup_prop k cookies = Some (VString (before_eq v)).
Proof.
  intros options pairs. split; [reflexivity|].
  apply (cookies_by_name options pairs).
  - discriminate.
  - repeat constructor.
  - apply (bool_decide_unpack _). vm_compute. exact I.
  - apply (bool_decide_unpack _). vm_compute. exact I.
  - reflexivity.
Defined.

(** Two batches of one client. *)
Lemma requests_of_one_client_witness :
  let host := table_host [] in
  let w := after [plain_call "a"; TimerFires 0; plain_call "b"; TimerFires 1]
                 (initial_world sample_api) in
  let x := sample_exchange (newline ++ "method=a&track=MTIzNDU2Nz" ++ newline)
                           [sample_call "a" 0] in
  let y := sample_exchange (newline ++ "method=b&track=MTIzNDU2Nz" ++ newline)
                           [sample_call "b" 1] in
  exchanges w = [x; y]
  /\ request_for sample_api (body (request x)) = Ret (request x)
  /\ url (request x) = url (request y)
  /\ cookies (request x) = cookies (request y)
  /\ clientId (request x) = clientId (request y)
  /\ secret (request x) = secret (request y)
  /\ headers (request x) = headers (request y).
Proof.
  intros host w x y.
  assert (Hw : exchanges w = [x; y]) by (vm_compute; reflexivity).
  split; [exact Hw|].
  refine (requests_of_one_client sample_api w x y eq_refl _ _ _).
  - apply (run_reachable_by ordinary_action
             [plain_call "a"; TimerFires 0; plain_call "b"; TimerFires 1]);
      [repeat constructor|vm_compute; reflexivity].
  - rewrite Hw. apply list_elem_of_here.
  - rewrite Hw. apply list_elem_of_further, list_elem_of_here.
Defined.

(** One call of the Angular service for the client id [web]. *)
Lemma angular_service_requests_witness :
  let host := table_host [] in
  let w := after [plain_call "m"; TimerFires 0] (initial_world angular_api) in
  let x := {| request := {| body := newline ++ "method=m&track=MTIzNDU2Nz" ++ newline;
                            url := "/api/?application_id=user&format=json";
                            cookies := VUndefined; clientId := VString "web";
                            secret := VUndefined; headers := VObject [] |};
              batch := [sample_call "m" 0] |} in
  let post := AngularAdapter_post 5000 (VString "http://localhost/") (request x) in
  exchanges w = [x]
  /\ post_url post = "/api/?application_id=user&format=json"
  /\ post_data post = body (request x)
  /\ (primitive (VString "web") = true ->
      lookup_prop "x-tagged-client-id" (post_headers post) = Some (VString "web")).
Proof.
  intros host w x post.
  assert (Hw : exchanges w = [x]) by (vm_compute; reflexivity).
  split; [exact Hw|].
  refine (angular_service_requests (VString "web") (VNumber 5000) "MTIzNDU2NzguOTAx"
            angular_api w x 5000 (VString "http://localhost/") eq_refl eq_refl _ _).
  - apply (run_reachable_by ordinary_action [plain_call "m"; TimerFires 0]);
      [repeat constructor|vm_compute; reflexivity].
  - rewrite Hw. apply list_elem_of_here.
Defined.

(** A response of [$http] whose data is the text of one result. *)
Lemma parse_formatted_response_witness :
  let res := VObject [("stat", VString "ok")] in
  let host := host_for [res] in
  let raw := text_of (VArray [text_of res]) in
  let http_response := VObject [("data", raw); ("status", VNumber 200)] in
  parseResponseBody (VObject [("body", raw)]) = Ret [res]
  /\ parseResponseBody (VObject [("body", raw)])
     = traverse JSON_parse (own_enumerable (VArray [text_of res])).*2.
Proof.
  intros res host raw http_response. split; [vm_compute; reflexivity|].
  apply (parse_formatted_response http_response raw (VArray [text_of res])
           (VObject [("body", raw)])); vm_compute; reflexivity.
Defined.

(** A client constructed with [null] for its options, and one with the
    number 5 for its cookies. *)
Lemma constructor_needs_options_witness :
  new_TaggedApi "/api/" VNull "MTIzNDU2NzguOTAx"
  = Throw (TypeError "Cannot read properties of undefined or null")
  /\ new_TaggedApi "/api/" (VObject [("cookies", VNumber 5)]) "MTIzNDU2NzguOTAx"
     = Throw (TypeError "options.cookies.split is not a function").
Proof.
  split.
  - apply (proj1 (constructor_needs_options "/api/" VNull "MTIzNDU2NzguOTAx")).
    reflexivity.
  - apply (proj2 (constructor_needs_options "/api/" (VObject [("cookies", VNumber 5)])
                    "MTIzNDU2NzguOTAx") (VNumber 5)); [reflexivity|reflexivity|exact I].
Defined.

Lemma flat_params_are_copied_witness :
  same_objects flat_store
    (snd (Store.record_params 4 (Store.HObject 0) (Store.HObject 1) flat_store)).
Proof.
  apply (flat_params_are_copied 4 flat_store 0
           [("track", Store.HString "T"); ("app", Store.HString "a")]).
  - intros l props Hprops. unfold flat_store in Hprops. simpl in Hprops.
    destruct (decide (l = 0%nat)) as [->|H0];
      [rewrite lookup_insert_eq in Hprops; injection Hprops as <-;
       by repeat constructor|rewrite lookup_insert_ne in Hprops by done].
    destruct (decide (l = 1%nat)) as [->|H1];
      [rewrite lookup_insert_eq in Hprops; injection Hprops as <-;
       by repeat constructor|rewrite lookup_insert_ne in Hprops by done].
    destruct (decide (l = 2%nat)) as [->|H2];
      [rewrite lookup_insert_eq in Hprops; injection Hprops as <-;
       by repeat constructor|rewrite lookup_insert_ne in Hprops by done].
    by rewrite lookup_empty in Hprops.
  - reflexivity.
  - simpl. lia.
  - repeat constructor.
  - intros l1 [= <-]. split; [simpl; lia|]. split.
    + apply (bool_decide_unpack _). vm_compute. exact I.
    + repeat constructor.
Defined.

Lemma cache_key_skips_undefined_witness :
  cache_key "m" (VObject ([("a", VNumber 1)] ++ ("b", VUndefined) :: [("c", VBool true)]))
  = cache_key "m" (VObject ([("a", VNumber 1)] ++ [("c", VBool true)])).
Proof.
  apply (cache_key_skips_undefined "m" [("a", VNumber 1)] "b" VUndefined); reflexivity.
Defined.

Lemma nested_mapping_is_not_encoded_witness :
  parameterize "ctx" (VObject ([("a", VString "1")] ++ ("b", VObject [("c", VString "2")]) :: []))
  = parameterize "ctx" (VObject ([("a", VString "1")] ++ ("b", VObject [("d", VNumber 3)]) :: [])).
Proof.
  apply (nested_mapping_is_not_encoded "ctx" [("a", VString "1")] "b"); reflexivity.
Defined.

(** The client of the Angular service after one call. *)
Lemma angular_service_never_caches_witness :
  let host := table_host [] in
  let w := after [plain_call "m"] (initial_world angular_api) in
  _cache (this w) = ∅
  /\ forall method_arg params_arg env r w',
       service_execute method_arg params_arg env w = (Ret r, w') ->
       r = ReturnedPromise (next_promise w) /\ _cache (this w') = ∅.
Proof.
  intros host w.
  refine (angular_service_never_caches (VString "web") (VNumber 5000) "MTIzNDU2NzguOTAx"
            angular_api w eq_refl _).
  apply (run_reachable_by through_service [plain_call "m"]).
  - constructor; [reflexivity|constructor].
  - vm_compute; reflexivity.
Defined.
